(** * wordgen: odometer word generator with a bounded ring buffer

    A shallow embedding of [wordgen.go] (package [wordgen]) and the
    properties of its counter, its constructor, its buffer cursors and
    the words it delivers; with them the total its example program
    computes and the [PassGen] revision of the package.

    Conventions of the embedding.
    - Go's [uint], [uint64] and [int] are the 64-bit ones of the gc
      toolchain on 64-bit targets.  An unsigned value is a [Z] in
      [0, 2^64) and every arithmetic operation on it is followed by
      [wrap64]; an [int] is a [Z] in [-2^63, 2^63) and is renormalised by
      [wrap_int].
    - [[]byte] and [string] are [list byte]; [[]uint] is [list Z];
      indexing outside the length of a slice is a run-time panic.
    - every method body runs under [pg.mu], so a method (or the part of a
      method between two releases of the lock) is one atomic transition
      of the engine state [WordGen]; [pg.mu] and [pg.genCond] themselves
      are not fields of the model, a wait on [genCond] is a result
      ([NextWait], [BatchWait]) and the wake-up a second transition. *)

From Stdlib Require Import ZArith List Lia Bool.
From Stdlib Require Import Strings.Byte.

From stdpp Require Import base option list countable strings gmap.

Local Open Scope Z_scope.
#[local] Set Warnings "-clear-no-such-hyp".

(** ** Machine integers and slices *)

Definition wrap64 (x : Z) : Z := x mod 2 ^ 64.

(** [int(x)] for an unsigned [x]. *)
Definition to_int (x : Z) : Z := if x <? 2 ^ 63 then x else x - 2 ^ 64.

(** Arithmetic on [int] wraps in two's complement. *)
Definition wrap_int (x : Z) : Z := (x + 2 ^ 63) mod 2 ^ 64 - 2 ^ 63.

(** [uint64(x) << k]: a shift count of 64 or more yields 0. *)
Definition shl64 (x k : Z) : Z := wrap64 (Z.shiftl x k).

(** [bits.Len64]: the number of bits needed to represent [n]. *)
Definition Len64 (n : Z) : Z := if n =? 0 then 0 else Z.log2 n + 1.

(** [runtime.maxAlloc] of the 64-bit runtime (48 address bits): [make]
    panics when the requested capacity times the element size exceeds
    it. *)
Definition maxAlloc : Z := 2 ^ 48.

Definition sizeof_uint : Z := 8.
Definition sizeof_slice : Z := 24.

(** [make([]T, len, cap)] succeeds. *)
Definition make_ok (elemsize len cap : Z) : bool :=
  (0 <=? len) && (len <=? cap) && (cap * elemsize <=? maxAlloc).

#[global] Instance byte_eq_dec : EqDecision byte := Byte.byte_eq_dec.

#[global] Instance byte_countable : Countable byte :=
  inj_countable Byte.to_N Byte.of_N Byte.of_to_N.

(** [bytes.IndexByte]: index of the first occurrence, or -1. *)
Fixpoint IndexByte (b : list byte) (c : byte) : Z :=
  match b with
  | [] => -1
  | x :: b' =>
      if Byte.eqb x c then 0
      else let n := IndexByte b' c in if n <? 0 then -1 else n + 1
  end.

(** ** Errors and outcomes *)

Inductive error : Type :=
| ErrMinGreaterThanMax
| ErrCharsetEmpty
| ErrDuplicateCharacter (index : Z)
| ErrInitialStateTooShort
| ErrInitialStateTooLong
| ErrInitialStateCharacter (c : byte) (index : Z)
| ErrAlreadyRunning.

(** A call returns a value, returns an error, or panics. *)
Inductive outcome (A : Type) : Type :=
| Ok (a : A)
| Err (e : error)
| Panic.
Arguments Ok {A} a.
Arguments Err {A} e.
Arguments Panic {A}.

(** ** Configuration and engine state *)

Definition defaultCharset : list byte :=
  String.list_byte_of_string
    "abcdefghijklmnopqrstuvwxyzABCDEFGHIJKLMNOPQRSTUVWXYZ0123456789"%string.
Definition defaultMinLen : Z := 8.
Definition defaultMaxLen : Z := 10.
Definition minBufferSize : Z := 1.

Record Config : Type := mkConfig {
  Charset : list byte;
  InitialState : list byte;
  MinLen : Z;
  MaxLen : Z;
  BufferSize : Z
}.

(** [time.Time] as nanoseconds since the zero instant; [time.Time{}] is 0. *)
Definition Time : Type := Z.
Definition zeroTime : Time := 0.
Definition IsZero (t : Time) : bool := t =? 0.

(** [time.Duration] is an [int64] of nanoseconds.  [Time.Sub] returns
    [t - u], or the largest (smallest) [Duration] when the difference
    does not fit; [time.Since(u)] is [time.Now().Sub(u)]. *)
Definition maxDuration : Z := 2 ^ 63 - 1.
Definition minDuration : Z := - 2 ^ 63.

Definition Sub (t u : Time) : Z :=
  if t - u >? maxDuration then maxDuration
  else if t - u <? minDuration then minDuration
  else t - u.

Definition Since (now u : Time) : Z := Sub now u.

Record WordGen : Type := mkWordGen {
  config : Config;
  charset : list byte;
  charsetLen : Z;
  startTime : Time;
  endTime : Time;
  generated : Z;
  bufSize : Z;
  bufMask : Z;
  buf : list (list byte);
  bufR : Z;
  bufW : Z;
  state : list Z;
  initialState : list Z;
  stateLen : Z;
  running : bool
}.

(** ** roundToNearestPowerOfTwo *)

Definition roundToNearestPowerOfTwo (n : Z) : Z :=
  if n =? 0 then 1
  else if Z.land n (wrap64 (n - 1)) =? 0 then n
  else
    let next := shl64 1 (Len64 n) in
    let prev := Z.shiftr next 1 in
    if wrap64 (n - prev) <? wrap64 (next - n) then prev else next.

(** ** NewWordGen *)

(** The [charsetSeen] loop: the index of the first byte already seen. *)
Fixpoint charset_duplicate (charsetSeen : gset byte) (i : Z) (cs : list byte)
  : option Z :=
  match cs with
  | [] => None
  | c :: cs' =>
      if decide (c ∈ charsetSeen) then Some i
      else charset_duplicate ({[c]} ∪ charsetSeen) (i + 1) cs'
  end.

(** The loop that fills [pg.initialState] from [config.InitialState],
    starting at index [i]; the store [pg.initialState[i] = uint(n)]
    panics outside the slice. *)
Fixpoint fill_initial (cs : list byte) (i : nat) (word : list byte)
  (init : list Z) : outcome (list Z) :=
  match word with
  | [] => Ok init
  | c :: word' =>
      let n := IndexByte cs c in
      if n <? 0 then Err (ErrInitialStateCharacter c (Z.of_nat i))
      else if (i <? length init)%nat
           then fill_initial cs (S i) word' (<[i := n]> init)
           else Panic
  end.

Definition apply_defaults (config : Config) : Config :=
  let minLen := if MinLen config =? 0 then defaultMinLen else MinLen config in
  let maxLen := if MaxLen config =? 0 then defaultMaxLen else MaxLen config in
  let cs := match Charset config with [] => defaultCharset | _ => Charset config end in
  mkConfig cs (InitialState config) minLen maxLen (BufferSize config).

Definition NewWordGen (config0 : Config) : outcome WordGen :=
  let config1 := apply_defaults config0 in
  if MinLen config1 >? MaxLen config1 then Err ErrMinGreaterThanMax
  else
    let config :=
      mkConfig (Charset config1) (InitialState config1) (MinLen config1)
        (MaxLen config1)
        (if BufferSize config1 <? minBufferSize then minBufferSize
         else BufferSize config1) in
    (* state: make([]uint, 0, MaxLen); initialState: make([]uint, MaxLen) *)
    if negb (make_ok sizeof_uint 0 (MaxLen config)
             && make_ok sizeof_uint (MaxLen config) (MaxLen config))
    then Panic
    else
      let cs := Charset config in
      let csLen := Z.of_nat (length cs) in
      if csLen =? 0 then Err ErrCharsetEmpty
      else
        match charset_duplicate ∅ 0 cs with
        | Some i => Err (ErrDuplicateCharacter i)
        | None =>
            let zeros := replicate (Z.to_nat (MaxLen config)) 0 in
            let word := InitialState config in
            let len := Z.of_nat (length word) in
            let init : outcome (list Z) :=
              if len >? 0 then
                if len <? to_int (MinLen config) then Err ErrInitialStateTooShort
                else if len >? to_int (MaxLen config) then Err ErrInitialStateTooLong
                else
                  match fill_initial cs 0 word zeros with
                  | Ok filled => Ok (take (length word) filled)
                  | Err e => Err e
                  | Panic => Panic
                  end
              else Ok (take (Z.to_nat (MinLen config)) zeros) in
            match init with
            | Err e => Err e
            | Panic => Panic
            | Ok initial =>
                let size := roundToNearestPowerOfTwo (BufferSize config) in
                (* buf: make([][]byte, size), every slot make([]byte, 0, MaxLen) *)
                if negb (make_ok sizeof_slice size size) then Panic
                else
                  Ok {| config := config;
                        charset := cs;
                        charsetLen := csLen;
                        startTime := zeroTime;
                        endTime := zeroTime;
                        generated := 0;
                        bufSize := size;
                        bufMask := wrap64 (size - 1);
                        buf := replicate (Z.to_nat size) [];
                        bufR := 0;
                        bufW := 0;
                        state := [];
                        initialState := initial;
                        stateLen := 0;
                        running := false |}
            end
        end.

Definition bytes (s : String.string) : list byte := String.list_byte_of_string s.
Arguments bytes s%_string.

(** ** Field updates *)

Definition with_state (st : list Z) (pg : WordGen) : WordGen :=
  mkWordGen (config pg) (charset pg) (charsetLen pg) (startTime pg) (endTime pg)
    (generated pg) (bufSize pg) (bufMask pg) (buf pg) (bufR pg) (bufW pg)
    st (initialState pg) (stateLen pg) (running pg).

Definition with_stateLen (n : Z) (pg : WordGen) : WordGen :=
  mkWordGen (config pg) (charset pg) (charsetLen pg) (startTime pg) (endTime pg)
    (generated pg) (bufSize pg) (bufMask pg) (buf pg) (bufR pg) (bufW pg)
    (state pg) (initialState pg) n (running pg).

Definition with_running (b : bool) (pg : WordGen) : WordGen :=
  mkWordGen (config pg) (charset pg) (charsetLen pg) (startTime pg) (endTime pg)
    (generated pg) (bufSize pg) (bufMask pg) (buf pg) (bufR pg) (bufW pg)
    (state pg) (initialState pg) (stateLen pg) b.

Definition with_endTime (t : Time) (pg : WordGen) : WordGen :=
  mkWordGen (config pg) (charset pg) (charsetLen pg) (startTime pg) t
    (generated pg) (bufSize pg) (bufMask pg) (buf pg) (bufR pg) (bufW pg)
    (state pg) (initialState pg) (stateLen pg) (running pg).

Definition with_bufR (r : Z) (pg : WordGen) : WordGen :=
  mkWordGen (config pg) (charset pg) (charsetLen pg) (startTime pg) (endTime pg)
    (generated pg) (bufSize pg) (bufMask pg) (buf pg) r (bufW pg)
    (state pg) (initialState pg) (stateLen pg) (running pg).

(** The three updates of one producer iteration: the slot, [bufW] and
    [generated]. *)
Definition with_written (slots : list (list byte)) (w g : Z) (pg : WordGen)
  : WordGen :=
  mkWordGen (config pg) (charset pg) (charsetLen pg) (startTime pg) (endTime pg)
    g (bufSize pg) (bufMask pg) slots (bufR pg) w
    (state pg) (initialState pg) (stateLen pg) (running pg).

(** ** Run, Stop, Stats *)

(** [Run] under the lock; [now] is the value of [time.Now()].  The two
    goroutines it starts are [ctx_done] and the producer
    ([runGenerator_iter] repeated, then [producer_exit]). *)
Definition Run (now : Time) (pg : WordGen) : outcome WordGen :=
  if running pg then Err ErrAlreadyRunning
  else
    let len := Z.of_nat (length (initialState pg)) in
    if negb (make_ok sizeof_uint len (MaxLen (config pg))) then Panic
    else
      Ok (mkWordGen (config pg) (charset pg) (charsetLen pg) now zeroTime
            (generated pg) (bufSize pg) (bufMask pg) (buf pg) 0 0
            (initialState pg) (initialState pg) len true).

Definition Stop (pg : WordGen) : WordGen := with_running false pg.

(** The goroutine waiting on [ctx.Done()]. *)
Definition ctx_done (pg : WordGen) : WordGen := with_running false pg.

(** The producer goroutine after [runGenerator] has returned. *)
Definition producer_exit (now : Time) (pg : WordGen) : WordGen :=
  with_running false (with_endTime now pg).

(** [Stats]: the count and the elapsed time ([now] is the clock that
    [time.Since] reads). *)
Definition Stats (now : Time) (pg : WordGen) : Z * Z :=
  if IsZero (startTime pg) then (0, 0)
  else if IsZero (endTime pg) then (generated pg, Since now (startTime pg))
  else (generated pg, Sub (endTime pg) (startTime pg)).

(** ** The counter: nextState *)

(** [nil], [io.EOF] (the receiver is mutated in both cases) or a panic. *)
Inductive advance : Type :=
| Advanced (pg : WordGen)
| Exhausted (pg : WordGen)
| AdvancePanic.

(** The loop [for i := 0; ; i++] at index [i]; [remaining] is
    [pg.stateLen - i], so that the test [i >= pg.stateLen] is
    [remaining = 0] ([pg.stateLen] only changes on the way out). *)
Fixpoint nextState_from (remaining i : nat) (pg : WordGen) : advance :=
  match remaining with
  | O =>
      let pg1 := with_stateLen (wrap_int (stateLen pg + 1)) pg in
      if stateLen pg1 >? to_int (MaxLen (config pg1)) then Exhausted pg1
      else Advanced (with_state (state pg1 ++ [0]) pg1)
  | S remaining' =>
      match state pg !! i with
      | None => AdvancePanic
      | Some d =>
          let d' := wrap64 (d + 1) in
          if d' <? charsetLen pg
          then Advanced (with_state (<[i := d']> (state pg)) pg)
          else nextState_from remaining' (S i)
                 (with_state (<[i := 0]> (state pg)) pg)
      end
  end.

Definition nextState (pg : WordGen) : advance :=
  nextState_from (Z.to_nat (stateLen pg)) 0 pg.

(** ** The producer: one iteration of runGenerator *)

(** The slot contents written for the current state: the slot is
    resliced to [pg.stateLen] (a panic beyond its capacity [MaxLen]) and
    byte [i] becomes [pg.charset[pg.state[i]]]. *)
Definition encode (pg : WordGen) : option (list byte) :=
  if (stateLen pg <? 0) || (stateLen pg >? to_int (MaxLen (config pg)))
  then None
  else
    mapM (fun i => d ← state pg !! i; charset pg !! Z.to_nat d)
         (seq 0 (Z.to_nat (stateLen pg))).

Inductive iteration : Type :=
| IterStopped
| IterFull
| IterWrote (pg : WordGen)
| IterDone (pg : WordGen)
| IterPanic.

(** One pass through the body of the [for] loop, lock to unlock:
    [IterStopped] is [return nil] on a cleared flag, [IterFull] the sleep
    and [continue], [IterWrote] a normal pass and [IterDone] the
    [return nil] on [io.EOF]. *)
Definition runGenerator_iter (pg : WordGen) : iteration :=
  if negb (running pg) then IterStopped
  else if wrap64 (bufW pg - bufR pg) >=? bufSize pg then IterFull
  else
    let idx := Z.to_nat (Z.land (bufW pg) (bufMask pg)) in
    match buf pg !! idx, encode pg with
    | Some _, Some w =>
        let pg1 :=
          with_written (<[idx := w]> (buf pg)) (wrap64 (bufW pg + 1))
            (wrap64 (generated pg + 1)) pg in
        match nextState pg1 with
        | Advanced pg2 => IterWrote pg2
        | Exhausted pg2 => IterDone pg2
        | AdvancePanic => IterPanic
        end
    | _, _ => IterPanic
    end.

(** ** The consumers: Next and Batch *)

Inductive next_result : Type :=
| NextWord (w : list byte) (pg : WordGen)
| NextEOF (pg : WordGen)
| NextWait (pg : WordGen)
| NextPanic.

(** The tail of [Next]: read slot [bufR & bufMask], advance [bufR].  The
    value returned is the slot's contents at the time of the call. *)
Definition pop (pg : WordGen) : next_result :=
  match buf pg !! Z.to_nat (Z.land (bufR pg) (bufMask pg)) with
  | Some w => NextWord w (with_bufR (wrap64 (bufR pg + 1)) pg)
  | None => NextPanic
  end.

(** [Next] up to its return or to [genCond.Wait()], where it releases
    the lock ([NextWait]) ... *)
Definition Next (pg : WordGen) : next_result :=
  if bufR pg >=? bufW pg then
    if negb (running pg) then NextEOF pg else NextWait pg
  else pop pg.

(** ... and from the wake-up to the return. *)
Definition Next_wake (pg : WordGen) : next_result :=
  if bufR pg >=? bufW pg then NextEOF pg else pop pg.

Inductive batch_result : Type :=
| BatchDone (count : Z) (words : list (list byte)) (pg : WordGen)
| BatchWait (i : nat) (count : Z) (words : list (list byte)) (pg : WordGen)
| BatchPanic.

(** The loop of [Batch] from index [i] with [todo = len(words) - i]
    entries left; [woken] tells that the loop is entered just after
    [genCond.Wait()] returned.  [words[i]] receives a copy of the slot
    (in place or freshly allocated: the contents are the same). *)
Fixpoint Batch_from (todo i : nat) (woken : bool) (count : Z)
  (words : list (list byte)) (pg : WordGen) : batch_result :=
  match todo with
  | O => BatchDone count words pg
  | S todo' =>
      if (bufR pg >=? bufW pg) && (woken || negb (running pg))
      then BatchDone count words pg
      else if bufR pg >=? bufW pg then BatchWait i count words pg
      else
        match buf pg !! Z.to_nat (Z.land (bufR pg) (bufMask pg)) with
        | Some src =>
            Batch_from todo' (S i) false (wrap_int (count + 1))
              (<[i := src]> words) (with_bufR (wrap64 (bufR pg + 1)) pg)
        | None => BatchPanic
        end
  end.

Definition Batch (words : list (list byte)) (pg : WordGen) : batch_result :=
  Batch_from (length words) 0 false 0 words pg.

(** [Batch] resumed at index [i] after the wake-up. *)
Definition Batch_wake (i : nat) (count : Z) (words : list (list byte))
  (pg : WordGen) : batch_result :=
  Batch_from (length words - i) i true count words pg.

(** ** Whole runs *)

(** A single consumer that calls [Next] until [io.EOF], as the tests
    do, against one producer goroutine.  The producer is scheduled when
    the consumer waits: it runs for at most [burst + 1] iterations that
    write (or up to a full buffer or to the end) and its first write
    wakes the consumer.  [alive] is false once the producer goroutine
    has finished. *)
Fixpoint produce_burst (burst : nat) (now : Time) (pg : WordGen)
  : option (bool * WordGen) :=
  match burst with
  | O => Some (true, pg)
  | S burst' =>
      match runGenerator_iter pg with
      | IterWrote pg' => produce_burst burst' now pg'
      | IterDone pg' => Some (false, producer_exit now pg')
      | IterStopped => Some (false, producer_exit now pg)
      | IterFull => Some (true, pg)
      | IterPanic => None
      end
  end.

Fixpoint consume (fuel burst : nat) (now : Time) (alive : bool) (pg : WordGen)
  : option (list (list byte) * WordGen) :=
  match fuel with
  | O => None
  | S fuel' =>
      match Next pg with
      | NextWord w pg' =>
          '(ws, pg'') ← consume fuel' burst now alive pg'; Some (w :: ws, pg'')
      | NextEOF pg' => Some ([], pg')
      | NextPanic => None
      | NextWait pg' =>
          if alive then
            '(alive', pg1) ← produce_burst (S burst) now pg';
            if bufW pg1 =? bufW pg' then None (* nothing written: no wake-up *)
            else
              match Next_wake pg1 with
              | NextWord w pg2 =>
                  '(ws, pg3) ← consume fuel' burst now alive' pg2;
                  Some (w :: ws, pg3)
              | NextEOF pg2 => Some ([], pg2)
              | _ => None
              end
          else None
      end
  end.

(** ** The engine as a transition system *)

(** Each critical section is one action.  Any action may be taken in
    any state: this covers every interleaving of the producer goroutine,
    the cancellation goroutine and any number of consumers. *)
Inductive action : Type :=
| ARun (now : Time)
| AStop
| ACtxDone
| AProduce
| AProducerExit (now : Time)
| ANext
| ANextWake
| ABatch (words : list (list byte))
| ABatchWake (i : nat) (count : Z) (words : list (list byte)).

(** The engine state a call leaves behind ([None] after a panic). *)
Definition iteration_post (pg : WordGen) (r : iteration) : option WordGen :=
  match r with
  | IterStopped | IterFull => Some pg
  | IterWrote pg' | IterDone pg' => Some pg'
  | IterPanic => None
  end.

Definition next_post (r : next_result) : option WordGen :=
  match r with
  | NextWord _ pg' | NextEOF pg' | NextWait pg' => Some pg'
  | NextPanic => None
  end.

Definition batch_post (r : batch_result) : option WordGen :=
  match r with
  | BatchDone _ _ pg' | BatchWait _ _ _ pg' => Some pg'
  | BatchPanic => None
  end.

Inductive step : action -> WordGen -> WordGen -> Prop :=
| step_Run now pg pg' :
    Run now pg = Ok pg' -> step (ARun now) pg pg'
| step_Stop pg : step AStop pg (Stop pg)
| step_ctx_done pg : step ACtxDone pg (ctx_done pg)
| step_produce pg pg' :
    iteration_post pg (runGenerator_iter pg) = Some pg' -> step AProduce pg pg'
| step_producer_exit now pg :
    step (AProducerExit now) pg (producer_exit now pg)
| step_Next pg pg' :
    next_post (Next pg) = Some pg' -> step ANext pg pg'
| step_Next_wake pg pg' :
    next_post (Next_wake pg) = Some pg' -> step ANextWake pg pg'
| step_Batch words pg pg' :
    batch_post (Batch words pg) = Some pg' -> step (ABatch words) pg pg'
| step_Batch_wake i count words pg pg' :
    batch_post (Batch_wake i count words pg) = Some pg' ->
    step (ABatchWake i count words) pg pg'.

(** States reachable from [pg0] by actions that satisfy [allowed] in the
    state they are taken in. *)
Inductive reachable_if (allowed : action -> WordGen -> Prop) (pg0 : WordGen)
  : WordGen -> Prop :=
| reachable_start : reachable_if allowed pg0 pg0
| reachable_next a pg pg' :
    reachable_if allowed pg0 pg -> allowed a pg -> step a pg pg' ->
    reachable_if allowed pg0 pg'.

Definition reachable : WordGen -> WordGen -> Prop :=
  reachable_if (fun _ _ => True).

(** The producer does not write slot number [2^64 - 1] of a run: [bufW]
    does not wrap around. *)
Definition no_wrap (a : action) (pg : WordGen) : Prop :=
  a = AProduce -> bufW pg + 1 < 2 ^ 64.

(** * Vocabulary of the properties *)

(** [c] is the power of two nearest to [n], the larger one on a tie. *)
Definition nearest_power_of_two (n c : Z) : Prop :=
  (exists k, 0 <= k /\ c = 2 ^ k) /\
  (forall j, 0 <= j -> Z.abs (n - c) <= Z.abs (n - 2 ^ j)) /\
  (forall j, 0 <= j -> Z.abs (n - c) = Z.abs (n - 2 ^ j) -> 2 ^ j <= c).

(** The configuration after the defaults and the [minBufferSize] floor. *)
Definition effective (cfg : Config) : Config :=
  let c := apply_defaults cfg in
  mkConfig (Charset c) (InitialState c) (MinLen c) (MaxLen c)
    (Z.max 1 (BufferSize c)).

(** The digits of the word the counter starts from. *)
Definition initial_digits (c : Config) : list Z :=
  match InitialState c with
  | [] => replicate (Z.to_nat (MinLen c)) 0
  | _ => IndexByte (Charset c) <$> InitialState c
  end.

(** The engine [NewWordGen] returns for the effective configuration [c]. *)
Definition fresh_engine (c : Config) : WordGen :=
  let size := roundToNearestPowerOfTwo (BufferSize c) in
  {| config := c;
     charset := Charset c;
     charsetLen := Z.of_nat (length (Charset c));
     startTime := zeroTime;
     endTime := zeroTime;
     generated := 0;
     bufSize := size;
     bufMask := wrap64 (size - 1);
     buf := replicate (Z.to_nat size) [];
     bufR := 0;
     bufW := 0;
     state := [];
     initialState := initial_digits c;
     stateLen := 0;
     running := false |}.

(** What the checks of [NewWordGen] accept. *)
Record accepted (c : Config) : Prop := {
  acc_lengths : MinLen c <= MaxLen c;
  acc_alloc : 0 <= MaxLen c /\ MaxLen c * sizeof_uint <= maxAlloc;
  acc_nonempty : Charset c <> [];
  acc_nodup : NoDup (Charset c);
  acc_initial :
    InitialState c <> [] ->
    MinLen c <= Z.of_nat (length (InitialState c)) <= MaxLen c /\
    Forall (fun x => x ∈ Charset c) (InitialState c)
}.

(** An initial word was supplied and [NewWordGen] rejects it. *)
Definition bad_initial_state (c : Config) : Prop :=
  InitialState c <> [] /\
  (Z.of_nat (length (InitialState c)) < MinLen c \/
   MaxLen c < Z.of_nat (length (InitialState c)) \/
   exists x, x ∈ InitialState c /\ x ∉ Charset c).

(** Configurations of [wordgen_test.go] and variations on them. *)
Definition cfg_abc : Config := mkConfig (bytes "abc") [] 1 2 10.
Definition cfg_abc_from_ba : Config := mkConfig (bytes "abc") (bytes "ba") 1 2 10.

Definition cfg_abc_size5 : Config := mkConfig (bytes "abc") [] 1 2 5.
Definition cfg_no_charset : Config := mkConfig [] [] 1 2 10.
Definition cfg_max_only : Config := mkConfig (bytes "abc") [] 0 5 10.

(** The fields that only [NewWordGen] sets. *)
Definition static (pg : WordGen)
  : Config * list byte * Z * Z * Z * list Z * nat :=
  (config pg, charset pg, charsetLen pg, bufSize pg, bufMask pg,
   initialState pg, length (buf pg)).

(** What [nextState] leaves alone. *)
Definition frame (pg : WordGen) :=
  (config pg, charset pg, charsetLen pg, startTime pg, endTime pg,
   generated pg, bufSize pg, bufMask pg, buf pg, bufR pg, bufW pg,
   initialState pg, running pg).

(** Shape of the buffer fields in every reachable state. *)
Record buffer_ok (pg : WordGen) : Prop := {
  bo_R : 0 <= bufR pg < 2 ^ 64;
  bo_W : 0 <= bufW pg < 2 ^ 64;
  bo_size : 0 <= bufSize pg /\ bufSize pg * sizeof_slice <= maxAlloc;
  bo_len : length (buf pg) = Z.to_nat (bufSize pg);
  bo_mask : bufMask pg = wrap64 (bufSize pg - 1);
  bo_zero : bufSize pg = 0 -> bufW pg = bufR pg
}.

(** The cursor invariant of the specification. *)
Definition cursors_ok (pg : WordGen) : Prop :=
  bufR pg <= bufW pg <= bufR pg + bufSize pg.

(** Actions of the consumers and of the producer loop. *)
Definition buffer_action (a : action) : Prop :=
  match a with
  | AProduce | ANext | ANextWake | ABatch _ | ABatchWake _ _ _ => True
  | _ => False
  end.

(** The effect of an action on the cursors. *)
Definition cursor_effect (a : action) (pg pg' : WordGen) : Prop :=
  match a with
  | ARun _ => bufR pg' = 0 /\ bufW pg' = 0
  | AProduce =>
      bufR pg' = bufR pg /\
      (bufW pg' = bufW pg \/
       wrap64 (bufW pg - bufR pg) < bufSize pg /\ bufW pg' = wrap64 (bufW pg + 1))
  | ANext | ANextWake | ABatch _ | ABatchWake _ _ _ =>
      bufW pg' = bufW pg /\
      (bufR pg' = bufR pg \/ bufR pg < bufR pg' <= bufW pg)
  | AStop | ACtxDone | AProducerExit _ => bufR pg' = bufR pg /\ bufW pg' = bufW pg
  end.

(** ** The odometer order *)

#[global] Instance byte_inhabited : Inhabited byte := populate Byte.x00.

(** Little-endian increment in radix [R]; [None] when the carry leaves
    the last digit. *)
Fixpoint incr (R : Z) (ds : list Z) : option (list Z) :=
  match ds with
  | [] => None
  | d :: ds' =>
      if d + 1 <? R then Some ((d + 1) :: ds') else cons 0 <$> incr R ds'
  end.

(** The successor of a digit sequence: the increment, or on carry-out
    the zero sequence one digit longer, if that fits [maxLen]. *)
Definition next_digits (R : Z) (maxLen : nat) (ds : list Z) : option (list Z) :=
  match incr R ds with
  | Some ds' => Some ds'
  | None =>
      if (maxLen <? S (length ds))%nat then None
      else Some (replicate (S (length ds)) 0)
  end.

(** All digit sequences of length [n], digit 0 changing fastest. *)
Fixpoint all_states (R : Z) (n : nat) : list (list Z) :=
  match n with
  | O => [[]]
  | S n' => all_states R n' ≫= fun w => (fun d => d :: w) <$> seqZ 0 R
  end.

(** Lengths [lo], [lo + 1], ..., [lo + k - 1], one after the other. *)
Definition enumeration_from (R : Z) (lo k : nat) : list (list Z) :=
  seq lo k ≫= all_states R.

(** Length-major, odometer-minor: lengths [lo .. hi]. *)
Definition enumeration (R : Z) (lo hi : nat) : list (list Z) :=
  enumeration_from R lo (S hi - lo).

(** The number a digit sequence denotes, digit 0 least significant. *)
Definition value (R : Z) (ds : list Z) : Z :=
  foldr (fun d acc => d + R * acc) 0 ds.

(** [R^lo + ... + R^hi]. *)
Definition sum_powers (R : Z) (lo hi : nat) : Z :=
  foldr Z.add 0 ((fun L => R ^ Z.of_nat L) <$> seq lo (S hi - lo)).

(** The ranks (length, value) in length-major, odometer-minor order. *)
Definition ranks (R : Z) (lo hi : nat) : list (nat * Z) :=
  seq lo (S hi - lo) ≫= fun L => (fun v => (L, v)) <$> seqZ 0 (R ^ Z.of_nat L).

(** The word of a digit sequence: [symbol(d[0]) ... symbol(d[L-1])]. *)
Definition word_of (cs : list byte) (ds : list Z) : list byte :=
  (fun d => cs !!! Z.to_nat d) <$> ds.

Definition valid_digits (R : Z) (ds : list Z) : Prop :=
  Forall (fun d => 0 <= d < R) ds.

(** Consecutive elements are related by [f]. *)
Inductive chain {A : Type} (f : A -> option A) : list A -> Prop :=
| chain_one x : chain f [x]
| chain_cons x y l : f x = Some y -> chain f (y :: l) -> chain f (x :: y :: l).

(** The counter of [pg] stands at the digits [ds]. *)
Record counter_at (pg : WordGen) (ds : list Z) : Prop := {
  ca_state : state pg = ds;
  ca_len : stateLen pg = Z.of_nat (length ds);
  ca_digits : valid_digits (charsetLen pg) ds;
  ca_bound : Z.of_nat (length ds) <= MaxLen (config pg);
  ca_radix : charsetLen pg = Z.of_nat (length (charset pg));
  ca_small : 0 < charsetLen pg < 2 ^ 63;
  ca_alloc : MaxLen (config pg) * sizeof_uint <= maxAlloc
}.


Definition cfg_ab_len1 : Config := mkConfig (bytes "ab") [] 1 1 1.
Definition cfg_ab_len65 : Config := mkConfig (bytes "ab") [] 65 65 1.

(** The sequence expected by the tests for charset "abc", lengths 1..2. *)
Definition abc_words : list (list byte) :=
  [bytes "a"; bytes "b"; bytes "c"; bytes "aa"; bytes "ba"; bytes "ca";
   bytes "ab"; bytes "bb"; bytes "cb"; bytes "ac"; bytes "bc"; bytes "cc"].

(** The words of the states the counter goes through from the state of
    [pg] on: the word [encode] gives for the current state, then
    [nextState], until it reports [io.EOF].  This follows the counter
    alone, with neither the buffer nor its cursors: the producer loop is
    [runGenerator_iter], and a run as its consumer receives it is
    [consume].  [None] is a panic or too little fuel. *)
Fixpoint emitted (fuel : nat) (pg : WordGen) : option (list (list byte)) :=
  match fuel with
  | O => None
  | S fuel' =>
      w ← encode pg;
      match nextState pg with
      | Exhausted _ => Some [w]
      | Advanced pg' => rest ← emitted fuel' pg'; Some (w :: rest)
      | AdvancePanic => None
      end
  end.

(** Where the write cursor stands relative to the counter, in the run
    that goes through the states [E]: before the first start; at the [n]-th
    state with [n] slots written; or exhausted with all of them written. *)
Definition position (E : list (list Z)) (pg : WordGen) : Prop :=
  (running pg = false /\ bufW pg = 0) \/
  (exists n s, E !! n = Some s /\ counter_at pg s /\ bufW pg = Z.of_nat n) \/
  (bufW pg = Z.of_nat (length E) /\ stateLen pg = MaxLen (config pg) + 1).

(** The part of a list of states from the first occurrence of [x] on. *)
Fixpoint from_first (x : list Z) (l : list (list Z)) : list (list Z) :=
  match l with
  | [] => []
  | y :: l' => if decide (y = x) then l else from_first x l'
  end.

(** The states the counter of [pg] takes in one run, in order: the
    enumeration of the lengths [MinLen .. MaxLen] from the initial state
    on. *)
Definition run_sequence (pg : WordGen) : list (list Z) :=
  from_first (initialState pg)
    (enumeration (charsetLen pg) (Z.to_nat (MinLen (config pg)))
       (Z.to_nat (MaxLen (config pg)))).

(** The words of a run, in order. *)
Definition run_words (pg : WordGen) : list (list byte) :=
  word_of (charset pg) <$> run_sequence pg.

(** The number of words of the whole enumeration. *)
Definition total_words (pg : WordGen) : Z :=
  sum_powers (charsetLen pg) (Z.to_nat (MinLen (config pg)))
    (Z.to_nat (MaxLen (config pg))).

(** The slots between the cursors hold the words of the run [E] at the
    positions the cursors count. *)
Definition slots_ok (E : list (list Z)) (pg : WordGen) : Prop :=
  forall k, bufR pg <= k < bufW pg ->
    exists s, E !! Z.to_nat k = Some s /\
      buf pg !! Z.to_nat (Z.land k (bufMask pg)) = Some (word_of (charset pg) s).

(** One run, left alone: [Run] is called once (on an engine that was
    never started, at a time that is not the zero [time.Time]), nobody
    calls [Stop], the context is not cancelled, and the producer
    goroutine finishes only after [runGenerator] has returned on
    [io.EOF]. *)
Definition single_run (a : action) (pg : WordGen) : Prop :=
  match a with
  | ARun now => stateLen pg = 0 /\ IsZero now = false
  | AStop | ACtxDone => False
  | AProducerExit now => MaxLen (config pg) < stateLen pg /\ IsZero now = false
  | _ => True
  end.

(** [Run] has not been called. *)
Definition never_started (pg : WordGen) : Prop :=
  stateLen pg = 0 /\ running pg = false /\ bufW pg = 0 /\ bufR pg = 0 /\
  generated pg = 0 /\ startTime pg = zeroTime.

(** The first run is under way, or over once the running flag is
    cleared; [n] is the number of words of the run. *)
Definition first_run (n : Z) (pg : WordGen) : Prop :=
  generated pg = bufW pg /\ IsZero (startTime pg) = false /\
  1 <= stateLen pg /\
  (running pg = true -> endTime pg = zeroTime) /\
  (running pg = false ->
   IsZero (endTime pg) = false /\ MaxLen (config pg) < stateLen pg /\ bufW pg = n).

(** [Run] is not called. *)
Definition no_restart (a : action) (pg : WordGen) : Prop :=
  match a with
  | ARun _ => False
  | _ => True
  end.

(** The write cursor has wrapped around [2^64] since the last start: it
    stands below the read cursor. *)
Definition wrapped (pg : WordGen) : Prop := bufW pg < bufR pg.

(** The run [E] is being delivered in order: the cursors, the counter
    and the slots between the cursors agree with it. *)
Definition in_order (E : list (list Z)) (pg : WordGen) : Prop :=
  cursors_ok pg /\ position E pg /\ slots_ok E pg.

(** A state of the first run of the engine [pg0], as the single
    consumer of [consume] finds it between two calls: the producer
    goroutine is alive with the counter at the state the write cursor
    counts, or it has finished after the last word of the run. *)
Definition in_run (pg0 : WordGen) (alive : bool) (pg : WordGen) : Prop :=
  reachable pg0 pg /\ running pg = alive /\ generated pg = bufW pg /\
  if alive
  then exists s, run_sequence pg0 !! Z.to_nat (bufW pg) = Some s /\ counter_at pg s
  else bufW pg = Z.of_nat (length (run_sequence pg0)).

(** * The example program (examples/wordgen.go) *)

(** The buffer size the example asks for, [uint64(8e6)]. *)
Definition bufferSize : Z := 8000000.

(** The flags as [main] validates them, and the configuration it builds:
    [None] is [os.Exit(1)]. *)
Definition main_config (charset : list byte) (minLen maxLen : Z) : option Config :=
  if minLen >? maxLen then None
  else if Z.of_nat (length charset) =? 0 then None
  else Some (mkConfig charset [] minLen maxLen bufferSize).

(** The inner loop [for i := uint(0); i < length; i++], which multiplies
    [lengthCombinations] (a [big.Int]) by [charsetLen]; [n] is the number
    of iterations left. *)
Fixpoint lengthCombinations_loop (n : nat) (charsetLen lengthCombinations : Z) : Z :=
  match n with
  | O => lengthCombinations
  | S n' => lengthCombinations_loop n' charsetLen (lengthCombinations * charsetLen)
  end.

(** The outer loop [for length := *minLen; length <= *maxLen; length++]
    on the [uint] [length], adding to the [big.Int] [theoretical];
    [None] means that the fuel ran out. *)
Fixpoint theoretical_loop (fuel : nat) (length maxLen charsetLen theoretical : Z)
  : option Z :=
  if length <=? maxLen then
    match fuel with
    | O => None
    | S fuel' =>
        theoretical_loop fuel' (wrap64 (length + 1)) maxLen charsetLen
          (theoretical + lengthCombinations_loop (Z.to_nat length) charsetLen 1)
    end
  else Some theoretical.

(** The "theoretical total" [main] prints. *)
Definition theoretical_total (fuel : nat) (charset : list byte) (minLen maxLen : Z)
  : option Z :=
  theoretical_loop fuel minLen maxLen (Z.of_nat (length charset)) 0.

(** * The transitions as a function *)

(** The state an action leads to; [None] when the call fails or panics. *)
Definition exec (a : action) (pg : WordGen) : option WordGen :=
  match a with
  | ARun now => match Run now pg with Ok pg' => Some pg' | _ => None end
  | AStop => Some (Stop pg)
  | ACtxDone => Some (ctx_done pg)
  | AProduce => iteration_post pg (runGenerator_iter pg)
  | AProducerExit now => Some (producer_exit now pg)
  | ANext => next_post (Next pg)
  | ANextWake => next_post (Next_wake pg)
  | ABatch words => batch_post (Batch words pg)
  | ABatchWake i count words => batch_post (Batch_wake i count words pg)
  end.

Fixpoint exec_all (l : list action) (pg : WordGen) : option WordGen :=
  match l with
  | [] => Some pg
  | a :: l' => pg' ← exec a pg; exec_all l' pg'
  end.

(** [allowed] holds at every action of the schedule [l]. *)
Fixpoint allowed_along (allowed : action -> WordGen -> Prop) (l : list action)
  (pg : WordGen) : Prop :=
  match l with
  | [] => True
  | a :: l' =>
      allowed a pg /\
      match exec a pg with
      | Some pg' => allowed_along allowed l' pg'
      | None => True
      end
  end.

(** The engine a configuration gives, and the state after a schedule. *)
Definition engine_of (cfg : Config) : WordGen :=
  match NewWordGen cfg with
  | Ok pg => pg
  | _ => fresh_engine (effective cfg)
  end.

Definition after (l : list action) (pg : WordGen) : WordGen :=
  default pg (exec_all l pg).

Definition cfg_abc_huge : Config := mkConfig (bytes "abc") [] 1 2 (2 ^ 63 + 1).

(** * The PassGen revision: generation on demand

    [NewPassGen], [Stats] and [Next] of the revision of the package that
    computes each word inside [Next], without the producer goroutine and
    the ring buffer. *)

Module PassGen.

Record Config : Type := mkConfig {
  Charset : list byte;
  InitialState : list byte;
  MinLen : Z;
  MaxLen : Z;
  BufSize : Z
}.

Inductive error : Type :=
| ErrMinGreaterThanMax
| ErrCharsetEmpty
| ErrDuplicateCharacter (index : Z)
| ErrInitialStateTooShort
| ErrInitialStateTooLong
| ErrInitialStateCharacter (index : Z).

Record PassGen : Type := mkPassGen {
  config : Config;
  charset : list byte;
  charsetLen : Z;
  startTime : Time;
  generated : Z;
  buf : list (list byte);
  state : list Z;
  stateLen : Z
}.

Inductive outcome : Type :=
| Ok (pg : PassGen)
| Err (e : error)
| Panic.

(** The loop over [config.InitialState] that fills [state]. *)
Fixpoint fill_state (cs : list byte) (i : nat) (word : list byte) (st : list Z)
  : option (error + list Z) :=
  match word with
  | [] => Some (inr st)
  | c :: word' =>
      let n := IndexByte cs c in
      if n <? 0 then Some (inl (ErrInitialStateCharacter (Z.of_nat i)))
      else if (i <? length st)%nat
           then fill_state cs (S i) word' (<[i := n]> st)
           else None
  end.

Definition NewPassGen (config0 : Config) : outcome :=
  let minLen := if MinLen config0 =? 0 then defaultMinLen else MinLen config0 in
  let maxLen := if MaxLen config0 =? 0 then defaultMaxLen else MaxLen config0 in
  let cs := match Charset config0 with [] => defaultCharset | _ => Charset config0 end in
  let config := mkConfig cs (InitialState config0) minLen maxLen (BufSize config0) in
  if minLen >? maxLen then Err ErrMinGreaterThanMax
  else if negb (make_ok sizeof_uint 0 maxLen) then Panic
  else
    let csLen := Z.of_nat (length cs) in
    if csLen =? 0 then Err ErrCharsetEmpty
    else
      match charset_duplicate ∅ 0 cs with
      | Some i => Err (ErrDuplicateCharacter i)
      | None =>
          let word := InitialState config in
          let len := Z.of_nat (length word) in
          let st : option (error + list Z) :=
            if len >? 0 then
              if negb (make_ok sizeof_uint len len) then None
              else if len <? to_int minLen then Some (inl ErrInitialStateTooShort)
              else if len >? to_int maxLen then Some (inl ErrInitialStateTooLong)
              else fill_state cs 0 word (replicate (length word) 0)
            else Some (inr []) in
          match st with
          | None => Panic
          | Some (inl e) => Err e
          | Some (inr st) =>
              if negb (make_ok sizeof_slice (BufSize config) (BufSize config))
              then Panic
              else
                Ok {| config := config;
                      charset := cs;
                      charsetLen := csLen;
                      startTime := zeroTime;
                      generated := 0;
                      buf := replicate (Z.to_nat (BufSize config)) [];
                      state := st;
                      stateLen := 0 |}
          end
      end.

(** [Stats]: the count and [time.Since(pg.startTime)], with [now] the
    clock that [time.Since] reads. *)
Definition Stats (now : Time) (pg : PassGen) : Z * Z :=
  (generated pg, Since now (startTime pg)).

Definition with_state (st : list Z) (pg : PassGen) : PassGen :=
  mkPassGen (config pg) (charset pg) (charsetLen pg) (startTime pg) (generated pg)
    (buf pg) st (stateLen pg).

Definition with_stateLen (n : Z) (pg : PassGen) : PassGen :=
  mkPassGen (config pg) (charset pg) (charsetLen pg) (startTime pg) (generated pg)
    (buf pg) (state pg) n.

Inductive advance : Type :=
| Advanced (pg : PassGen)
| Exhausted (pg : PassGen)
| AdvancePanic.

(** The increment loop of [Next] at index [i], with [remaining] =
    [pg.stateLen - i].  On the way out the state is extended before the
    length is tested against [MaxLen]. *)
Fixpoint increment_from (remaining i : nat) (pg : PassGen) : advance :=
  match remaining with
  | O =>
      let pg1 := with_stateLen (wrap_int (stateLen pg + 1))
                   (with_state (state pg ++ [0]) pg) in
      if stateLen pg1 >? to_int (MaxLen (config pg1)) then Exhausted pg1
      else Advanced pg1
  | S remaining' =>
      match state pg !! i with
      | None => AdvancePanic
      | Some d =>
          let d' := wrap64 (d + 1) in
          if d' <? charsetLen pg
          then Advanced (with_state (<[i := d']> (state pg)) pg)
          else if charsetLen pg =? 0 then AdvancePanic
          else increment_from remaining' (S i)
                 (with_state (<[i := d' mod charsetLen pg]> (state pg)) pg)
      end
  end.

Inductive next_result : Type :=
| Word (w : list byte) (pg : PassGen)
| EOF (pg : PassGen)
| NextPanic.

(** The end of [Next]: a fresh slice of [pg.stateLen] bytes, byte [i]
    being [pg.charset[pg.state[i]]], and the count. *)
Definition emit (pg : PassGen) : next_result :=
  if negb (make_ok 1 (stateLen pg) (stateLen pg)) then NextPanic
  else
    match mapM (fun i => d ← state pg !! i; charset pg !! Z.to_nat d)
               (seq 0 (Z.to_nat (stateLen pg))) with
    | Some w =>
        Word w (mkPassGen (config pg) (charset pg) (charsetLen pg) (startTime pg)
                  (wrap64 (generated pg + 1)) (buf pg) (state pg) (stateLen pg))
    | None => NextPanic
    end.

Definition Next (now : Time) (pg : PassGen) : next_result :=
  if stateLen pg =? 0 then
    let n := to_int (MinLen (config pg)) in
    if negb (make_ok sizeof_uint n n) then NextPanic
    else
      emit (mkPassGen (config pg) (charset pg) (charsetLen pg) now (generated pg)
              (buf pg) (replicate (Z.to_nat n) 0) n)
  else
    match increment_from (Z.to_nat (stateLen pg)) 0 pg with
    | Advanced pg1 => emit pg1
    | Exhausted pg1 => EOF pg1
    | AdvancePanic => NextPanic
    end.

(** Successive calls of [Next], one per clock reading of [nows], as long
    as they return words: the words and the state they leave. *)
Fixpoint calls (nows : list Time) (pg : PassGen)
  : option (list (list byte) * PassGen) :=
  match nows with
  | [] => Some ([], pg)
  | now :: nows' =>
      match Next now pg with
      | Word w pg' => '(ws, pg'') ← calls nows' pg'; Some (w :: ws, pg'')
      | _ => None
      end
  end.

End PassGen.

Definition cfg_passgen_abc : PassGen.Config :=
  PassGen.mkConfig (bytes "abc") (bytes "ba") 1 2 4.

(** The counter of a [PassGen] stands at the digits [ds]. *)
Record passgen_at (pg : PassGen.PassGen) (ds : list Z) : Prop := {
  pa_state : PassGen.state pg = ds;
  pa_len : PassGen.stateLen pg = Z.of_nat (length ds);
  pa_digits : valid_digits (PassGen.charsetLen pg) ds;
  pa_radix : PassGen.charsetLen pg = Z.of_nat (length (PassGen.charset pg));
  pa_small : 0 < PassGen.charsetLen pg < 2 ^ 63;
  pa_alloc : 0 <= PassGen.MaxLen (PassGen.config pg) /\
             PassGen.MaxLen (PassGen.config pg) * sizeof_uint <= maxAlloc
}.

(** * Properties *)

(** ** Machine arithmetic *)

Lemma wrap64_small x : 0 <= x < 2 ^ 64 -> wrap64 x = x.
Proof. intros H. unfold wrap64. apply Z.mod_small. exact H. Qed.

Lemma wrap64_range x : 0 <= wrap64 x < 2 ^ 64.
Proof. unfold wrap64. apply Z.mod_pos_bound. lia. Qed.

Lemma to_int_small x : x < 2 ^ 63 -> to_int x = x.
Proof. intros H. unfold to_int. destruct (Z.ltb_spec x (2 ^ 63)); lia. Qed.

Lemma wrap_int_small x : - 2 ^ 63 <= x < 2 ^ 63 -> wrap_int x = x.
Proof. intros H. unfold wrap_int. rewrite Z.mod_small; lia. Qed.

(** ** Capacity: roundToNearestPowerOfTwo *)

Section Rounding.

Lemma land_pred_zero_power n :
  0 < n -> Z.land n (n - 1) = 0 -> n = 2 ^ Z.log2 n.
Proof.
  intros Hn Hland.
  destruct (Z.log2_spec n Hn) as [Hlo Hhi].
  destruct (Z.eq_dec n (2 ^ Z.log2 n)) as [|Hne]; [assumption|exfalso].
  assert (Hlog : Z.log2 (n - 1) = Z.log2 n).
  { apply Z.log2_unique; [apply Z.log2_nonneg|].
    replace (Z.succ (Z.log2 n)) with (Z.log2 n + 1) in * by lia. lia. }
  assert (Hbit : Z.testbit (Z.land n (n - 1)) (Z.log2 n) = true).
  { rewrite Z.land_spec, (Z.bit_log2 n Hn).
    rewrite <- Hlog. rewrite Z.bit_log2; [reflexivity|].
    assert (0 < 2 ^ Z.log2 n) by (apply Z.pow_pos_nonneg; [lia|apply Z.log2_nonneg]).
    lia. }
  rewrite Hland, Z.bits_0 in Hbit. discriminate.
Qed.

Lemma pow2_le_mono a b : 0 <= a <= b -> 2 ^ a <= 2 ^ b.
Proof. intros H. apply Z.pow_le_mono_r; lia. Qed.

Lemma roundToNearestPowerOfTwo_nearest n :
  1 <= n <= 2 ^ 63 ->
  nearest_power_of_two n (roundToNearestPowerOfTwo n) /\
  2 * n < 3 * roundToNearestPowerOfTwo n /\ roundToNearestPowerOfTwo n < 2 * n.
Proof.
  intros Hn. unfold roundToNearestPowerOfTwo.
  destruct (Z.eqb_spec n 0) as [|_]; [lia|].
  rewrite (wrap64_small (n - 1)) by lia.
  destruct (Z.eqb_spec (Z.land n (n - 1)) 0) as [Hland|Hland].
  - apply land_pred_zero_power in Hland; [|lia].
    split; [|lia].
    split; [exists (Z.log2 n); split; [apply Z.log2_nonneg|assumption]|].
    split; intros j Hj; [lia|].
    replace (n - n) with 0 by lia. lia.
  - assert (Hpos : 0 < n) by lia.
    destruct (Z.log2_spec n Hpos) as [Hlo Hhi].
    replace (Z.succ (Z.log2 n)) with (Z.log2 n + 1) in Hhi by lia.
    assert (Hk : 0 <= Z.log2 n) by apply Z.log2_nonneg.
    assert (Hne : n <> 2 ^ 63).
    { intros ->. apply Hland. reflexivity. }
    assert (Hk63 : Z.log2 n < 63).
    { apply Z.log2_lt_pow2; lia. }
    assert (Hnext : shl64 1 (Len64 n) = 2 ^ (Z.log2 n + 1)).
    { unfold shl64, Len64. destruct (Z.eqb_spec n 0); [lia|].
      rewrite Z.shiftl_1_l. apply wrap64_small.
      split; [apply Z.pow_nonneg; lia|].
      apply Z.le_lt_trans with (2 ^ 63); [apply pow2_le_mono|]; lia. }
    assert (Hprev : Z.shiftr (2 ^ (Z.log2 n + 1)) 1 = 2 ^ Z.log2 n).
    { rewrite Z.shiftr_div_pow2 by lia.
      rewrite Z.pow_add_r by lia. change (2 ^ 1) with 2.
      apply Z.div_mul. lia. }
    cbv zeta. rewrite Hnext, Hprev.
    assert (Hdouble : 2 ^ (Z.log2 n + 1) = 2 * 2 ^ Z.log2 n).
    { rewrite Z.pow_add_r by lia. change (2 ^ 1) with 2. lia. }
    assert (H64 : 2 ^ (Z.log2 n + 1) <= 2 ^ 63) by (apply pow2_le_mono; lia).
    rewrite (wrap64_small (n - 2 ^ Z.log2 n)) by lia.
    rewrite (wrap64_small (2 ^ (Z.log2 n + 1) - n)) by lia.
    assert (Hsplit : forall j, 0 <= j ->
               2 ^ j <= 2 ^ Z.log2 n \/ 2 ^ (Z.log2 n + 1) <= 2 ^ j).
    { intros j Hj. destruct (Z.le_gt_cases j (Z.log2 n)).
      - left. apply pow2_le_mono. lia.
      - right. apply pow2_le_mono. lia. }
    destruct (Z.ltb_spec (n - 2 ^ Z.log2 n) (2 ^ (Z.log2 n + 1) - n)) as [Hlt|Hge].
    + split; [|lia].
      split; [exists (Z.log2 n); split; [assumption|reflexivity]|].
      split; intros j Hj; destruct (Hsplit j Hj); lia.
    + split; [|lia].
      split; [exists (Z.log2 n + 1); split; [lia|reflexivity]|].
      split; intros j Hj; destruct (Hsplit j Hj); lia.
Qed.

End Rounding.

(** ** Construction *)

Lemma gtb_lt a b : (a >? b) = true <-> b < a.
Proof. rewrite Z.gtb_ltb. apply Z.ltb_lt. Qed.

Lemma gtb_ge a b : (a >? b) = false <-> a <= b.
Proof. rewrite Z.gtb_ltb. rewrite Z.ltb_ge. reflexivity. Qed.

Lemma IndexByte_lower cs c : -1 <= IndexByte cs c.
Proof.
  induction cs as [|x cs IH]; simpl; [lia|].
  destruct (Byte.eqb x c); [lia|].
  destruct (Z.ltb_spec (IndexByte cs c) 0); lia.
Qed.

Lemma IndexByte_absent cs c : IndexByte cs c < 0 <-> c ∉ cs.
Proof.
  induction cs as [|x cs IH]; simpl.
  - split; [intros _; apply not_elem_of_nil|lia].
  - destruct (Byte.eqb x c) eqn:E.
    + apply Byte.byte_dec_bl in E. subst x.
      split; [lia|]. intros H. exfalso. apply H. left.
    + assert (x <> c) by (intros ->; rewrite (Byte.byte_dec_lb eq_refl) in E; congruence).
      pose proof (IndexByte_lower cs c).
      rewrite not_elem_of_cons.
      destruct (Z.ltb_spec (IndexByte cs c) 0) as [Hneg|Hpos].
      * split; [intros _; split; [congruence|apply IH; lia]|lia].
      * split; [lia|]. intros [_ Hnot]. apply IH in Hnot. lia.
Qed.

Lemma IndexByte_lookup cs c :
  0 <= IndexByte cs c -> cs !! Z.to_nat (IndexByte cs c) = Some c.
Proof.
  induction cs as [|x cs IH]; simpl; [lia|].
  destruct (Byte.eqb x c) eqn:E.
  - apply Byte.byte_dec_bl in E. subst x. reflexivity.
  - destruct (Z.ltb_spec (IndexByte cs c) 0) as [Hneg|Hpos]; [lia|].
    intros _. rewrite Z2Nat.inj_add by lia. rewrite Nat.add_comm. simpl.
    apply IH. assumption.
Qed.

Lemma IndexByte_upper cs c : IndexByte cs c < Z.of_nat (length cs).
Proof.
  induction cs as [|x cs IH]; simpl length; simpl IndexByte; [lia|].
  destruct (Byte.eqb x c); [lia|].
  destruct (Z.ltb_spec (IndexByte cs c) 0); lia.
Qed.

(** The [charsetSeen] loop finds nothing exactly on duplicate-free input
    that avoids what was seen before. *)
Lemma charset_duplicate_None seen i cs :
  charset_duplicate seen i cs = None <->
  NoDup cs /\ (forall c, c ∈ cs -> c ∉ seen).
Proof.
  revert seen i. induction cs as [|c cs IH]; intros seen i; simpl.
  - split; [|reflexivity]. intros _. split; [constructor|].
    intros c Hc. exfalso. revert Hc. apply not_elem_of_nil.
  - destruct (decide (c ∈ seen)) as [Hin|Hout].
    + split; [discriminate|]. intros [_ H]. exfalso.
      apply (H c); [left|assumption].
    + rewrite IH, NoDup_cons. split.
      * intros [Hnd Hseen]. split; [split; [|assumption]|].
        -- intros Hc. apply (Hseen c Hc). set_solver.
        -- intros x Hx. apply elem_of_cons in Hx as [->|Hx]; [assumption|].
           specialize (Hseen x Hx). set_solver.
      * intros [[Hc Hnd] Hseen]. split; [assumption|].
        intros x Hx. assert (x <> c) by (intros ->; contradiction).
        assert (Hxc : x ∈ c :: cs) by (apply elem_of_cons; right; assumption).
        specialize (Hseen x Hxc). set_solver.
Qed.

(** When it reports index [j], the byte there repeats one of [seen] or
    of the prefix before it, on which the loop had found nothing. *)
Lemma charset_duplicate_Some seen i cs j :
  charset_duplicate seen i cs = Some j ->
  exists n c, j = i + Z.of_nat n /\ cs !! n = Some c /\
    c ∈ seen ∪ list_to_set (take n cs) /\
    charset_duplicate seen i (take n cs) = None.
Proof.
  revert seen i. induction cs as [|c cs IH]; intros seen i; simpl; [discriminate|].
  destruct (decide (c ∈ seen)) as [Hin|Hout].
  - intros [= <-]. exists 0%nat, c. simpl.
    repeat split; [lia|set_solver].
  - intros H. destruct (IH _ _ H) as (n & x & -> & Hx & Hdup & Hnone).
    exists (S n), x. simpl.
    destruct (decide (c ∈ seen)) as [|_]; [contradiction|].
    repeat split; [lia|assumption|set_solver|assumption].
Qed.

Lemma fill_initial_Ok cs i word init :
  Forall (fun c => c ∈ cs) word ->
  (i + length word <= length init)%nat ->
  fill_initial cs i word init
  = Ok (take i init ++ (IndexByte cs <$> word) ++ drop (i + length word) init).
Proof.
  revert i init. induction word as [|c word IH]; intros i init Hall Hlen; simpl.
  - rewrite Nat.add_0_r, take_drop. reflexivity.
  - apply Forall_cons in Hall as [Hc Hall]. simpl in Hlen.
    destruct (Z.ltb_spec (IndexByte cs c) 0) as [Hneg|_].
    { apply IndexByte_absent in Hneg. contradiction. }
    destruct (Nat.ltb_spec i (length init)); [|lia].
    rewrite IH; [|assumption|rewrite length_insert; lia]. f_equal.
    rewrite (take_S_r _ _ (IndexByte cs c)) by (apply list_lookup_insert_eq; lia).
    rewrite take_insert_ge by lia. rewrite drop_insert_lt by lia.
    rewrite <- app_assoc. simpl. do 3 f_equal.
    rewrite Nat.add_succ_r. reflexivity.
Qed.

Lemma fill_initial_Err cs i word init e :
  fill_initial cs i word init = Err e ->
  exists n c, word !! n = Some c /\ (c ∉ cs) /\
    e = ErrInitialStateCharacter c (Z.of_nat (i + n)).
Proof.
  revert i init. induction word as [|c word IH]; intros i init; simpl; [discriminate|].
  destruct (Z.ltb_spec (IndexByte cs c) 0) as [Hneg|_].
  - intros [= <-]. exists 0%nat, c. rewrite Nat.add_0_r.
    repeat split. apply IndexByte_absent. assumption.
  - destruct (i <? length init)%nat; [|discriminate].
    intros H. destruct (IH _ _ H) as (n & x & Hx & Hout & ->).
    exists (S n), x. repeat split; [assumption..|]. do 2 f_equal. lia.
Qed.

Lemma fill_initial_total cs i word init :
  (i + length word <= length init)%nat ->
  ¬ Forall (fun c => c ∈ cs) word -> exists e, fill_initial cs i word init = Err e.
Proof.
  revert i init. induction word as [|c word IH]; intros i init Hlen Hnot; simpl.
  - exfalso. apply Hnot. constructor.
  - simpl in Hlen.
    destruct (Z.ltb_spec (IndexByte cs c) 0) as [Hneg|Hpos]; [eauto|].
    destruct (Nat.ltb_spec i (length init)); [|lia].
    apply IH; [rewrite length_insert; lia|].
    intros Hall. apply Hnot. constructor; [|assumption].
    destruct (decide (c ∈ cs)) as [|Hout]; [assumption|].
    apply IndexByte_absent in Hout. lia.
Qed.

Lemma apply_defaults_nonempty cfg : Charset (apply_defaults cfg) <> [].
Proof.
  unfold apply_defaults. simpl. destruct (Charset cfg); [|discriminate].
  unfold defaultCharset. discriminate.
Qed.

Lemma floor_max b : (if b <? minBufferSize then minBufferSize else b) = Z.max 1 b.
Proof. unfold minBufferSize. destruct (Z.ltb_spec b 1); lia. Qed.

Lemma make_ok_true e len cap :
  make_ok e len cap = true <-> 0 <= len /\ len <= cap /\ cap * e <= maxAlloc.
Proof.
  unfold make_ok. rewrite !andb_true_iff, !Z.leb_le. tauto.
Qed.

Lemma NewWordGen_Ok cfg pg :
  NewWordGen cfg = Ok pg ->
  accepted (effective cfg) /\ pg = fresh_engine (effective cfg) /\
  make_ok sizeof_slice (bufSize pg) (bufSize pg) = true.
Proof.
  unfold NewWordGen, effective, fresh_engine, initial_digits.
  pose proof (apply_defaults_nonempty cfg) as Hcs.
  generalize dependent (apply_defaults cfg). intros c Hcs.
  cbn [Charset InitialState MinLen MaxLen BufferSize].
  rewrite floor_max.
  destruct (MinLen c >? MaxLen c) eqn:Hlen; [discriminate|]. apply gtb_ge in Hlen.
  destruct (make_ok sizeof_uint 0 (MaxLen c) && make_ok sizeof_uint (MaxLen c) (MaxLen c))
    eqn:Hmk; [|discriminate].
  apply andb_true_iff in Hmk as [Hmk0 Hmk]. apply make_ok_true in Hmk0.
  cbn [negb].
  destruct (Z.eqb_spec (Z.of_nat (length (Charset c))) 0) as [|Hne]; [discriminate|].
  destruct (charset_duplicate ∅ 0 (Charset c)) eqn:Hdup; [discriminate|].
  apply charset_duplicate_None in Hdup as [Hnd _].
  assert (Hint : forall x, x <= MaxLen c -> to_int x = x).
  { intros x Hx. apply to_int_small. unfold maxAlloc, sizeof_uint in Hmk0. lia. }
  rewrite !Hint by lia.
  destruct (InitialState c) as [|b word] eqn:Hword.
  - cbn [length Z.of_nat]. change (0 >? 0) with false. cbv iota.
    destruct (make_ok sizeof_slice _ _) eqn:Hbuf; [|discriminate].
    cbn [negb]. intros [= <-]. cbn [bufSize].
    split; [|split; [rewrite take_replicate, Nat.min_l by lia; reflexivity|assumption]].
    constructor; cbn [Charset InitialState MinLen MaxLen]; try tauto; try lia.
  - rewrite <- Hword.
    assert (Hpos : (Z.of_nat (length (InitialState c)) >? 0) = true).
    { apply gtb_lt. rewrite Hword. simpl length. lia. }
    rewrite Hpos.
    destruct (Z.ltb_spec (Z.of_nat (length (InitialState c))) (MinLen c)); [discriminate|].
    destruct (Z.of_nat (length (InitialState c)) >? MaxLen c) eqn:Hmax; [discriminate|].
    apply gtb_ge in Hmax.
    destruct (decide (Forall (fun x => x ∈ Charset c) (InitialState c))) as [Hall|Hnot].
    + rewrite fill_initial_Ok; [|assumption|rewrite length_replicate; lia].
      rewrite take_0, app_nil_l.
      rewrite take_app_length' by (rewrite length_fmap; reflexivity).
      destruct (make_ok sizeof_slice _ _) eqn:Hbuf; [|discriminate].
      cbn [negb]. intros [= <-]. cbn [bufSize].
      split; [|split; [reflexivity|assumption]].
      constructor; cbn [Charset InitialState MinLen MaxLen]; try tauto; try lia.
    + destruct (fill_initial_total (Charset c) 0 (InitialState c)
                  (replicate (Z.to_nat (MaxLen c)) 0)
                  ltac:(rewrite length_replicate; lia) Hnot) as [e ->].
      discriminate.
Qed.

Lemma NewWordGen_Err_iff cfg :
  let c := apply_defaults cfg in
  0 <= MaxLen c -> MaxLen c * sizeof_uint <= maxAlloc ->
  (exists e, NewWordGen cfg = Err e) <->
  MaxLen c < MinLen c \/ ¬ NoDup (Charset c) \/ bad_initial_state c.
Proof.
  unfold NewWordGen, bad_initial_state.
  pose proof (apply_defaults_nonempty cfg) as Hcs.
  generalize dependent (apply_defaults cfg). intros c Hcs.
  cbn [Charset InitialState MinLen MaxLen BufferSize]. cbv zeta.
  intros Hmax0 Halloc.
  destruct (MinLen c >? MaxLen c) eqn:Hlen.
  { apply gtb_lt in Hlen. split; [intros _; left; assumption|eauto]. }
  apply gtb_ge in Hlen.
  assert (Hmk : forall len, 0 <= len <= MaxLen c ->
            make_ok sizeof_uint len (MaxLen c) = true).
  { intros len Hl. apply make_ok_true. lia. }
  rewrite !Hmk by lia. cbn [andb negb].
  destruct (Z.eqb_spec (Z.of_nat (length (Charset c))) 0) as [Hz|_].
  { destruct (Charset c); [congruence|simpl length in Hz; lia]. }
  destruct (charset_duplicate ∅ 0 (Charset c)) eqn:Hdup.
  { split; [intros _|eauto]. right; left. intros Hnd.
    assert (charset_duplicate ∅ 0 (Charset c) = None) as Hnone; [|congruence].
    apply charset_duplicate_None. split; [assumption|]. intros x _. set_solver. }
  apply charset_duplicate_None in Hdup as [Hnd _].
  assert (Hint : forall x, x <= MaxLen c -> to_int x = x).
  { intros x Hx. apply to_int_small. unfold maxAlloc, sizeof_uint in Halloc. lia. }
  rewrite !Hint by lia.
  assert (Hno : forall (o : outcome WordGen),
             (forall e, o <> Err e) ->
             ¬ (MaxLen c < MinLen c \/ ¬ NoDup (Charset c) \/
                InitialState c <> [] /\
                (Z.of_nat (length (InitialState c)) < MinLen c \/
                 MaxLen c < Z.of_nat (length (InitialState c)) \/
                 exists x, x ∈ InitialState c /\ x ∉ Charset c)) ->
             (exists e, o = Err e) <->
             MaxLen c < MinLen c \/ ¬ NoDup (Charset c) \/
             InitialState c <> [] /\
             (Z.of_nat (length (InitialState c)) < MinLen c \/
              MaxLen c < Z.of_nat (length (InitialState c)) \/
              exists x, x ∈ InitialState c /\ x ∉ Charset c)).
  { intros o Ho Hn. split; [intros [e He]; destruct (Ho e He)|intros H; destruct (Hn H)]. }
  destruct (Z.of_nat (length (InitialState c)) >? 0) eqn:Hpos.
  - apply gtb_lt in Hpos.
    assert (Hne : InitialState c <> []) by (intros E; rewrite E in Hpos; simpl in Hpos; lia).
    destruct (Z.ltb_spec (Z.of_nat (length (InitialState c))) (MinLen c)).
    { split; [intros _|eauto]. right; right. split; [assumption|left; assumption]. }
    destruct (Z.of_nat (length (InitialState c)) >? MaxLen c) eqn:Hlong.
    { apply gtb_lt in Hlong. split; [intros _|eauto]. right; right.
      split; [assumption|right; left; assumption]. }
    apply gtb_ge in Hlong.
    destruct (decide (Forall (fun x => x ∈ Charset c) (InitialState c))) as [Hall|Hnot].
    + rewrite fill_initial_Ok; [|assumption|rewrite length_replicate; lia].
      apply Hno; [intros e; destruct (negb _); discriminate|].
      intros [?|[?|[_ [?|[?|(x & Hx & Hout)]]]]]; try lia; try contradiction.
      rewrite Forall_forall in Hall. apply Hout, Hall, Hx.
    + destruct (fill_initial_total (Charset c) 0 (InitialState c)
                  (replicate (Z.to_nat (MaxLen c)) 0)
                  ltac:(rewrite length_replicate; lia) Hnot) as [e He].
      rewrite He. split; [intros _|eauto]. right; right. split; [assumption|].
      right; right. apply not_Forall_Exists in Hnot; [|intros x; apply _].
      apply Exists_exists in Hnot as (x & Hx & Hout). eauto.
  - apply gtb_ge in Hpos.
    assert (Hnil : InitialState c = []) by (destruct (InitialState c); [reflexivity|simpl in Hpos; lia]).
    apply Hno; [intros e; destruct (negb _); discriminate|].
    intros [?|[?|[Hne _]]]; try lia; contradiction.
Qed.

(** ** Claims on construction *)

(** Case analysis on the initial-state checks of [NewWordGen], for goals
    that no outcome of these checks can satisfy. *)
Ltac walk_initial_state :=
  repeat (match goal with
          | |- context [if ?b then _ else _] => destruct b
          | |- context [fill_initial ?cs ?i ?w ?z] =>
              let H := fresh "Hfill" in
              destruct (fill_initial cs i w z) eqn:H;
              [|apply fill_initial_Err in H as (? & ? & _ & _ & ->)|]
          end; try discriminate).

(** C4 (as amended).  For a requested size [n] of at most [2^63] the
    capacity chosen by [NewWordGen] is the power of two nearest to
    [max 1 n], the larger one on a tie: it is below twice the request and
    above two thirds of it, so it can be smaller than the request. *)
Theorem capacity_nearest_power_of_two cfg pg :
  NewWordGen cfg = Ok pg ->
  Z.max 1 (BufferSize cfg) <= 2 ^ 63 ->
  bufSize pg = roundToNearestPowerOfTwo (Z.max 1 (BufferSize cfg)) /\
  nearest_power_of_two (Z.max 1 (BufferSize cfg)) (bufSize pg) /\
  2 * Z.max 1 (BufferSize cfg) < 3 * bufSize pg /\
  bufSize pg < 2 * Z.max 1 (BufferSize cfg).
Proof.
  intros Hok Hn. apply NewWordGen_Ok in Hok as (_ & -> & _).
  cbn [bufSize fresh_engine effective BufferSize apply_defaults].
  split; [reflexivity|]. apply roundToNearestPowerOfTwo_nearest. lia.
Qed.

Lemma capacity_nearest_power_of_two_witness :
  exists pg, NewWordGen cfg_abc = Ok pg /\ bufSize pg = 8 /\
    nearest_power_of_two 10 (bufSize pg).
Proof.
  eexists. split; [vm_compute; reflexivity|]. split; [reflexivity|].
  apply (capacity_nearest_power_of_two cfg_abc); [vm_compute; reflexivity|].
  vm_compute. discriminate.
Defined.

(** C4 (as stated) fails: a request for 5 slots gets 4, not 8. *)
Lemma capacity_below_request :
  exists pg, NewWordGen cfg_abc_size5 = Ok pg /\ bufSize pg = 4 /\
    ¬ (BufferSize cfg_abc_size5 <= bufSize pg).
Proof.
  eexists. split; [vm_compute; reflexivity|]. split; [reflexivity|].
  vm_compute. intros H. apply H. reflexivity.
Qed.

(** C8 (as amended).  With [MaxLen] allocatable, [NewWordGen] returns an
    error exactly when, after the defaults, [MinLen > MaxLen], the charset
    repeats a symbol, or a supplied initial state is shorter than
    [MinLen], longer than [MaxLen] or uses a symbol outside the charset.
    A duplicate is reported at the index of the first repeated symbol, an
    error excludes an engine, and an empty charset is never an error: the
    default charset replaces it. *)
Theorem NewWordGen_fails_iff cfg :
  0 <= MaxLen (apply_defaults cfg) ->
  MaxLen (apply_defaults cfg) * sizeof_uint <= maxAlloc ->
  ((exists e, NewWordGen cfg = Err e) <->
   MaxLen (apply_defaults cfg) < MinLen (apply_defaults cfg) \/
   ¬ NoDup (Charset (apply_defaults cfg)) \/
   bad_initial_state (apply_defaults cfg)) /\
  (forall i, NewWordGen cfg = Err (ErrDuplicateCharacter i) ->
     exists n c, i = Z.of_nat n /\ Charset (apply_defaults cfg) !! n = Some c /\
       c ∈ take n (Charset (apply_defaults cfg)) /\
       NoDup (take n (Charset (apply_defaults cfg)))) /\
  (forall e pg, NewWordGen cfg = Err e -> NewWordGen cfg <> Ok pg) /\
  NewWordGen cfg <> Err ErrCharsetEmpty.
Proof.
  intros Hmax Halloc. split; [apply NewWordGen_Err_iff; assumption|].
  split; [|split; [congruence|]].
  - unfold NewWordGen.
    generalize (apply_defaults cfg). intros c. cbv zeta.
    cbn [Charset InitialState MinLen MaxLen BufferSize].
    intros i. destruct (MinLen c >? MaxLen c); [discriminate|].
    destruct (negb _); [discriminate|].
    destruct (Z.of_nat (length (Charset c)) =? 0); [discriminate|].
    destruct (charset_duplicate ∅ 0 (Charset c)) as [j|] eqn:Hdup.
    + intros [= ->].
      apply charset_duplicate_Some in Hdup as (n & x & -> & Hx & Hin & Hnone).
      apply charset_duplicate_None in Hnone as [Hnd _].
      exists n, x. repeat split; [assumption|set_solver|assumption].
    + walk_initial_state.
  - unfold NewWordGen.
    pose proof (apply_defaults_nonempty cfg) as Hcs.
    generalize dependent (apply_defaults cfg). intros c _ _ Hcs. cbv zeta.
    cbn [Charset InitialState MinLen MaxLen BufferSize].
    destruct (MinLen c >? MaxLen c); [discriminate|].
    destruct (negb _); [discriminate|].
    destruct (Z.eqb_spec (Z.of_nat (length (Charset c))) 0) as [Hz|_].
    { destruct (Charset c) eqn:E; [congruence|simpl length in Hz; lia]. }
    destruct (charset_duplicate ∅ 0 (Charset c)); [discriminate|].
    walk_initial_state.
Qed.

Lemma NewWordGen_fails_iff_witness :
  (exists e, NewWordGen (mkConfig (bytes "abca") [] 1 2 10) = Err e) <->
  2 < 1 \/ ¬ NoDup (bytes "abca") \/
  bad_initial_state (mkConfig (bytes "abca") [] 1 2 10).
Proof.
  apply (NewWordGen_fails_iff (mkConfig (bytes "abca") [] 1 2 10));
    vm_compute; discriminate.
Defined.

(** C8 (as stated) fails on an empty charset: construction succeeds with
    the default charset. *)
Lemma empty_charset_accepted :
  Charset cfg_no_charset = [] /\
  exists pg, NewWordGen cfg_no_charset = Ok pg /\ charset pg = defaultCharset.
Proof. split; [reflexivity|]. eexists. split; vm_compute; reflexivity. Qed.

(** C10.  With [MinLen = 0] and [0 < MaxLen < 8] construction fails
    with the min-greater-than-max error: the default 8 replaces the zero
    before the comparison. *)
Theorem zero_MinLen_small_MaxLen_rejected cfg :
  MinLen cfg = 0 -> 0 < MaxLen cfg < 8 ->
  NewWordGen cfg = Err ErrMinGreaterThanMax.
Proof.
  intros Hmin Hmax. unfold NewWordGen, apply_defaults.
  cbn [Charset InitialState MinLen MaxLen BufferSize]. rewrite Hmin.
  change (0 =? 0) with true. cbv iota.
  destruct (Z.eqb_spec (MaxLen cfg) 0) as [|_]; [lia|].
  assert (Hgt : (defaultMinLen >? MaxLen cfg) = true)
    by (apply gtb_lt; unfold defaultMinLen; lia).
  rewrite Hgt. reflexivity.
Qed.

Lemma zero_MinLen_small_MaxLen_rejected_witness :
  NewWordGen cfg_max_only = Err ErrMinGreaterThanMax.
Proof.
  apply zero_MinLen_small_MaxLen_rejected; [reflexivity|vm_compute; split; reflexivity].
Defined.

(** ** Schedules *)

Lemma exec_step a pg pg' : exec a pg = Some pg' <-> step a pg pg'.
Proof.
  split.
  - destruct a; simpl; intros H; try (injection H as <-); try (constructor; assumption);
      try constructor.
    destruct (Run now pg) eqn:E; try discriminate. injection H as <-.
    reflexivity.
  - destruct 1 as [now pg pg' H| | | | | | | |]; simpl; try reflexivity; try assumption.
    rewrite H. reflexivity.
Qed.

Lemma exec_all_reachable_if (allowed : action -> WordGen -> Prop) l :
  forall pg0 pg1 pg,
    reachable_if allowed pg0 pg1 -> allowed_along allowed l pg1 ->
    exec_all l pg1 = Some pg -> reachable_if allowed pg0 pg.
Proof.
  induction l as [|a l IH]; intros pg0 pg1 pg Hr Hal Hex; simpl in *.
  - injection Hex as <-. assumption.
  - destruct Hal as [Ha Hal]. destruct (exec a pg1) as [pg2|] eqn:E; [|discriminate].
    simpl in Hex. apply (IH pg0 pg2); [|assumption..].
    eapply reachable_next; [exact Hr|exact Ha|]. apply exec_step. assumption.
Qed.

Lemma exec_all_reachable l pg0 pg :
  exec_all l pg0 = Some pg -> reachable pg0 pg.
Proof.
  intros Hex. apply (exec_all_reachable_if _ l pg0 pg0); [constructor| |assumption].
  clear Hex. revert pg0. induction l as [|a l IH]; intros pg0; simpl; [exact I|].
  split; [exact I|]. destruct (exec a pg0); [apply IH|exact I].
Qed.

(** ** The buffer and its cursors *)

Lemma nextState_from_frame remaining i pg :
  match nextState_from remaining i pg with
  | Advanced pg' | Exhausted pg' => frame pg' = frame pg
  | AdvancePanic => True
  end.
Proof.
  revert i pg. induction remaining as [|remaining IH]; intros i pg; simpl.
  - destruct (_ >? _); reflexivity.
  - destruct (state pg !! i) as [d|]; [|exact I].
    destruct (_ <? _); [reflexivity|].
    specialize (IH (S i) (with_state (<[i:=0]> (state pg)) pg)).
    destruct (nextState_from _ _ _); try exact I; rewrite IH; reflexivity.
Qed.

Lemma nextState_frame pg :
  match nextState pg with
  | Advanced pg' | Exhausted pg' => frame pg' = frame pg
  | AdvancePanic => True
  end.
Proof. apply nextState_from_frame. Qed.

(** One producer iteration that writes: the gate, the slot, the cursor. *)
Lemma runGenerator_iter_writes pg pg' :
  runGenerator_iter pg = IterWrote pg' \/ runGenerator_iter pg = IterDone pg' ->
  running pg = true /\ wrap64 (bufW pg - bufR pg) < bufSize pg /\
  exists w,
    encode pg = Some w /\
    frame pg' =
    frame (with_written (<[Z.to_nat (Z.land (bufW pg) (bufMask pg)) := w]> (buf pg))
             (wrap64 (bufW pg + 1)) (wrap64 (generated pg + 1)) pg).
Proof.
  unfold runGenerator_iter.
  destruct (running pg); cbn [negb]; [|intros [|]; discriminate].
  destruct (Z.geb_spec (wrap64 (bufW pg - bufR pg)) (bufSize pg)) as [|Hlt];
    [intros [|]; discriminate|].
  destruct (buf pg !! _) as [old|]; [|intros [|]; discriminate].
  destruct (encode pg) as [w|]; [|intros [|]; discriminate].
  match goal with |- context [nextState ?p] => pose proof (nextState_frame p) as Hf end.
  destruct (nextState _) as [pg2|pg2|]; intros [H|H]; try discriminate;
    injection H as <-; repeat split; try lia; exists w; split; auto.
Qed.

Lemma runGenerator_iter_idle pg pg' :
  iteration_post pg (runGenerator_iter pg) = Some pg' ->
  pg' = pg \/
  (runGenerator_iter pg = IterWrote pg' \/ runGenerator_iter pg = IterDone pg').
Proof.
  destruct (runGenerator_iter pg); simpl; intros [= <-]; auto.
Qed.

Lemma pop_post pg r :
  pop pg = r -> forall pg', next_post r = Some pg' ->
  pg' = with_bufR (wrap64 (bufR pg + 1)) pg.
Proof.
  intros <- pg'. unfold pop. destruct (buf pg !! _); simpl; congruence.
Qed.

Lemma Next_post pg pg' :
  next_post (Next pg) = Some pg' ->
  pg' = pg \/ (bufR pg < bufW pg /\ pg' = with_bufR (wrap64 (bufR pg + 1)) pg).
Proof.
  unfold Next. destruct (Z.geb_spec (bufR pg) (bufW pg)) as [Hge|Hlt].
  - destruct (running pg); simpl; intros [= <-]; auto.
  - intros Hpost. right. split; [lia|]. eapply pop_post; eauto.
Qed.

Lemma Next_wake_post pg pg' :
  next_post (Next_wake pg) = Some pg' ->
  pg' = pg \/ (bufR pg < bufW pg /\ pg' = with_bufR (wrap64 (bufR pg + 1)) pg).
Proof.
  unfold Next_wake. destruct (Z.geb_spec (bufR pg) (bufW pg)) as [Hge|Hlt].
  - simpl; intros [= <-]; auto.
  - intros Hpost. right. split; [lia|]. eapply pop_post; eauto.
Qed.

(** [Batch] only moves [bufR], forward and not beyond [bufW]. *)
Lemma Batch_from_post todo i woken count words pg pg' :
  batch_post (Batch_from todo i woken count words pg) = Some pg' ->
  0 <= bufR pg <= bufW pg -> bufW pg < 2 ^ 64 ->
  exists r, pg' = with_bufR r pg /\ bufR pg <= r <= bufW pg.
Proof.
  revert i woken count words pg.
  induction todo as [|todo IH]; intros i woken count words pg; simpl.
  - intros [= <-] ? ?. exists (bufR pg). split; [destruct pg; reflexivity|lia].
  - destruct (Z.geb_spec (bufR pg) (bufW pg)) as [Hge|Hlt]; cbn [andb].
    + destruct (woken || negb (running pg))%bool; simpl; intros [= <-] ? ?;
        exists (bufR pg); (split; [destruct pg; reflexivity|lia]).
    + destruct (buf pg !! _) as [src|]; [|discriminate].
      intros H HR HW. apply IH in H as (r & -> & Hr); cbn [bufR bufW with_bufR] in *.
      * exists r. split; [reflexivity|].
        rewrite wrap64_small in Hr by lia. lia.
      * rewrite wrap64_small by lia. lia.
      * assumption.
Qed.

(** With an empty buffer [Batch] changes nothing. *)
Lemma Batch_from_empty todo i woken count words pg pg' :
  batch_post (Batch_from todo i woken count words pg) = Some pg' ->
  bufW pg <= bufR pg -> pg' = pg.
Proof.
  destruct todo as [|todo]; simpl; [congruence|].
  intros H Hle. destruct (Z.geb_spec (bufR pg) (bufW pg)); [|lia].
  cbn [andb] in H. destruct (woken || negb (running pg))%bool; simpl in H; congruence.
Qed.

Ltac frame_fields H :=
  unfold frame in H; cbn [with_written config charset charsetLen startTime
    endTime generated bufSize bufMask buf bufR bufW initialState running] in H;
  injection H as ? ? ? ? ? ? ? ? ? ? ? ? ?.

Lemma step_effect a pg pg' :
  step a pg pg' -> buffer_ok pg ->
  static pg' = static pg /\ cursor_effect a pg pg'.
Proof.
  intros Hstep Hok. destruct Hok as [HR HW Hsize Hlen Hmask Hzero].
  destruct Hstep as [now pg pg' H| | |pg pg' H| |pg pg' H|pg pg' H
                    |words pg pg' H|i count words pg pg' H]; cbn [cursor_effect].
  - unfold Run in H. destruct (running pg); [discriminate|].
    destruct (negb _); [discriminate|]. injection H as <-. auto.
  - auto.
  - auto.
  - apply runGenerator_iter_idle in H as [->|H]; [auto|].
    apply runGenerator_iter_writes in H as (_ & Hgate & w & _ & Hf).
    frame_fields Hf. unfold static.
    repeat match goal with E : _ pg' = _ |- _ => rewrite E; clear E end.
    rewrite length_insert. auto.
  - auto.
  - apply Next_post in H as [->|[Hlt ->]]; [auto|].
    cbn [bufR bufW with_bufR]. rewrite wrap64_small by lia.
    split; [reflexivity|]. split; [reflexivity|]. right. lia.
  - apply Next_wake_post in H as [->|[Hlt ->]]; [auto|].
    cbn [bufR bufW with_bufR]. rewrite wrap64_small by lia.
    split; [reflexivity|]. split; [reflexivity|]. right. lia.
  - unfold Batch in H. destruct (Z.le_gt_cases (bufW pg) (bufR pg)) as [Hle|Hgt].
    + apply Batch_from_empty in H as ->; auto.
    + apply Batch_from_post in H as (r & -> & Hr); [|lia..].
      cbn [bufR bufW with_bufR]. split; [reflexivity|]. split; [reflexivity|]. lia.
  - unfold Batch_wake in H. destruct (Z.le_gt_cases (bufW pg) (bufR pg)) as [Hle|Hgt].
    + apply Batch_from_empty in H as ->; auto.
    + apply Batch_from_post in H as (r & -> & Hr); [|lia..].
      cbn [bufR bufW with_bufR]. split; [reflexivity|]. split; [reflexivity|]. lia.
Qed.

Lemma static_fields pg pg' :
  static pg' = static pg ->
  config pg' = config pg /\ charset pg' = charset pg /\
  charsetLen pg' = charsetLen pg /\ bufSize pg' = bufSize pg /\
  bufMask pg' = bufMask pg /\ initialState pg' = initialState pg /\
  length (buf pg') = length (buf pg).
Proof. unfold static. intros [= -> -> -> -> -> -> ->]. tauto. Qed.

Lemma step_buffer_ok a pg pg' :
  step a pg pg' -> buffer_ok pg -> buffer_ok pg'.
Proof.
  intros Hstep Hok. destruct (step_effect _ _ _ Hstep Hok) as [Hst Heff].
  apply static_fields in Hst as (_ & _ & _ & Hs & Hm & _ & Hl).
  destruct Hok as [HR HW Hsize Hlen Hmask Hzero].
  assert (Hw : forall x, 0 <= wrap64 x < 2 ^ 64) by apply wrap64_range.
  constructor; rewrite ?Hs, ?Hm, ?Hl; try assumption.
  - destruct a; cbn [cursor_effect] in Heff; lia.
  - destruct a; cbn [cursor_effect] in Heff;
      try lia; destruct Heff as [_ [->|[_ ->]]]; auto.
  - intros Hz. specialize (Hzero Hz). destruct a; cbn [cursor_effect] in Heff; try lia.
    destruct Heff as [-> [->|[Hgate _]]]; [assumption|].
    pose proof (Hw (bufW pg - bufR pg)). lia.
Qed.

Lemma fresh_engine_buffer_ok cfg pg :
  NewWordGen cfg = Ok pg -> buffer_ok pg /\ cursors_ok pg.
Proof.
  intros H. apply NewWordGen_Ok in H as (_ & -> & Hmk).
  cbn [bufSize fresh_engine] in Hmk. apply make_ok_true in Hmk.
  unfold cursors_ok. cbn [fresh_engine bufR bufW bufSize].
  split; [|lia].
  constructor; cbn [fresh_engine bufR bufW bufSize buf bufMask];
    try lia; try reflexivity.
  rewrite length_replicate. reflexivity.
Qed.

Lemma reachable_buffer_ok allowed pg0 pg :
  buffer_ok pg0 -> reachable_if allowed pg0 pg -> buffer_ok pg.
Proof.
  intros H0 Hreach. induction Hreach as [|a pg pg' _ IH _ Hstep]; [assumption|].
  eapply step_buffer_ok; eauto.
Qed.

Lemma reachable_static allowed pg0 pg :
  buffer_ok pg0 -> reachable_if allowed pg0 pg -> static pg = static pg0.
Proof.
  intros H0 Hreach. induction Hreach as [|a pg pg' Hr IH _ Hstep]; [reflexivity|].
  rewrite <- IH. eapply step_effect; [eassumption|].
  eapply reachable_buffer_ok; eauto.
Qed.

Lemma step_cursors_ok a pg pg' :
  step a pg pg' -> no_wrap a pg -> buffer_ok pg -> cursors_ok pg ->
  cursors_ok pg' /\
  (buffer_action a -> bufR pg <= bufR pg' /\ bufW pg <= bufW pg').
Proof.
  intros Hstep Hnw Hok Hc. destruct (step_effect _ _ _ Hstep Hok) as [Hst Heff].
  apply static_fields in Hst as (_ & _ & _ & Hs & _ & _ & _).
  destruct Hok as [HR HW Hsize Hlen Hmask Hzero].
  unfold cursors_ok in *. rewrite Hs.
  destruct a; cbn [cursor_effect buffer_action] in *; try lia.
  destruct Heff as [-> [->|[Hgate ->]]]; [lia|].
  specialize (Hnw eq_refl).
  rewrite wrap64_small in Hgate by lia. rewrite wrap64_small by lia. lia.
Qed.

Lemma reachable_cursors_ok pg0 pg :
  buffer_ok pg0 -> cursors_ok pg0 -> reachable_if no_wrap pg0 pg -> cursors_ok pg.
Proof.
  intros H0 Hc0 Hreach. induction Hreach as [|a pg pg' Hr IH Hnw Hstep]; [assumption|].
  eapply step_cursors_ok; eauto. eapply reachable_buffer_ok; eauto.
Qed.

Lemma land_upper_bound a b : 0 <= a -> 0 <= b -> Z.land a b <= b.
Proof.
  intros Ha Hb.
  assert (Hdiff : Z.ldiff (Z.land a b) b = 0).
  { apply Z.bits_inj'. intros n Hn.
    rewrite Z.ldiff_spec, Z.land_spec, Z.bits_0.
    destruct (Z.testbit a n), (Z.testbit b n); reflexivity. }
  apply Z.sub_nocarry_ldiff in Hdiff.
  assert (0 <= Z.ldiff b (Z.land a b)) by (apply Z.ldiff_nonneg; left; assumption).
  lia.
Qed.

(** In a reachable state a non-empty buffer has its read slot. *)
Lemma read_slot_exists pg :
  buffer_ok pg -> bufR pg < bufW pg ->
  bufMask pg = bufSize pg - 1 /\
  exists w, buf pg !! Z.to_nat (Z.land (bufR pg) (bufMask pg)) = Some w.
Proof.
  intros [HR HW Hsize Hlen Hmask Hzero] Hlt.
  assert (Hpos : 0 < bufSize pg) by lia.
  assert (Hm : bufMask pg = bufSize pg - 1).
  { rewrite Hmask. apply wrap64_small. unfold maxAlloc, sizeof_slice in Hsize. lia. }
  split; [assumption|]. apply lookup_lt_is_Some_2. rewrite Hlen, Hm.
  pose proof (land_upper_bound (bufR pg) (bufSize pg - 1)).
  assert (0 <= Z.land (bufR pg) (bufSize pg - 1)) by (apply Z.land_nonneg; lia).
  lia.
Qed.

(** C6 (as amended).  In every state reached without [bufW] wrapping
    around [2^64], [bufR <= bufW <= bufR + bufSize]; from there [Next],
    [Batch] and the producer step never decrease a cursor; a slot is
    written only when [bufW - bufR < bufSize], and read only when
    [bufR < bufW] and only up to [bufW]. *)
Theorem cursor_invariant cfg pg0 pg :
  NewWordGen cfg = Ok pg0 -> reachable_if no_wrap pg0 pg ->
  cursors_ok pg /\
  (forall a pg', step a pg pg' -> no_wrap a pg -> buffer_action a ->
     bufR pg <= bufR pg' /\ bufW pg <= bufW pg') /\
  (forall a pg', step a pg pg' -> no_wrap a pg -> buffer_action a ->
     bufW pg' <> bufW pg ->
     bufW pg - bufR pg < bufSize pg /\ bufW pg' = bufW pg + 1) /\
  (forall a pg', step a pg pg' -> buffer_action a ->
     bufR pg' <> bufR pg ->
     bufR pg < bufW pg /\ bufR pg' <= bufW pg).
Proof.
  intros Hnew Hreach.
  destruct (fresh_engine_buffer_ok _ _ Hnew) as [Hok0 Hc0].
  assert (Hok : buffer_ok pg) by (apply (reachable_buffer_ok no_wrap pg0); assumption).
  assert (Hc : cursors_ok pg) by (apply (reachable_cursors_ok pg0); assumption).
  split; [assumption|]. split; [|split].
  - intros a pg' Hstep Hnw Ha. eapply step_cursors_ok; eauto.
  - intros a pg' Hstep Hnw Ha Hne.
    destruct (step_effect _ _ _ Hstep Hok) as [_ Heff].
    destruct Hok as [HR HW _ _ _ _]. unfold cursors_ok in Hc.
    destruct a; cbn [cursor_effect buffer_action] in *; try tauto.
    destruct Heff as [_ [?|[Hgate Hw]]]; [congruence|].
    specialize (Hnw eq_refl).
    rewrite wrap64_small in Hgate by lia. rewrite wrap64_small in Hw by lia. lia.
  - intros a pg' Hstep Ha Hne.
    destruct (step_effect _ _ _ Hstep Hok) as [_ Heff].
    destruct a; cbn [cursor_effect buffer_action] in *; try tauto;
      try (destruct Heff as [_ [?|?]]; [congruence|lia]).
Qed.

Lemma cursor_invariant_witness :
  exists pg0 pg1 pg2,
    NewWordGen cfg_abc = Ok pg0 /\ Run 1 pg0 = Ok pg1 /\
    runGenerator_iter pg1 = IterWrote pg2 /\ cursors_ok pg2.
Proof.
  do 3 eexists. split; [vm_compute; reflexivity|].
  split; [vm_compute; reflexivity|]. split; [vm_compute; reflexivity|].
  eapply (cursor_invariant cfg_abc); [vm_compute; reflexivity|].
  eapply reachable_next;
    [eapply reachable_next; [apply reachable_start| |apply (step_Run 1); vm_compute; reflexivity]
    | |apply step_produce; vm_compute; reflexivity].
  - intros H; discriminate H.
  - intros _. vm_compute. reflexivity.
Defined.

(** C7 (as amended).  In every state reached without the write cursor
    wrapping around [2^64], the occupancy the producer computes, the
    [uint64] difference [bufW - bufR], is the difference of the two
    cursor values; when it is greater than 0, [Next] returns the word in
    slot [bufR & (bufSize - 1)] and adds one to [bufR], changing nothing
    else; when it is 0 and the running flag is cleared, [Next] returns the
    end-of-sequence marker and leaves the engine, and so the cursors, as
    they are. *)
Theorem Next_behaviour cfg pg0 pg :
  NewWordGen cfg = Ok pg0 -> reachable_if no_wrap pg0 pg ->
  wrap64 (bufW pg - bufR pg) = bufW pg - bufR pg /\
  (bufW pg - bufR pg > 0 ->
   exists w pg',
     buf pg !! Z.to_nat (Z.land (bufR pg) (bufSize pg - 1)) = Some w /\
     Next pg = NextWord w pg' /\
     bufR pg' = bufR pg + 1 /\ bufW pg' = bufW pg /\
     pg' = with_bufR (bufR pg + 1) pg) /\
  (bufW pg - bufR pg = 0 -> running pg = false ->
   exists pg',
     Next pg = NextEOF pg' /\ bufR pg' = bufR pg /\ bufW pg' = bufW pg /\ pg' = pg).
Proof.
  intros Hnew Hreach.
  destruct (fresh_engine_buffer_ok _ _ Hnew) as [Hok0 Hc0].
  assert (Hok : buffer_ok pg) by (eapply reachable_buffer_ok; eauto).
  pose proof (reachable_cursors_ok _ _ Hok0 Hc0 Hreach) as Hc.
  unfold cursors_ok in Hc. pose proof Hok as [HR HW _ _ _ _].
  split; [apply wrap64_small; lia|]. split.
  - intros Hocc. assert (Hlt : bufR pg < bufW pg) by lia.
    destruct (read_slot_exists pg Hok Hlt) as (Hm & w & Hw).
    exists w, (with_bufR (bufR pg + 1) pg). rewrite <- Hm.
    split; [assumption|]. split; [|repeat split].
    unfold Next, pop. destruct (Z.geb_spec (bufR pg) (bufW pg)); [lia|].
    rewrite Hw. rewrite wrap64_small by lia. reflexivity.
  - intros Hocc Hrun. exists pg. split; [|repeat split]. unfold Next.
    destruct (Z.geb_spec (bufR pg) (bufW pg)); [|lia].
    rewrite Hrun. reflexivity.
Qed.

Lemma Next_behaviour_witness :
  exists pg0 pg1 pg2 pg3,
    NewWordGen cfg_abc = Ok pg0 /\ Run 1 pg0 = Ok pg1 /\
    runGenerator_iter pg1 = IterWrote pg2 /\
    Next pg2 = NextWord (bytes "a") pg3 /\ bufR pg3 = bufR pg2 + 1.
Proof.
  do 2 eexists. exists (after [ARun 1; AProduce] (engine_of cfg_abc)).
  assert (Hr : reachable_if no_wrap (engine_of cfg_abc)
                 (after [ARun 1; AProduce] (engine_of cfg_abc))).
  { eapply (exec_all_reachable_if no_wrap [ARun 1; AProduce]);
      [apply reachable_start| |vm_compute; reflexivity].
    vm_compute. repeat split. }
  destruct (Next_behaviour cfg_abc _ _ ltac:(vm_compute; reflexivity) Hr)
    as (_ & Hpop & _).
  destruct (Hpop ltac:(vm_compute; reflexivity)) as (w & pg' & Hw & Hnext & HR & _).
  exists pg'. split; [vm_compute; reflexivity|].
  split; [vm_compute; reflexivity|]. split; [vm_compute; reflexivity|].
  vm_compute in Hw. injection Hw as <-. split; [exact Hnext|exact HR].
Defined.

(** ** Restarting *)

Lemma accepted_initial_digits c :
  accepted c ->
  Z.of_nat (length (initial_digits c)) <= MaxLen c /\
  (0 <= MinLen c -> MinLen c <= Z.of_nat (length (initial_digits c))) /\
  Forall (fun d => 0 <= d < Z.of_nat (length (Charset c))) (initial_digits c).
Proof.
  intros [Hlen [Hmax Halloc] Hne Hnd Hinit]. unfold initial_digits.
  destruct (InitialState c) as [|b word] eqn:Hword.
  - rewrite length_replicate. split; [lia|]. split; [lia|].
    apply Forall_replicate. destruct (Charset c); [congruence|simpl length; lia].
  - rewrite <- Hword in *. rewrite length_fmap.
    destruct Hinit as [Hrange Hall]; [rewrite Hword; discriminate|].
    split; [lia|]. split; [lia|].
    apply Forall_fmap. eapply Forall_impl; [exact Hall|].
    intros x Hx. cbn. pose proof (IndexByte_upper (Charset c) x).
    destruct (Z.lt_ge_cases (IndexByte (Charset c) x) 0) as [Hneg|Hpos]; [|lia].
    apply IndexByte_absent in Hneg. contradiction.
Qed.

(** [Run] succeeds in every stopped state that can be reached. *)
Lemma Run_stopped cfg pg0 pg now :
  NewWordGen cfg = Ok pg0 -> reachable pg0 pg -> running pg = false ->
  Run now pg =
  Ok (mkWordGen (config pg) (charset pg) (charsetLen pg) now zeroTime
        (generated pg) (bufSize pg) (bufMask pg) (buf pg) 0 0
        (initialState pg) (initialState pg)
        (Z.of_nat (length (initialState pg))) true).
Proof.
  intros Hnew Hreach Hrun.
  destruct (fresh_engine_buffer_ok _ _ Hnew) as [Hok0 _].
  pose proof (reachable_static _ _ _ Hok0 Hreach) as Hst.
  apply static_fields in Hst as (Hcfg & _ & _ & _ & _ & Hinit & _).
  apply NewWordGen_Ok in Hnew as (Hacc & -> & _).
  cbn [fresh_engine config initialState] in Hcfg, Hinit.
  pose proof (accepted_initial_digits _ Hacc) as (Hlen & _ & _).
  destruct Hacc as [_ [Hmax Halloc] _ _ _].
  unfold Run. rewrite Hrun, Hinit, Hcfg.
  assert (Hmk : make_ok sizeof_uint (Z.of_nat (length (initial_digits (effective cfg))))
                  (MaxLen (effective cfg)) = true) by (apply make_ok_true; lia).
  rewrite Hmk. reflexivity.
Qed.

(** C9.  Starting a stopped engine again resets the counter state, both
    cursors and both timestamps but keeps [generated]: [Stats] goes on
    from the total of the earlier runs, and the next item produced makes
    it that total plus one. *)
Theorem restart_keeps_generated cfg pg0 pg now :
  NewWordGen cfg = Ok pg0 -> reachable pg0 pg -> running pg = false ->
  exists pg',
    Run now pg = Ok pg' /\
    state pg' = initialState pg /\
    stateLen pg' = Z.of_nat (length (initialState pg)) /\
    bufR pg' = 0 /\ bufW pg' = 0 /\
    startTime pg' = now /\ endTime pg' = zeroTime /\
    generated pg' = generated pg /\
    (now <> zeroTime -> forall t, fst (Stats t pg') = generated pg) /\
    (forall pg'',
       runGenerator_iter pg' = IterWrote pg'' \/
       runGenerator_iter pg' = IterDone pg'' ->
       generated pg'' = wrap64 (generated pg + 1)).
Proof.
  intros Hnew Hreach Hrun. eexists. split; [eapply Run_stopped; eauto|].
  cbn [state stateLen bufR bufW startTime endTime generated].
  repeat (split; [reflexivity|]). split.
  - intros Hnow t. unfold Stats, IsZero. cbn [startTime endTime generated].
    destruct (Z.eqb_spec now 0) as [|_]; [contradiction|]. reflexivity.
  - intros pg'' H. apply runGenerator_iter_writes in H as (_ & _ & w & _ & Hf).
    frame_fields Hf. assumption.
Qed.

(** ** The counter *)

Lemma with_state_id pg s : state pg = s -> with_state s pg = pg.
Proof. intros <-. destruct pg; reflexivity. Qed.

Section Increment.

Variable R : Z.
Hypothesis R_pos : 0 < R.

Lemma incr_Some ds ds' :
  valid_digits R ds -> incr R ds = Some ds' ->
  valid_digits R ds' /\ length ds' = length ds.
Proof.
  unfold valid_digits. revert ds'.
  induction ds as [|d ds IH]; intros ds' Hv; simpl; [discriminate|].
  apply Forall_cons in Hv as [Hd Hv].
  destruct (Z.ltb_spec (d + 1) R).
  - intros [= <-]. split; [|reflexivity]. constructor; [lia|assumption].
  - destruct (incr R ds) as [ds1|]; simpl; [|discriminate].
    intros [= <-]. destruct (IH ds1 Hv eq_refl) as [Hv1 Hl1].
    split; [constructor; [lia|assumption]|simpl; congruence].
Qed.

(** The carry leaves the sequence exactly when every digit is [R - 1]. *)
Lemma incr_None ds :
  valid_digits R ds ->
  incr R ds = None <-> ds = replicate (length ds) (R - 1).
Proof.
  unfold valid_digits. induction ds as [|d ds IH]; intros Hv; simpl; [tauto|].
  apply Forall_cons in Hv as [Hd Hv]. specialize (IH Hv).
  destruct (Z.ltb_spec (d + 1) R).
  - split; [discriminate|]. intros [= Hd' _]. lia.
  - destruct (incr R ds) as [ds1|]; simpl.
    + split; [discriminate|]. intros [= _ Hds]. apply IH in Hds. discriminate.
    + split; [|reflexivity]. intros _. f_equal; [lia|]. apply IH. reflexivity.
Qed.

Lemma valid_digits_zeros n : valid_digits R (replicate n 0).
Proof. apply Forall_replicate. lia. Qed.

Lemma next_digits_Some maxLen ds ds' :
  valid_digits R ds -> (length ds <= maxLen)%nat ->
  next_digits R maxLen ds = Some ds' ->
  valid_digits R ds' /\ (length ds <= length ds' <= maxLen)%nat.
Proof.
  intros Hv Hlen. unfold next_digits.
  destruct (incr R ds) as [ds1|] eqn:Hincr.
  - intros [= <-]. destruct (incr_Some _ _ Hv Hincr). split; [assumption|lia].
  - destruct (Nat.ltb_spec maxLen (S (length ds))); [discriminate|].
    intros [= <-]. split; [apply (valid_digits_zeros (S (length ds)))|].
    simpl. rewrite length_replicate. lia.
Qed.

(** The sequence is exhausted exactly at the all-[R - 1] sequence of
    the maximal length. *)
Lemma next_digits_None maxLen ds :
  valid_digits R ds -> (length ds <= maxLen)%nat ->
  next_digits R maxLen ds = None <->
  ds = replicate maxLen (R - 1).
Proof.
  intros Hv Hlen. unfold next_digits.
  destruct (incr R ds) as [ds1|] eqn:Hincr.
  - split; [discriminate|]. intros Heq.
    assert (Hnone : incr R ds = None); [|congruence].
    apply incr_None; [assumption|]. rewrite Heq at 1.
    rewrite Heq, length_replicate. reflexivity.
  - apply incr_None in Hincr; [|assumption].
    destruct (Nat.ltb_spec maxLen (S (length ds))).
    + split; [|reflexivity]. intros _. rewrite Hincr. f_equal. lia.
    + split; [discriminate|]. intros Heq. rewrite Heq, length_replicate in *. lia.
Qed.

End Increment.

(** The loop of [nextState] follows [incr]: with the digits [pre] before
    index [i] already reset, it either stops inside the sequence or
    leaves it with every digit reset. *)
Lemma nextState_from_incr ds pre pg :
  state pg = pre ++ ds ->
  Forall (fun d => 0 <= d < 2 ^ 64 - 1) ds ->
  match incr (charsetLen pg) ds with
  | Some ds' =>
      exists pg', nextState_from (length ds) (length pre) pg = Advanced pg' /\
        state pg' = pre ++ ds' /\ stateLen pg' = stateLen pg
  | None =>
      nextState_from (length ds) (length pre) pg
      = nextState_from 0 0 (with_state (pre ++ replicate (length ds) 0) pg)
  end.
Proof.
  revert pre pg. induction ds as [|d ds IH]; intros pre pg Hst Hv.
  - cbn [incr length replicate]. rewrite with_state_id by assumption. reflexivity.
  - apply Forall_cons in Hv as [Hd Hv]. cbn [incr length nextState_from].
    assert (Hlook : state pg !! length pre = Some d).
    { rewrite Hst. apply list_lookup_middle. reflexivity. }
    rewrite Hlook. rewrite wrap64_small by lia.
    destruct (Z.ltb_spec (d + 1) (charsetLen pg)) as [Hlt|Hge].
    + eexists. split; [reflexivity|]. cbn [state stateLen with_state].
      split; [|reflexivity]. rewrite Hst, insert_app_r_alt by lia.
      rewrite Nat.sub_diag. reflexivity.
    + specialize (IH (pre ++ [0]) (with_state (<[length pre := 0]> (state pg)) pg)).
      cbn [state charsetLen stateLen with_state] in IH.
      rewrite length_app in IH. cbn [length] in IH. rewrite Nat.add_1_r in IH.
      assert (Hins : <[length pre := 0]> (state pg) = (pre ++ [0]) ++ ds).
      { rewrite Hst, insert_app_r_alt by lia. rewrite Nat.sub_diag.
        rewrite <- app_assoc. reflexivity. }
      specialize (IH Hins Hv).
      destruct (incr (charsetLen pg) ds) as [ds1|]; cbn [fmap option_fmap option_map].
      * destruct IH as (pg' & Hrun & Hst' & Hlen'). exists pg'.
        split; [assumption|]. split; [|assumption].
        rewrite Hst', <- app_assoc. reflexivity.
      * rewrite IH. cbn [replicate]. rewrite <- app_assoc. reflexivity.
Qed.

Lemma counter_at_frame pg pg' ds ds' :
  counter_at pg ds -> frame pg' = frame pg ->
  state pg' = ds' -> stateLen pg' = Z.of_nat (length ds') ->
  valid_digits (charsetLen pg) ds' ->
  Z.of_nat (length ds') <= MaxLen (config pg) ->
  counter_at pg' ds'.
Proof.
  intros [Hst Hlen Hv Hb Hr Hs Ha] Hf Hst' Hlen' Hv' Hb'.
  frame_fields Hf.
  constructor; try assumption; congruence.
Qed.

(** [nextState] is [next_digits] on the digits of the counter. *)
Lemma nextState_next_digits pg ds :
  counter_at pg ds ->
  match next_digits (charsetLen pg) (Z.to_nat (MaxLen (config pg))) ds with
  | Some ds' => exists pg', nextState pg = Advanced pg' /\ counter_at pg' ds'
  | None =>
      exists pg', nextState pg = Exhausted pg' /\ frame pg' = frame pg /\
        state pg' = replicate (length ds) 0 /\
        stateLen pg' = MaxLen (config pg) + 1
  end.
Proof.
  intros Hc. pose proof Hc as [Hst Hlen Hv Hb Hr Hs Ha].
  assert (Hmax : MaxLen (config pg) <= 2 ^ 45) by (unfold maxAlloc, sizeof_uint in Ha; lia).
  pose proof (nextState_from_incr ds [] pg Hst) as Hloop.
  cbn [length app] in Hloop.
  assert (Hv64 : Forall (fun d => 0 <= d < 2 ^ 64 - 1) ds).
  { eapply Forall_impl; [exact Hv|]. cbn. intros d Hd. lia. }
  specialize (Hloop Hv64).
  pose proof (next_digits_Some (charsetLen pg) ltac:(lia)
                (Z.to_nat (MaxLen (config pg))) ds) as Hnext.
  unfold nextState. rewrite Hlen, Nat2Z.id.
  unfold next_digits in *.
  destruct (incr (charsetLen pg) ds) as [ds1|] eqn:Hincr.
  - destruct Hloop as (pg' & Hrun & Hst' & Hlen').
    destruct (Hnext ds1 Hv ltac:(lia) eq_refl) as [Hv1 Hl1].
    destruct (incr_Some (charsetLen pg) ltac:(lia) _ _ Hv Hincr) as [_ Hl].
    exists pg'. split; [assumption|].
    pose proof (nextState_from_frame (length ds) 0 pg) as Hf. rewrite Hrun in Hf.
    eapply counter_at_frame; eauto; [congruence|lia].
  - rewrite Hloop. cbn [nextState_from stateLen config with_state with_stateLen state].
    rewrite Hlen, wrap_int_small, to_int_small by lia.
    destruct (Nat.ltb_spec (Z.to_nat (MaxLen (config pg))) (S (length ds))) as [Hfull|Hroom].
    + assert (Hgt : (Z.of_nat (length ds) + 1 >? MaxLen (config pg)) = true)
        by (apply gtb_lt; lia).
      rewrite Hgt. eexists. split; [reflexivity|].
      cbn [state stateLen with_state with_stateLen]. repeat split. lia.
    + assert (Hle : (Z.of_nat (length ds) + 1 >? MaxLen (config pg)) = false)
        by (apply gtb_ge; lia).
      rewrite Hle. eexists. split; [reflexivity|].
      destruct (Hnext _ Hv ltac:(lia) eq_refl) as [Hv1 Hl1].
      rewrite length_replicate in Hl1.
      apply (counter_at_frame pg _ ds); [assumption|reflexivity| | |assumption|].
      * cbn [state with_state with_stateLen].
        rewrite replicate_S_end. reflexivity.
      * cbn [stateLen with_state with_stateLen].
        rewrite length_replicate. lia.
      * rewrite length_replicate. lia.
Qed.

(** A charset without duplicates has at most 256 symbols. *)
Lemma NoDup_bytes_length (cs : list byte) : NoDup cs -> (length cs <= 256)%nat.
Proof.
  intros Hnd.
  assert (Hinj : Inj (=) (=) Byte.to_N).
  { intros x y Hxy. apply (f_equal Byte.of_N) in Hxy.
    rewrite !Byte.of_to_N in Hxy. congruence. }
  rewrite <- (length_fmap Byte.to_N cs).
  replace 256%nat with (length (N.of_nat <$> seq 0 256))
    by (rewrite length_fmap, length_seq; reflexivity).
  apply submseteq_length, NoDup_submseteq; [apply NoDup_fmap_2; assumption|].
  intros n Hn. apply list_elem_of_fmap in Hn as (b & -> & _).
  apply list_elem_of_fmap. exists (N.to_nat (Byte.to_N b)).
  split; [rewrite N2Nat.id; reflexivity|].
  apply elem_of_seq. pose proof (Byte.to_N_bounded b). lia.
Qed.

(** The slot written for a counter at [ds] is the word of [ds]. *)
Lemma encode_word pg ds :
  counter_at pg ds -> encode pg = Some (word_of (charset pg) ds).
Proof.
  intros [Hst Hlen Hv Hb Hr Hs Ha]. unfold encode.
  assert (Hmax : MaxLen (config pg) <= 2 ^ 45) by (unfold maxAlloc, sizeof_uint in Ha; lia).
  rewrite Hlen, to_int_small by lia.
  destruct (Z.ltb_spec (Z.of_nat (length ds)) 0); [lia|].
  assert (Hle : (Z.of_nat (length ds) >? MaxLen (config pg)) = false) by (apply gtb_ge; lia).
  rewrite Hle. cbn [orb]. rewrite Nat2Z.id, Hst.
  apply mapM_Some_2, Forall2_same_length_lookup_2.
  - unfold word_of. rewrite length_seq, length_fmap. reflexivity.
  - intros i j c Hi Hc. apply lookup_seq in Hi as [-> Hi]. cbn [Nat.add].
    unfold word_of in Hc. rewrite list_lookup_fmap in Hc.
    destruct (ds !! i) as [d|] eqn:Hd; [|discriminate]. injection Hc as <-.
    cbn. unfold valid_digits in Hv. rewrite Forall_lookup in Hv.
    specialize (Hv i d Hd). apply list_lookup_lookup_total_lt. lia.
Qed.

(** ** Chains *)

Section Chains.

Context {A : Type} (f : A -> option A).

Lemma chain_nonempty l : chain f l -> l <> [].
Proof. intros []; discriminate. Qed.

Lemma chain_app l1 l2 :
  chain f l1 -> chain f l2 ->
  (forall x y, last l1 = Some x -> head l2 = Some y -> f x = Some y) ->
  chain f (l1 ++ l2).
Proof.
  intros H1 H2. induction H1 as [x|x y l Hxy Hl IH]; intros Hjoin.
  - destruct H2 as [z|z z' l2 Hz Hl2]; cbn [app].
    + apply chain_cons; [apply Hjoin; reflexivity|constructor].
    + apply chain_cons; [apply Hjoin; reflexivity|].
      apply chain_cons; assumption.
  - cbn [app]. apply chain_cons; [assumption|]. apply IH.
    intros a b Ha Hb. apply Hjoin; [|assumption].
    rewrite last_cons_cons. assumption.
Qed.

Lemma chain_suffix l1 x l2 : chain f (l1 ++ x :: l2) -> chain f (x :: l2).
Proof.
  induction l1 as [|a l1 IH]; cbn [app]; [tauto|].
  intros H. apply IH. inversion H as [|? ? ? _ Hrest Heq]; subst.
  - destruct l1; discriminate.
  - assumption.
Qed.

Lemma chain_lookup l i x y :
  chain f l -> l !! i = Some x -> l !! S i = Some y -> f x = Some y.
Proof.
  intros H. revert i. induction H as [a|a b l Hab Hl IH]; intros i Hx Hy.
  - destruct i; discriminate.
  - destruct i as [|i]; [cbn in Hx, Hy; congruence|].
    apply (IH i); assumption.
Qed.

End Chains.

Lemma chain_impl {A : Type} (f g : A -> option A) l :
  (forall x y, f x = Some y -> g x = Some y) -> chain f l -> chain g l.
Proof. intros Hfg H. induction H; constructor; auto. Qed.

(** ** The odometer order is the order of the counter *)

Section Odometer.

Variable R : Z.
Hypothesis R_pos : 0 < R.

(** The words over one tail [w], first digit running from [a]. *)
Lemma block_chain w k a :
  a + Z.of_nat (S k) <= R ->
  chain (incr R) ((fun d => d :: w) <$> seqZ a (Z.of_nat (S k))) /\
  head ((fun d => d :: w) <$> seqZ a (Z.of_nat (S k))) = Some (a :: w) /\
  last ((fun d => d :: w) <$> seqZ a (Z.of_nat (S k))) = Some ((a + Z.of_nat k) :: w).
Proof.
  revert a. induction k as [|k IH]; intros a Ha.
  - change (seqZ a (Z.of_nat 1)) with [a]. cbn [fmap list_fmap].
    replace (a + Z.of_nat 0) with a by lia.
    split; [constructor|]. split; reflexivity.
  - rewrite seqZ_cons by lia.
    replace (Z.pred (Z.of_nat (S (S k)))) with (Z.of_nat (S k)) by lia.
    cbn [fmap list_fmap].
    destruct (IH (Z.succ a) ltac:(lia)) as (Hc & Hh & Hl).
    destruct ((fun d => d :: w) <$> seqZ (Z.succ a) (Z.of_nat (S k)))
      as [|b rest] eqn:Hrest; [discriminate|].
    injection Hh as ->. split; [|split; [reflexivity|]].
    + apply chain_cons; [|assumption]. cbn [incr].
      destruct (Z.ltb_spec (a + 1) R); [reflexivity|lia].
    + rewrite last_cons_cons, Hl. do 2 f_equal. lia.
Qed.

Lemma full_block w :
  chain (incr R) ((fun d => d :: w) <$> seqZ 0 R) /\
  head ((fun d => d :: w) <$> seqZ 0 R) = Some (0 :: w) /\
  last ((fun d => d :: w) <$> seqZ 0 R) = Some ((R - 1) :: w).
Proof.
  pose proof (block_chain w (Z.to_nat (R - 1)) 0) as H.
  replace (Z.of_nat (S (Z.to_nat (R - 1)))) with R in H by lia.
  replace (0 + Z.of_nat (Z.to_nat (R - 1))) with (R - 1) in H by lia.
  apply H. lia.
Qed.

Lemma blocks_chain l :
  chain (incr R) l ->
  chain (incr R) (l ≫= fun w => (fun d => d :: w) <$> seqZ 0 R) /\
  head (l ≫= fun w => (fun d => d :: w) <$> seqZ 0 R) = cons 0 <$> head l /\
  last (l ≫= fun w => (fun d => d :: w) <$> seqZ 0 R) = cons (R - 1) <$> last l.
Proof.
  intros H. induction H as [x|x y l Hxy Hl IH].
  - cbn [mbind list_bind]. rewrite app_nil_r. apply full_block.
  - rewrite bind_cons.
    destruct (full_block x) as (Hc & Hh & Hlast).
    destruct IH as (IHc & IHh & IHl).
    split; [|split].
    + apply chain_app; [assumption..|].
      intros a b Ha Hb. rewrite Hlast in Ha. injection Ha as <-.
      rewrite IHh in Hb. cbn in Hb. injection Hb as <-.
      cbn [incr]. destruct (Z.ltb_spec (R - 1 + 1) R); [lia|].
      rewrite Hxy. reflexivity.
    + rewrite head_app, Hh. reflexivity.
    + rewrite last_app, IHl. rewrite last_cons_cons.
      assert (Hsome : is_Some (last (y :: l))) by (apply last_is_Some; discriminate).
      destruct Hsome as [z ->]. reflexivity.
Qed.

(** All sequences of one length, from all zeros to all [R - 1], each
    the increment of the one before. *)
Lemma all_states_chain n :
  chain (incr R) (all_states R n) /\
  head (all_states R n) = Some (replicate n 0) /\
  last (all_states R n) = Some (replicate n (R - 1)).
Proof.
  induction n as [|n (IHc & IHh & IHl)].
  - split; [constructor|]. split; reflexivity.
  - cbn [all_states]. destruct (blocks_chain _ IHc) as (Hc & Hh & Hl).
    split; [assumption|]. rewrite Hh, Hl, IHh, IHl. split; reflexivity.
Qed.

End Odometer.

Section Enumeration.

Variable R : Z.
Hypothesis R_pos : 0 < R.

Lemma all_states_elem n s :
  s ∈ all_states R n <-> length s = n /\ valid_digits R s.
Proof.
  unfold valid_digits. revert s. induction n as [|n IH]; intros s; cbn [all_states].
  - rewrite list_elem_of_singleton. split.
    + intros ->. split; [reflexivity|constructor].
    + intros [Hl _]. destruct s; [reflexivity|discriminate].
  - rewrite list_elem_of_bind. split.
    + intros (w & Hs & Hw). apply list_elem_of_fmap in Hs as (d & -> & Hd).
      apply elem_of_seqZ in Hd. apply IH in Hw as [<- Hv].
      split; [reflexivity|]. constructor; [lia|assumption].
    + intros [Hl Hv]. destruct s as [|d w]; [discriminate|].
      apply Forall_cons in Hv as [Hd Hv]. exists w. split.
      * apply list_elem_of_fmap. exists d. split; [reflexivity|].
        apply elem_of_seqZ. lia.
      * apply IH. split; [simpl in Hl; lia|assumption].
Qed.

Lemma values_blocks l :
  value R <$> (l ≫= fun w => (fun d => d :: w) <$> seqZ 0 R)
  = (value R <$> l) ≫= fun v => seqZ (R * v) R.
Proof.
  induction l as [|w l IH]; [reflexivity|].
  rewrite fmap_cons, !bind_cons, fmap_app, IH. f_equal.
  rewrite <- list_fmap_compose.
  replace (seqZ (R * value R w) R) with (seqZ (R * value R w + 0) R)
    by (f_equal; lia).
  rewrite <- fmap_add_seqZ.
  apply list_fmap_ext. intros i d _. cbn. fold (value R w). lia.
Qed.

Lemma seqZ_blocks k :
  seqZ 0 (Z.of_nat k) ≫= (fun v => seqZ (R * v) R) = seqZ 0 (R * Z.of_nat k).
Proof.
  induction k as [|k IH].
  - replace (R * Z.of_nat 0) with 0 by lia. reflexivity.
  - rewrite seqZ_S, bind_app, IH. cbn [mbind list_bind]. rewrite app_nil_r.
    replace (R * Z.of_nat (S k)) with (R * Z.of_nat k + R) by lia.
    rewrite seqZ_app by lia. reflexivity.
Qed.

(** The values of the sequences of length [n] are [0, 1, ..., R^n - 1]
    in this order. *)
Lemma all_states_values n :
  value R <$> all_states R n = seqZ 0 (R ^ Z.of_nat n).
Proof.
  induction n as [|n IH]; [reflexivity|].
  cbn [all_states]. rewrite values_blocks, IH.
  assert (Hpow : 0 <= R ^ Z.of_nat n) by (apply Z.pow_nonneg; lia).
  rewrite <- (Z2Nat.id (R ^ Z.of_nat n)) at 1 by assumption.
  rewrite seqZ_blocks, Z2Nat.id by assumption.
  f_equal. rewrite Nat2Z.inj_succ, Z.pow_succ_r by lia. reflexivity.
Qed.

Lemma all_states_length n :
  Z.of_nat (length (all_states R n)) = R ^ Z.of_nat n.
Proof.
  rewrite <- (length_fmap (value R)), all_states_values, length_seqZ.
  apply Z2Nat.id, Z.pow_nonneg. lia.
Qed.

Lemma all_states_NoDup n : NoDup (all_states R n).
Proof.
  apply (NoDup_fmap_1 (value R)). rewrite all_states_values. apply NoDup_seqZ.
Qed.

Lemma enumeration_from_elem lo k s :
  s ∈ enumeration_from R lo k <->
  (lo <= length s < lo + k)%nat /\ valid_digits R s.
Proof.
  unfold enumeration_from. rewrite list_elem_of_bind. split.
  - intros (n & Hs & Hn). apply all_states_elem in Hs as [<- Hv].
    apply elem_of_seq in Hn. tauto.
  - intros [Hl Hv]. exists (length s). split.
    + apply all_states_elem. tauto.
    + apply elem_of_seq. lia.
Qed.

Lemma enumeration_from_NoDup lo k : NoDup (enumeration_from R lo k).
Proof.
  apply NoDup_bind.
  - intros n1 n2 s _ _ H1 H2.
    apply all_states_elem in H1 as [<- _]. apply all_states_elem in H2 as [<- _].
    reflexivity.
  - intros n _. apply all_states_NoDup.
  - apply NoDup_seq.
Qed.

Lemma enumeration_from_length lo k :
  Z.of_nat (length (enumeration_from R lo k))
  = foldr Z.add 0 ((fun L => R ^ Z.of_nat L) <$> seq lo k).
Proof.
  unfold enumeration_from. revert lo. induction k as [|k IH]; intros lo; [reflexivity|].
  cbn [seq fmap list_fmap foldr]. rewrite bind_cons, List.length_app, Nat2Z.inj_add.
  rewrite all_states_length, IH. reflexivity.
Qed.

Lemma enumeration_from_ranks lo k :
  (fun s => (length s, value R s)) <$> enumeration_from R lo k
  = seq lo k ≫= fun L => (fun v => (L, v)) <$> seqZ 0 (R ^ Z.of_nat L).
Proof.
  unfold enumeration_from. revert lo. induction k as [|k IH]; intros lo; [reflexivity|].
  cbn [seq]. rewrite !bind_cons, fmap_app, IH. f_equal.
  rewrite <- all_states_values, <- list_fmap_compose.
  apply Forall_fmap_ext, Forall_forall. intros s Hs.
  apply all_states_elem in Hs as [<- _]. reflexivity.
Qed.

Lemma incr_next_digits maxLen x y :
  incr R x = Some y -> next_digits R maxLen x = Some y.
Proof. unfold next_digits. intros ->. reflexivity. Qed.

Lemma incr_all_max n : incr R (replicate n (R - 1)) = None.
Proof.
  apply incr_None; [apply Forall_replicate; lia|].
  rewrite length_replicate. reflexivity.
Qed.

(** The enumeration of [k + 1] lengths from [lo] is a chain of
    successors from all zeros to all [R - 1]. *)
Lemma enumeration_from_chain maxLen k :
  forall lo, (lo + k <= maxLen)%nat ->
  chain (next_digits R maxLen) (enumeration_from R lo (S k)) /\
  head (enumeration_from R lo (S k)) = Some (replicate lo 0) /\
  last (enumeration_from R lo (S k)) = Some (replicate (lo + k) (R - 1)).
Proof.
  unfold enumeration_from. induction k as [|k IH]; intros lo Hlo.
  - cbn [seq mbind list_bind]. rewrite app_nil_r, Nat.add_0_r.
    destruct (all_states_chain R R_pos lo) as (Hc & Hh & Hl).
    split; [|tauto]. eapply chain_impl; [|exact Hc].
    intros x y. apply incr_next_digits.
  - change (seq lo (S (S k))) with (lo :: seq (S lo) (S k)). rewrite bind_cons.
    destruct (all_states_chain R R_pos lo) as (Hc & Hh & Hl).
    destruct (IH (S lo) ltac:(lia)) as (IHc & IHh & IHl).
    split; [|split].
    + apply chain_app; [|assumption|].
      * eapply chain_impl; [|exact Hc]. intros x y. apply incr_next_digits.
      * intros x y Hx Hy. rewrite Hl in Hx. injection Hx as <-.
        rewrite IHh in Hy. injection Hy as <-.
        unfold next_digits. rewrite incr_all_max, length_replicate.
        destruct (Nat.ltb_spec maxLen (S lo)); [lia|reflexivity].
    + rewrite head_app, Hh. reflexivity.
    + rewrite last_app, IHl. f_equal. f_equal. lia.
Qed.

End Enumeration.

(** ** Whole runs of the counter *)

Lemma word_of_inj cs s1 s2 :
  NoDup cs ->
  valid_digits (Z.of_nat (length cs)) s1 ->
  valid_digits (Z.of_nat (length cs)) s2 ->
  word_of cs s1 = word_of cs s2 -> s1 = s2.
Proof.
  unfold valid_digits, word_of. intros Hnd. revert s2.
  induction s1 as [|d1 s1 IH]; intros [|d2 s2] H1 H2 Heq; try discriminate;
    [reflexivity|].
  apply Forall_cons in H1 as [Hd1 H1]. apply Forall_cons in H2 as [Hd2 H2].
  cbn [fmap list_fmap] in Heq. injection Heq as Hhead Htail.
  f_equal; [|apply IH; assumption].
  assert (L1 : cs !! Z.to_nat d1 = Some (cs !!! Z.to_nat d1))
    by (apply list_lookup_lookup_total_lt; lia).
  assert (L2 : cs !! Z.to_nat d2 = Some (cs !!! Z.to_nat d2))
    by (apply list_lookup_lookup_total_lt; lia).
  rewrite Hhead in L1.
  pose proof (NoDup_lookup _ _ _ _ Hnd L1 L2). lia.
Qed.

(** Decoding the digits of a word over the charset gives the word back. *)
Lemma word_of_IndexByte cs w :
  Forall (fun x => x ∈ cs) w -> word_of cs (IndexByte cs <$> w) = w.
Proof.
  unfold word_of. induction 1 as [|x w Hx _ IH]; [reflexivity|].
  cbn [fmap list_fmap]. f_equal; [|exact IH].
  apply list_lookup_total_correct, IndexByte_lookup.
  pose proof (IndexByte_lower cs x).
  destruct (Z.lt_ge_cases (IndexByte cs x) 0) as [Hneg|]; [|assumption].
  apply IndexByte_absent in Hneg. contradiction.
Qed.

(** [Run] on the engine [NewWordGen] returned puts the counter at the
    initial digits. *)
Lemma Run_fresh cfg pg0 now :
  NewWordGen cfg = Ok pg0 ->
  exists pg, Run now pg0 = Ok pg /\
    counter_at pg (initial_digits (effective cfg)) /\
    config pg = effective cfg /\ charset pg = Charset (effective cfg) /\
    charsetLen pg = Z.of_nat (length (Charset (effective cfg))) /\
    NoDup (charset pg) /\ MinLen (config pg) <= MaxLen (config pg) /\
    running pg = true /\ bufR pg = 0 /\ bufW pg = 0 /\ static pg = static pg0.
Proof.
  intros Hnew. eexists. split.
  { eapply Run_stopped; [eassumption|apply reachable_start|].
    apply NewWordGen_Ok in Hnew as (_ & -> & _). reflexivity. }
  apply NewWordGen_Ok in Hnew as (Hacc & -> & _).
  pose proof (accepted_initial_digits _ Hacc) as (Hlen & _ & Hv).
  destruct Hacc as [Hle [Hmax Halloc] Hne Hnd _].
  cbn [fresh_engine config charset charsetLen initialState running bufR bufW].
  pose proof (NoDup_bytes_length _ Hnd) as H256.
  assert (Hpos : 0 < Z.of_nat (length (Charset (effective cfg)))).
  { destruct (Charset (effective cfg)); [congruence|simpl length; lia]. }
  repeat split; try assumption; try reflexivity; try lia.
  cbn [charsetLen]. lia.
Qed.

(** What [NewWordGen] accepts it returns an engine for, if the buffer
    can be allocated. *)
Lemma NewWordGen_accepts cfg :
  accepted (effective cfg) ->
  make_ok sizeof_slice
    (roundToNearestPowerOfTwo (BufferSize (effective cfg)))
    (roundToNearestPowerOfTwo (BufferSize (effective cfg))) = true ->
  NewWordGen cfg = Ok (fresh_engine (effective cfg)).
Proof.
  intros [Hle [Hmax Halloc] Hne Hnd Hinit] Hbuf.
  unfold NewWordGen, fresh_engine, initial_digits, effective in *.
  generalize dependent (apply_defaults cfg). intros c.
  cbn [Charset InitialState MinLen MaxLen BufferSize]. cbv zeta.
  rewrite floor_max. intros Hle Hmax Halloc Hne Hnd Hinit Hbuf.
  assert (Hgt : (MinLen c >? MaxLen c) = false) by (apply gtb_ge; assumption).
  rewrite Hgt.
  assert (Hmk : forall len, 0 <= len <= MaxLen c ->
            make_ok sizeof_uint len (MaxLen c) = true).
  { intros len Hl. apply make_ok_true. lia. }
  rewrite !Hmk by lia. cbn [andb negb].
  destruct (Z.eqb_spec (Z.of_nat (length (Charset c))) 0) as [Hz|_].
  { destruct (Charset c); [congruence|simpl length in Hz; lia]. }
  assert (Hdup : charset_duplicate ∅ 0 (Charset c) = None).
  { apply charset_duplicate_None. split; [assumption|]. intros x _. set_solver. }
  rewrite Hdup, Hbuf. cbn [negb].
  assert (Hint : forall x, x <= MaxLen c -> to_int x = x).
  { intros x Hx. apply to_int_small. unfold maxAlloc, sizeof_uint in Halloc. lia. }
  rewrite !Hint by lia.
  destruct (InitialState c) as [|b word] eqn:Hword.
  - cbn [length Z.of_nat]. change (0 >? 0) with false. cbv iota.
    rewrite take_replicate, Nat.min_l by lia. reflexivity.
  - rewrite <- Hword in *.
    destruct Hinit as [Hrange Hall]; [rewrite Hword; discriminate|].
    assert (Hpos : (Z.of_nat (length (InitialState c)) >? 0) = true).
    { apply gtb_lt. rewrite Hword. simpl length. lia. }
    rewrite Hpos.
    destruct (Z.ltb_spec (Z.of_nat (length (InitialState c))) (MinLen c)); [lia|].
    assert (Hmax' : (Z.of_nat (length (InitialState c)) >? MaxLen c) = false)
      by (apply gtb_ge; lia).
    rewrite Hmax'.
    rewrite fill_initial_Ok; [|assumption|rewrite length_replicate; lia].
    rewrite take_0, app_nil_l.
    rewrite take_app_length' by (rewrite length_fmap; reflexivity).
    reflexivity.
Qed.

Lemma emitted_more fuel fuel' pg ws :
  emitted fuel pg = Some ws -> (fuel <= fuel')%nat -> emitted fuel' pg = Some ws.
Proof.
  revert fuel' pg ws. induction fuel as [|fuel IH]; intros fuel' pg ws; [discriminate|].
  destruct fuel' as [|fuel']; [lia|]. cbn [emitted]. intros H Hle.
  destruct (encode pg) as [w|]; [|discriminate]. cbn [mbind option_bind] in *.
  destruct (nextState pg) as [pg'| |]; try assumption.
  destruct (emitted fuel pg') as [rest|] eqn:E; [|discriminate].
  rewrite (IH fuel' pg' rest E) by lia. assumption.
Qed.

Lemma enumeration_words_NoDup cs lo hi :
  NoDup cs -> cs <> [] ->
  NoDup (word_of cs <$> enumeration (Z.of_nat (length cs)) lo hi).
Proof.
  intros Hnd Hne.
  assert (Hpos : 0 < Z.of_nat (length cs)) by (destruct cs; [congruence|simpl length; lia]).
  apply NoDup_fmap_2_strong; [|apply enumeration_from_NoDup; assumption].
  intros s1 s2 H1 H2.
  apply enumeration_from_elem in H1 as [_ H1].
  apply enumeration_from_elem in H2 as [_ H2].
  apply word_of_inj; assumption.
Qed.


(** ** The producer step on a valid counter *)

Lemma counter_at_same_counter pg pg' ds :
  counter_at pg ds ->
  state pg' = state pg -> stateLen pg' = stateLen pg ->
  charsetLen pg' = charsetLen pg -> charset pg' = charset pg ->
  config pg' = config pg ->
  counter_at pg' ds.
Proof.
  intros [Hst Hlen Hv Hb Hr Hs Ha] E1 E2 E3 E4 E5.
  constructor; congruence.
Qed.

(** Any cursor value selects a slot of a non-empty buffer. *)
Lemma slot_exists pg x :
  buffer_ok pg -> 0 < bufSize pg -> 0 <= x ->
  exists w, buf pg !! Z.to_nat (Z.land x (bufMask pg)) = Some w.
Proof.
  intros [HR HW Hsize Hlen Hmask Hzero] Hpos Hx.
  assert (Hm : bufMask pg = bufSize pg - 1).
  { rewrite Hmask. apply wrap64_small. unfold maxAlloc, sizeof_slice in Hsize. lia. }
  apply lookup_lt_is_Some_2. rewrite Hlen, Hm.
  pose proof (land_upper_bound x (bufSize pg - 1)).
  assert (0 <= Z.land x (bufSize pg - 1)) by (apply Z.land_nonneg; lia).
  lia.
Qed.

(** One iteration of the producer on a counter at [ds], with room in
    the buffer: the word of [ds] goes to slot [bufW & bufMask] and the
    counter moves to the successor of [ds], or the loop returns if there
    is none. *)
Lemma runGenerator_iter_counter pg ds :
  counter_at pg ds -> buffer_ok pg -> running pg = true ->
  wrap64 (bufW pg - bufR pg) < bufSize pg ->
  exists pg',
    frame pg' =
    frame (with_written
             (<[Z.to_nat (Z.land (bufW pg) (bufMask pg)) := word_of (charset pg) ds]>
                (buf pg))
             (wrap64 (bufW pg + 1)) (wrap64 (generated pg + 1)) pg) /\
    match next_digits (charsetLen pg) (Z.to_nat (MaxLen (config pg))) ds with
    | Some ds' => runGenerator_iter pg = IterWrote pg' /\ counter_at pg' ds'
    | None => runGenerator_iter pg = IterDone pg'
    end.
Proof.
  intros Hc Hok Hrun Hroom. unfold runGenerator_iter. rewrite Hrun. cbn [negb].
  destruct (Z.geb_spec (wrap64 (bufW pg - bufR pg)) (bufSize pg)) as [|_]; [lia|].
  pose proof (wrap64_range (bufW pg - bufR pg)).
  destruct (slot_exists pg (bufW pg) Hok ltac:(lia) ltac:(destruct Hok; lia))
    as [old ->].
  rewrite (encode_word pg ds Hc).
  set (pg1 := with_written _ _ _ pg).
  assert (Hc1 : counter_at pg1 ds)
    by (apply (counter_at_same_counter pg); [assumption|reflexivity..]).
  pose proof (nextState_next_digits pg1 ds Hc1) as Hnext.
  pose proof (nextState_frame pg1) as Hframe.
  change (charsetLen pg1) with (charsetLen pg) in Hnext.
  change (config pg1) with (config pg) in Hnext.
  destruct (next_digits _ _ ds) as [ds'|].
  - destruct Hnext as (pg' & Hrun' & Hc'). rewrite Hrun' in *.
    exists pg'. split; [assumption|]. split; [reflexivity|assumption].
  - destruct Hnext as (pg' & Hrun' & Hf & _). rewrite Hrun' in *.
    exists pg'. split; [assumption|reflexivity].
Qed.

(** The producer and one consumer in lock step: after [n] rounds of one
    written slot and one [Next], both cursors are [n] and the counter is
    at the [n]-th state of the enumeration. *)
Lemma lock_step_reachable cfg pg0 (now : Time) n :
  NewWordGen cfg = Ok pg0 -> InitialState cfg = [] -> 0 < bufSize pg0 ->
  forall s,
    Z.of_nat n < 2 ^ 64 ->
    enumeration (charsetLen pg0) (Z.to_nat (MinLen (config pg0)))
      (Z.to_nat (MaxLen (config pg0))) !! n = Some s ->
    exists pg,
      reachable pg0 pg /\ bufR pg = Z.of_nat n /\ bufW pg = Z.of_nat n /\
      running pg = true /\ counter_at pg s /\ static pg = static pg0.
Proof.
  intros Hnew Hnil Hsize.
  destruct (fresh_engine_buffer_ok _ _ Hnew) as [Hok0 _].
  destruct (Run_fresh cfg pg0 now Hnew)
    as (pg1 & Hrun & Hc & Hcfg & Hcs & HR & Hnd & Hle & Hrunning & HbR & HbW & Hst).
  pose proof (static_fields _ _ Hst) as (Hcfg0 & Hcs0 & HR0 & Hsz0 & _).
  rewrite <- Hcfg0, <- HR0.
  pose proof Hc as [_ _ _ _ _ [Hpos _] _].
  set (R := charsetLen pg1) in *.
  set (lo := Z.to_nat (MinLen (config pg1))) in *.
  set (hi := Z.to_nat (MaxLen (config pg1))) in *.
  assert (Hlohi : (lo <= hi)%nat) by (subst lo hi; lia).
  destruct (enumeration_from_chain R Hpos hi (hi - lo) lo ltac:(lia))
    as (Hchain & Hhead & _).
  unfold enumeration. replace (S hi - lo)%nat with (S (hi - lo)) by lia.
  set (E := enumeration_from R lo (S (hi - lo))) in *.
  induction n as [|n IH]; intros s Hn Hs.
  - exists pg1. rewrite head_lookup in Hhead. rewrite Hs in Hhead.
    injection Hhead as ->.
    assert (Hinit : initial_digits (effective cfg) = replicate lo 0).
    { unfold initial_digits. subst lo. rewrite Hcfg.
      assert (Hi : InitialState (effective cfg) = []) by exact Hnil.
      rewrite Hi. reflexivity. }
    rewrite Hinit in Hc.
    split; [|tauto].
    eapply reachable_next; [apply reachable_start|exact I|].
    apply (step_Run now). assumption.
  - destruct (lookup_lt_is_Some_2 E n) as [s0 Hs0].
    { apply lookup_lt_Some in Hs. lia. }
    destruct (IH s0 ltac:(lia) Hs0) as (pg & Hreach & HbR' & HbW' & Hrun' & Hc' & Hst').
    pose proof (reachable_buffer_ok _ _ _ Hok0 Hreach) as Hok.
    pose proof (static_fields _ _ Hst') as (Hcfg' & Hcs' & HRR' & Hsz' & _).
    pose proof (chain_lookup _ _ _ _ _ Hchain Hs0 Hs) as Hnext.
    destruct (runGenerator_iter_counter pg s0 Hc' Hok Hrun') as (pg2 & Hf & Hiter).
    { rewrite HbR', HbW', Z.sub_diag, Hsz'. rewrite wrap64_small; lia. }
    rewrite HRR', Hcfg', <- HR0, <- Hcfg0 in Hiter. fold hi in Hiter.
    rewrite Hnext in Hiter. destruct Hiter as [Hiter Hc2].
    frame_fields Hf.
    assert (Hreach2 : reachable pg0 pg2).
    { eapply reachable_next; [exact Hreach|exact I|].
      apply step_produce. rewrite Hiter. reflexivity. }
    pose proof (reachable_buffer_ok _ _ _ Hok0 Hreach2) as Hok2.
    assert (HW2 : bufW pg2 = Z.of_nat (S n)).
    { replace (bufW pg2) with (wrap64 (bufW pg + 1)) by congruence.
      rewrite HbW'. rewrite wrap64_small; lia. }
    assert (HR2 : bufR pg2 = Z.of_nat n) by congruence.
    destruct (read_slot_exists pg2 Hok2 ltac:(lia)) as (_ & w & Hw).
    exists (with_bufR (wrap64 (bufR pg2 + 1)) pg2).
    split; [|split; [|split; [|split; [|split]]]].
    + eapply reachable_next; [exact Hreach2|exact I|].
      apply step_Next. unfold Next, pop.
      destruct (Z.geb_spec (bufR pg2) (bufW pg2)); [lia|].
      rewrite Hw. reflexivity.
    + cbn [bufR with_bufR]. rewrite HR2. rewrite wrap64_small; lia.
    + cbn [bufW with_bufR]. assumption.
    + cbn [running with_bufR]. congruence.
    + apply (counter_at_same_counter pg2); [assumption|reflexivity..].
    + rewrite <- Hst'. unfold static. cbn [with_bufR config charset charsetLen
        bufSize bufMask initialState buf].
      replace (buf pg2) with
        (<[Z.to_nat (Z.land (bufW pg) (bufMask pg)) := word_of (charset pg) s0]> (buf pg))
        by congruence.
      rewrite length_insert. congruence.
Qed.

(** C6 (as stated) fails after [2^64 - 1] items of one run: with
    charset "ab" and 65 symbols per word the producer and a consumer in
    lock step reach [bufR = bufW = 2^64 - 1]; the next write wraps [bufW]
    to 0 and leaves [bufR] above it. *)
Lemma write_cursor_wraps :
  exists pg0 pg,
    NewWordGen cfg_ab_len65 = Ok pg0 /\ reachable pg0 pg /\
    bufR pg = 2 ^ 64 - 1 /\ bufW pg = 0 /\ ¬ cursors_ok pg.
Proof.
  assert (Hnew : NewWordGen cfg_ab_len65 = Ok (fresh_engine (effective cfg_ab_len65)))
    by (vm_compute; reflexivity).
  set (pg0 := fresh_engine (effective cfg_ab_len65)) in *.
  exists pg0.
  destruct (fresh_engine_buffer_ok _ _ Hnew) as [Hok0 _].
  assert (HR : charsetLen pg0 = 2) by reflexivity.
  assert (Hlo : Z.to_nat (MinLen (config pg0)) = 65%nat) by reflexivity.
  assert (Hhi : Z.to_nat (MaxLen (config pg0)) = 65%nat) by reflexivity.
  assert (Hsz : bufSize pg0 = 1) by reflexivity.
  pose proof (enumeration_from_chain 2 ltac:(lia) 65 0 65 ltac:(lia)) as (Hchain & _ & _).
  pose proof (enumeration_from_length 2 ltac:(lia) 65 1) as Hlen.
  change (foldr Z.add 0 ((fun L => 2 ^ Z.of_nat L) <$> seq 65 1)) with (2 ^ 65) in Hlen.
  set (E := enumeration_from 2 65 1) in *.
  pose (n := Z.to_nat (2 ^ 64 - 1)).
  assert (Hn : Z.of_nat n = 2 ^ 64 - 1) by (subst n; lia).
  clearbody n.
  destruct (lookup_lt_is_Some_2 E n ltac:(lia)) as [s0 Hs0].
  destruct (lookup_lt_is_Some_2 E (S n) ltac:(lia)) as [s1 Hs1].
  destruct (lock_step_reachable cfg_ab_len65 pg0 1 n Hnew eq_refl ltac:(lia) s0 ltac:(lia))
    as (pg & Hreach & HbR & HbW & Hrun & Hc & Hst).
  { rewrite HR, Hlo, Hhi. exact Hs0. }
  pose proof (reachable_buffer_ok _ _ _ Hok0 Hreach) as Hok.
  pose proof (static_fields _ _ Hst) as (Hcfg' & _ & HR' & Hsz' & _).
  destruct (runGenerator_iter_counter pg s0 Hc Hok Hrun) as (pg2 & Hf & Hiter).
  { rewrite HbR, HbW, Z.sub_diag, Hsz', Hsz. rewrite wrap64_small; lia. }
  rewrite HR', Hcfg', HR, Hhi in Hiter.
  rewrite (chain_lookup _ _ _ _ _ Hchain Hs0 Hs1) in Hiter.
  destruct Hiter as [Hiter _]. frame_fields Hf.
  assert (HW2 : bufW pg2 = 0).
  { replace (bufW pg2) with (wrap64 (bufW pg + 1)) by congruence.
    rewrite HbW, Hn. reflexivity. }
  assert (HR2 : bufR pg2 = 2 ^ 64 - 1) by congruence.
  exists pg2. split; [assumption|]. split; [|split; [assumption|split; [assumption|]]].
  - eapply reachable_next; [exact Hreach|exact I|].
    apply step_produce. rewrite Hiter. reflexivity.
  - unfold cursors_ok. rewrite HW2, HR2. lia.
Qed.

(** The producer and a consumer in lock step on the engine of [2^65]
    words and capacity 1, just after the write of slot number
    [2^64 - 1]: the write cursor is back at 0 and the word sits in the
    only slot, unread. *)
Lemma lock_step_wrapped :
  exists pg0 pg s,
    NewWordGen cfg_ab_len65 = Ok pg0 /\ reachable pg0 pg /\
    running pg = true /\ bufSize pg = 1 /\
    bufR pg = 2 ^ 64 - 1 /\ bufW pg = 0 /\
    length s = 65%nat /\ buf pg = [word_of (charset pg) s].
Proof.
  assert (Hnew : NewWordGen cfg_ab_len65 = Ok (fresh_engine (effective cfg_ab_len65)))
    by (vm_compute; reflexivity).
  set (pg0 := fresh_engine (effective cfg_ab_len65)) in *.
  exists pg0.
  destruct (fresh_engine_buffer_ok _ _ Hnew) as [Hok0 _].
  assert (HR : charsetLen pg0 = 2) by reflexivity.
  assert (Hlo : Z.to_nat (MinLen (config pg0)) = 65%nat) by reflexivity.
  assert (Hhi : Z.to_nat (MaxLen (config pg0)) = 65%nat) by reflexivity.
  assert (Hsz : bufSize pg0 = 1) by reflexivity.
  assert (Hmk : bufMask pg0 = 0) by reflexivity.
  pose proof (enumeration_from_chain 2 ltac:(lia) 65 0 65 ltac:(lia)) as (Hchain & _ & _).
  pose proof (enumeration_from_length 2 ltac:(lia) 65 1) as Hlen.
  change (foldr Z.add 0 ((fun L => 2 ^ Z.of_nat L) <$> seq 65 1)) with (2 ^ 65) in Hlen.
  set (E := enumeration_from 2 65 1) in *.
  pose (n := Z.to_nat (2 ^ 64 - 1)).
  assert (Hn : Z.of_nat n = 2 ^ 64 - 1) by (subst n; lia).
  clearbody n.
  destruct (lookup_lt_is_Some_2 E n ltac:(lia)) as [s0 Hs0].
  destruct (lookup_lt_is_Some_2 E (S n) ltac:(lia)) as [s1 Hs1].
  destruct (lock_step_reachable cfg_ab_len65 pg0 1 n Hnew eq_refl ltac:(lia) s0 ltac:(lia))
    as (pg & Hreach & HbR & HbW & Hrun & Hc & Hst).
  { rewrite HR, Hlo, Hhi. exact Hs0. }
  pose proof (reachable_buffer_ok _ _ _ Hok0 Hreach) as Hok.
  pose proof (static_fields _ _ Hst) as (Hcfg' & _ & HR' & Hsz' & Hmk' & _).
  destruct (runGenerator_iter_counter pg s0 Hc Hok Hrun) as (pg2 & Hf & Hiter).
  { rewrite HbR, HbW, Z.sub_diag, Hsz', Hsz. rewrite wrap64_small; lia. }
  rewrite HR', Hcfg', HR, Hhi in Hiter.
  rewrite (chain_lookup _ _ _ _ _ Hchain Hs0 Hs1) in Hiter.
  destruct Hiter as [Hiter _]. frame_fields Hf.
  assert (Hlen0 : length s0 = 65%nat).
  { assert (Hin : s0 ∈ enumeration_from 2 65 1)
      by (eapply list_elem_of_lookup_2; exact Hs0).
    apply enumeration_from_elem in Hin as [Hl _]; lia. }
  exists pg2, s0.
  split; [assumption|]. split; [|split; [congruence|split; [congruence|]]].
  - eapply reachable_next; [exact Hreach|exact I|].
    apply step_produce. rewrite Hiter. reflexivity.
  - split; [congruence|]. split.
    + replace (bufW pg2) with (wrap64 (bufW pg + 1)) by congruence.
      rewrite HbW, Hn. reflexivity.
    + split; [assumption|].
      replace (buf pg2) with
        (<[Z.to_nat (Z.land (bufW pg) (bufMask pg)) := word_of (charset pg) s0]> (buf pg))
        by congruence.
      replace (charset pg2) with (charset pg) by congruence.
      destruct Hok as [_ _ _ Hl _ _]. rewrite Hsz', Hsz in Hl.
      rewrite Hmk', Hmk, Z.land_0_r.
      destruct (buf pg) as [|x [|y l]]; cbn [length] in Hl; [lia|reflexivity|lia].
Qed.

(** C7 (as stated) fails once the write cursor has wrapped.  On the
    engine of [2^65] words and capacity 1, after the write of slot number
    [2^64 - 1], the occupancy the producer computes is 1 and the word
    written last sits unread in the slot the read cursor selects; but
    [bufR >= bufW], so that [Next] does not return it: it waits, and once
    the engine is stopped it returns the end-of-sequence marker. *)
Lemma Next_misses_word_after_wrap :
  exists pg0 pg w,
    NewWordGen cfg_ab_len65 = Ok pg0 /\ reachable pg0 pg /\
    wrap64 (bufW pg - bufR pg) = 1 /\
    buf pg !! Z.to_nat (Z.land (bufR pg) (bufSize pg - 1)) = Some w /\
    length w = 65%nat /\
    Next pg = NextWait pg /\
    wrap64 (bufW (Stop pg) - bufR (Stop pg)) = 1 /\
    Next (Stop pg) = NextEOF (Stop pg).
Proof.
  destruct lock_step_wrapped
    as (pg0 & pg & s & Hnew & Hreach & Hrun & Hsz & HR & HW & Hlen & Hbuf).
  exists pg0, pg, (word_of (charset pg) s).
  split; [assumption|]. split; [assumption|].
  assert (Hocc : wrap64 (bufW pg - bufR pg) = 1) by (rewrite HW, HR; reflexivity).
  split; [exact Hocc|]. split; [|split; [|split; [|split]]].
  - rewrite Hsz, Hbuf. change (1 - 1) with 0. rewrite Z.land_0_r. reflexivity.
  - unfold word_of. rewrite length_fmap. exact Hlen.
  - unfold Next. rewrite HW, HR, Hrun. reflexivity.
  - exact Hocc.
  - unfold Next, Stop. cbn [bufR bufW running with_running]. rewrite HW, HR. reflexivity.
Qed.

(** ** Exhaustion *)

(** The call of [nextState] behind the outcome of an iteration. *)
Lemma runGenerator_iter_nextState pg pg' :
  (runGenerator_iter pg = IterDone pg' ->
   exists pg1, state pg1 = state pg /\ stateLen pg1 = stateLen pg /\
     charsetLen pg1 = charsetLen pg /\ charset pg1 = charset pg /\
     config pg1 = config pg /\ nextState pg1 = Exhausted pg') /\
  (runGenerator_iter pg = IterWrote pg' ->
   exists pg1, state pg1 = state pg /\ stateLen pg1 = stateLen pg /\
     charsetLen pg1 = charsetLen pg /\ charset pg1 = charset pg /\
     config pg1 = config pg /\ nextState pg1 = Advanced pg').
Proof.
  unfold runGenerator_iter.
  destruct (negb (running pg)); [split; discriminate|].
  destruct (_ >=? _); [split; discriminate|].
  destruct (buf pg !! _); [|split; discriminate].
  destruct (encode pg); [|split; discriminate].
  split; intros E; destruct (nextState _) eqn:N; try discriminate;
    injection E as <-;
    match type of N with nextState ?p = _ => exists p end;
    repeat split; exact N.
Qed.

(** C5 (as amended).  On a valid counter [nextState] returns [io.EOF]
    exactly when the carry would push the length past [MaxLen], that is
    when every digit is [R - 1] and the length is [MaxLen]; it then
    leaves all digits zero and [stateLen = MaxLen + 1], outside the valid
    counters, and the iteration of [runGenerator] that got [io.EOF] is
    the one that returns.  Otherwise the counter moves to the successor
    and the loop continues. *)
Theorem nextState_exhausted pg ds :
  counter_at pg ds ->
  ((exists pg', nextState pg = Exhausted pg') <->
   ds = replicate (Z.to_nat (MaxLen (config pg))) (charsetLen pg - 1)) /\
  (forall pg', nextState pg = Exhausted pg' ->
     frame pg' = frame pg /\ state pg' = replicate (length ds) 0 /\
     stateLen pg' = MaxLen (config pg) + 1 /\
     forall ds', ¬ counter_at pg' ds') /\
  (forall pg', nextState pg = Advanced pg' ->
     exists ds',
       next_digits (charsetLen pg) (Z.to_nat (MaxLen (config pg))) ds = Some ds' /\
       counter_at pg' ds') /\
  (forall pg', runGenerator_iter pg = IterDone pg' ->
     ds = replicate (Z.to_nat (MaxLen (config pg))) (charsetLen pg - 1)) /\
  (forall pg', runGenerator_iter pg = IterWrote pg' ->
     ds <> replicate (Z.to_nat (MaxLen (config pg))) (charsetLen pg - 1)).
Proof.
  intros Hc. pose proof Hc as [Hst Hlen Hv Hb Hr [Hpos Hs] Ha].
  pose proof (nextState_next_digits pg ds Hc) as Hnext.
  pose proof (next_digits_None (charsetLen pg) (Z.to_nat (MaxLen (config pg))) ds
                Hv ltac:(lia)) as Hnone.
  split; [|split; [|split; [|split]]].
  - rewrite <- Hnone. destruct (next_digits _ _ ds) as [ds'|].
    + destruct Hnext as (pg' & Hrun & _). rewrite Hrun.
      split; [intros [? ?]; discriminate|discriminate].
    + destruct Hnext as (pg' & Hrun & _). rewrite Hrun. split; eauto.
  - intros pg' Hrun. destruct (next_digits _ _ ds) as [ds'|].
    + destruct Hnext as (? & Hrun' & _). congruence.
    + destruct Hnext as (pg'' & Hrun' & Hf & Hst' & Hlen').
      assert (pg'' = pg') by congruence. subst pg''.
      repeat (split; [assumption|]).
      intros ds' [_ Hl' _ Hb' _ _ _]. frame_fields Hf.
      replace (config pg') with (config pg) in Hb' by congruence. lia.
  - intros pg' Hrun. destruct (next_digits _ _ ds) as [ds'|].
    + destruct Hnext as (pg'' & Hrun' & Hc'). exists ds'.
      split; [reflexivity|]. congruence.
    + destruct Hnext as (? & Hrun' & _). congruence.
  - intros pg' Hr'.
    destruct (runGenerator_iter_nextState pg pg') as [HD _].
    destruct (HD Hr') as (pg1 & E1 & E2 & HR1 & E4 & Hcfg1 & HD1).
    pose proof (counter_at_same_counter pg pg1 ds Hc E1 E2 HR1 E4 Hcfg1) as Hc1.
    pose proof (nextState_next_digits pg1 ds Hc1) as Hnext1.
    rewrite HR1, Hcfg1 in Hnext1. apply Hnone.
    destruct (next_digits _ _ ds); [|reflexivity].
    destruct Hnext1 as (? & ? & _). congruence.
  - intros pg' Hr' Heq.
    destruct (runGenerator_iter_nextState pg pg') as [_ HW].
    destruct (HW Hr') as (pg1 & E1 & E2 & HR1 & E4 & Hcfg1 & HW1).
    pose proof (counter_at_same_counter pg pg1 ds Hc E1 E2 HR1 E4 Hcfg1) as Hc1.
    pose proof (nextState_next_digits pg1 ds Hc1) as Hnext1.
    rewrite HR1, Hcfg1 in Hnext1. apply Hnone in Heq. rewrite Heq in Hnext1.
    destruct Hnext1 as (? & ? & _). congruence.
Qed.

(** C5 (as stated) fails: [io.EOF] is not repeated.  With charset "ab"
    and [MinLen = MaxLen = 1] the counter goes from "a" to "b", then
    [nextState] returns [io.EOF], and one more call returns [nil]. *)
Lemma exhausted_not_idempotent :
  exists pg0 pg1 pg2 pg3 pg4,
    NewWordGen cfg_ab_len1 = Ok pg0 /\ Run 1 pg0 = Ok pg1 /\
    nextState pg1 = Advanced pg2 /\ nextState pg2 = Exhausted pg3 /\
    nextState pg3 = Advanced pg4.
Proof. do 5 eexists. repeat split; vm_compute; reflexivity. Qed.

(** ** The examples of the specification *)

(** C2.  The slot written for a counter at digits [d] is
    [symbol(d[0]) ... symbol(d[L-1])], in index order; for charset "abc",
    [MinLen = 1], [MaxLen = 2] the counter goes through a, b, c, aa, ba,
    ca, ab, bb, cb, ac, bc, cc and then reports exhaustion, and a
    consumer calling
    [Next] gets these twelve words and then [io.EOF], whether the
    producer runs one slot or a full buffer ahead. *)
Theorem abc_sequence :
  (forall pg ds, counter_at pg ds ->
     encode pg = Some ((fun d => charset pg !!! Z.to_nat d) <$> ds)) /\
  exists pg0 pg,
    NewWordGen cfg_abc = Ok pg0 /\ Run 1 pg0 = Ok pg /\
    length abc_words = 12%nat /\
    (forall fuel, (12 <= fuel)%nat -> emitted fuel pg = Some abc_words) /\
    (exists pg', consume 13 0 2 true pg = Some (abc_words, pg') /\
       running pg' = false) /\
    (exists pg', consume 13 20 2 true pg = Some (abc_words, pg') /\
       running pg' = false).
Proof.
  split; [exact encode_word|].
  do 2 eexists. split; [vm_compute; reflexivity|].
  split; [vm_compute; reflexivity|]. split; [reflexivity|].
  split; [|split].
  - intros fuel Hfuel. apply (emitted_more 12); [vm_compute; reflexivity|assumption].
  - eexists. split; vm_compute; reflexivity.
  - eexists. split; vm_compute; reflexivity.
Qed.

Lemma abc_sequence_witness :
  exists pg0 pg,
    NewWordGen cfg_abc = Ok pg0 /\ Run 1 pg0 = Ok pg /\
    encode pg = Some (bytes "a").
Proof.
  destruct abc_sequence as [Hencode _].
  destruct (Run_fresh cfg_abc _ 1 ltac:(vm_compute; reflexivity))
    as (pg & Hrun & Hc & _).
  do 2 eexists. split; [vm_compute; reflexivity|]. split; [exact Hrun|].
  rewrite (Hencode pg _ Hc).
  vm_compute in Hrun. injection Hrun as <-. reflexivity.
Defined.

(** ** Instances *)

Lemma nextState_exhausted_witness :
  exists pg0 pg1 pg2,
    NewWordGen cfg_ab_len1 = Ok pg0 /\ Run 1 pg0 = Ok pg1 /\
    nextState pg1 = Advanced pg2 /\
    ((exists pg3, nextState pg2 = Exhausted pg3) <-> [1] = replicate 1 (2 - 1)).
Proof.
  do 3 eexists. split; [vm_compute; reflexivity|].
  split; [vm_compute; reflexivity|]. split; [vm_compute; reflexivity|].
  match goal with |- (exists _, nextState ?p = _) <-> _ =>
    apply (nextState_exhausted p [1]) end.
  constructor; try reflexivity; vm_compute; try discriminate;
    repeat constructor; discriminate.
Defined.

(** A first run of the two-word configuration, up to the end of the
    producer. *)
Lemma ab_len1_first_run :
  exists pg0 pg1 pg2 pg3 pg4,
    NewWordGen cfg_ab_len1 = Ok pg0 /\ Run 1 pg0 = Ok pg1 /\
    runGenerator_iter pg1 = IterWrote pg2 /\
    Next pg2 = NextWord (bytes "a") pg3 /\
    runGenerator_iter pg3 = IterDone pg4 /\
    generated pg4 = 2 /\ initialState pg4 = initialState pg0.
Proof.
  do 5 eexists.
  split; [vm_compute; reflexivity|]. split; [vm_compute; reflexivity|].
  split; [vm_compute; reflexivity|]. split; [vm_compute; reflexivity|].
  split; [vm_compute; reflexivity|]. split; vm_compute; reflexivity.
Qed.

Lemma restart_keeps_generated_witness :
  exists pg0 pg1 pg2 pg3 pg4 pg5,
    NewWordGen cfg_ab_len1 = Ok pg0 /\ Run 1 pg0 = Ok pg1 /\
    runGenerator_iter pg1 = IterWrote pg2 /\
    Next pg2 = NextWord (bytes "a") pg3 /\
    runGenerator_iter pg3 = IterDone pg4 /\
    generated (producer_exit 5 pg4) = 2 /\
    Run 7 (producer_exit 5 pg4) = Ok pg5 /\
    generated pg5 = 2 /\ bufW pg5 = 0 /\ state pg5 = initialState pg0.
Proof.
  destruct ab_len1_first_run
    as (pg0 & pg1 & pg2 & pg3 & pg4 & Hnew & H1 & H2 & H3 & H4 & Hg & Hi).
  assert (Hreach : reachable pg0 (producer_exit 5 pg4)).
  { eapply reachable_next; [|exact I|apply (step_producer_exit 5)].
    eapply reachable_next; [|exact I|apply step_produce; rewrite H4; reflexivity].
    eapply reachable_next; [|exact I|apply step_Next; rewrite H3; reflexivity].
    eapply reachable_next; [|exact I|apply step_produce; rewrite H2; reflexivity].
    eapply reachable_next; [apply reachable_start|exact I|].
    apply (step_Run 1). exact H1. }
  destruct (restart_keeps_generated cfg_ab_len1 pg0 _ 7 Hnew Hreach eq_refl)
    as (pg' & Hrun & Hst & _ & _ & HW & _ & _ & Hgen & _).
  exists pg0, pg1, pg2, pg3, pg4, pg'.
  split; [exact Hnew|]. split; [exact H1|]. split; [exact H2|].
  split; [exact H3|]. split; [exact H4|]. split; [exact Hg|].
  split; [exact Hrun|]. split; [rewrite Hgen; exact Hg|].
  split; [exact HW|]. rewrite Hst. exact Hi.
Defined.

(** ** Delivery through the buffer *)



(** ** The states of a run *)

Lemma chain_next {A : Type} (f : A -> option A) (l : list A) n x :
  chain f l -> (forall z, last l = Some z -> f z = None) ->
  l !! n = Some x ->
  match f x with
  | Some y => l !! S n = Some y
  | None => S n = length l
  end.
Proof.
  intros Hchain Hlast Hx.
  destruct (l !! S n) as [y|] eqn:Hy.
  - rewrite (chain_lookup f l n x y Hchain Hx Hy). reflexivity.
  - apply lookup_ge_None in Hy. apply lookup_lt_Some in Hx as Hlt.
    assert (Hn : S n = length l) by lia.
    rewrite (Hlast x); [assumption|].
    rewrite last_lookup. rewrite <- Hn. exact Hx.
Qed.

(** The states a run visits from the initial digits on: a chain of
    successors that ends where the counter is exhausted, no longer than
    the whole enumeration. *)
Lemma run_states cfg pg0 :
  NewWordGen cfg = Ok pg0 ->
  exists E,
    head E = Some (initialState pg0) /\
    chain (next_digits (charsetLen pg0) (Z.to_nat (MaxLen (config pg0)))) E /\
    (forall z, last E = Some z ->
       next_digits (charsetLen pg0) (Z.to_nat (MaxLen (config pg0))) z = None) /\
    (0 <= MinLen cfg ->
     Z.of_nat (length E)
     <= sum_powers (charsetLen pg0) (Z.to_nat (MinLen (config pg0)))
          (Z.to_nat (MaxLen (config pg0)))).
Proof.
  intros Hnew. pose proof (NewWordGen_Ok _ _ Hnew) as (Hacc & -> & _).
  pose proof (accepted_initial_digits _ Hacc) as (Hhi & Hlo & Hv).
  destruct Hacc as [Hle [Hmax Halloc] Hne Hnd _].
  cbn [fresh_engine initialState charsetLen config].
  set (c := effective cfg) in *.
  set (R := Z.of_nat (length (Charset c))).
  set (lo := Z.to_nat (MinLen c)). set (hi := Z.to_nat (MaxLen c)).
  assert (Hpos : 0 < R) by (subst R; destruct (Charset c); [congruence|simpl length; lia]).
  assert (Hlohi : (lo <= hi)%nat) by (subst lo hi; lia).
  destruct (enumeration_from_chain R Hpos hi (hi - lo) lo ltac:(lia))
    as (Hchain & _ & Hlast).
  pose proof (enumeration_from_length R Hpos lo (S (hi - lo))) as Hlen.
  destruct (Z.le_gt_cases 0 (MinLen c)) as [Hmin|Hmin].
  - assert (Hin : initial_digits c ∈ enumeration_from R lo (S (hi - lo))).
    { apply enumeration_from_elem. split; [|exact Hv]. subst lo hi. lia. }
    apply list_elem_of_split in Hin as (l1 & l2 & Henum).
    exists (initial_digits c :: l2). rewrite Henum in *.
    split; [reflexivity|]. split; [eapply chain_suffix; eassumption|]. split.
    + intros z Hz. rewrite last_app, Hz in Hlast. injection Hlast as ->.
      apply next_digits_None; [apply Forall_replicate; lia|rewrite length_replicate; lia|].
      f_equal. lia.
    + intros _. unfold sum_powers.
      replace (S hi - lo)%nat with (S (hi - lo)) by lia.
      rewrite <- Hlen, length_app. lia.
  - (* a negative [MinLen] does not occur for a [uint]; the run is then
       the whole enumeration from length 0 *)
    assert (Hin : initial_digits c ∈ enumeration_from R 0 (S hi)).
    { apply enumeration_from_elem. split; [|exact Hv]. subst hi. lia. }
    destruct (enumeration_from_chain R Hpos hi hi 0%nat ltac:(lia))
      as (Hchain0 & _ & Hlast0).
    apply list_elem_of_split in Hin as (l1 & l2 & Henum).
    exists (initial_digits c :: l2). rewrite Henum in *.
    split; [reflexivity|]. split; [eapply chain_suffix; eassumption|]. split.
    + intros z Hz. rewrite last_app, Hz in Hlast0. injection Hlast0 as ->.
      apply next_digits_None; [apply Forall_replicate; lia|rewrite length_replicate; lia|].
      reflexivity.
    + intros Hcfg. exfalso. change (MinLen c) with (MinLen (apply_defaults cfg)) in Hmin.
      unfold apply_defaults in Hmin. cbn [MinLen] in Hmin.
      destruct (MinLen cfg =? 0); unfold defaultMinLen in Hmin; lia.
Qed.

Lemma position_same E pg pg' :
  (running pg = false -> running pg' = false) ->
  state pg' = state pg -> stateLen pg' = stateLen pg ->
  charsetLen pg' = charsetLen pg -> charset pg' = charset pg ->
  config pg' = config pg -> bufW pg' = bufW pg ->
  position E pg -> position E pg'.
Proof.
  intros Hrun Hs Hl Hcl Hc Hcfg HW [[Hr H0]|[(n & s & Hn & Hat & Hw)|[Hw Hend]]].
  - left. split; [auto|congruence].
  - right; left. exists n, s. split; [assumption|]. split; [|congruence].
    eapply counter_at_same_counter; eauto.
  - right; right. split; congruence.
Qed.

(** * Further properties *)

(** ** More on the capacity *)

(** Above [2^63] the shift [1 << bits.Len64(n)] overflows to 0. *)
Lemma roundToNearestPowerOfTwo_overflow n :
  2 ^ 63 < n < 2 ^ 64 -> roundToNearestPowerOfTwo n = 0.
Proof.
  intros Hn. unfold roundToNearestPowerOfTwo.
  destruct (Z.eqb_spec n 0) as [|_]; [lia|].
  rewrite (wrap64_small (n - 1)) by lia.
  assert (Hlog : Z.log2 n = 63).
  { apply Z.log2_unique; lia. }
  destruct (Z.eqb_spec (Z.land n (n - 1)) 0) as [Hland|_].
  { apply land_pred_zero_power in Hland; [|lia]. rewrite Hlog in Hland. lia. }
  assert (Hnext : shl64 1 (Len64 n) = 0).
  { unfold shl64, Len64. destruct (Z.eqb_spec n 0); [lia|].
    rewrite Hlog. reflexivity. }
  cbv zeta. rewrite Hnext. change (Z.shiftr 0 1) with 0.
  rewrite Z.sub_0_r, (wrap64_small n) by lia.
  replace (wrap64 (0 - n)) with (2 ^ 64 - n).
  - destruct (Z.ltb_spec n (2 ^ 64 - n)); [lia|reflexivity].
  - unfold wrap64. apply Z.mod_unique with (q := -1); lia.
Qed.

Theorem roundToNearestPowerOfTwo_zero_iff n :
  0 <= n < 2 ^ 64 -> (roundToNearestPowerOfTwo n = 0 <-> 2 ^ 63 < n).
Proof.
  intros Hn. split.
  - intros H0. destruct (Z.le_gt_cases n (2 ^ 63)) as [Hle|Hgt]; [|lia].
    destruct (Z.eq_dec n 0) as [->|Hne]; [discriminate H0|].
    pose proof (roundToNearestPowerOfTwo_nearest n ltac:(lia)) as (_ & Hlow & _). lia.
  - intros Hgt. apply roundToNearestPowerOfTwo_overflow. lia.
Qed.

Lemma roundToNearestPowerOfTwo_zero_iff_witness :
  (roundToNearestPowerOfTwo (2 ^ 63 + 1) = 0 <-> 2 ^ 63 < 2 ^ 63 + 1).
Proof. apply roundToNearestPowerOfTwo_zero_iff. lia. Defined.

Lemma pow2_lt_double a b : 0 <= a -> 0 <= b -> 2 ^ a < 2 ^ b -> 2 * 2 ^ a <= 2 ^ b.
Proof.
  intros Ha Hb Hlt. assert (a < b).
  { destruct (Z.lt_ge_cases a b); [assumption|].
    pose proof (pow2_le_mono b a ltac:(lia)). lia. }
  replace (2 * 2 ^ a) with (2 ^ (a + 1)) by (rewrite Z.pow_add_r by lia; lia).
  apply pow2_le_mono. lia.
Qed.

(** A larger request never gets a smaller buffer. *)
Theorem roundToNearestPowerOfTwo_monotone n m :
  0 <= n <= m -> m <= 2 ^ 63 ->
  roundToNearestPowerOfTwo n <= roundToNearestPowerOfTwo m.
Proof.
  intros Hnm Hm.
  destruct (Z.eq_dec m 0) as [->|Hm0].
  { replace n with 0 by lia. reflexivity. }
  pose proof (roundToNearestPowerOfTwo_nearest m ltac:(lia))
    as (((b & Hb & Eb) & Hnear_m & Htie_m) & Hlo_m & Hhi_m).
  destruct (Z.eq_dec n 0) as [->|Hn0].
  { change (roundToNearestPowerOfTwo 0) with 1.
    rewrite Eb. pose proof (pow2_le_mono 0 b ltac:(lia)). lia. }
  pose proof (roundToNearestPowerOfTwo_nearest n ltac:(lia))
    as (((a & Ha & Ea) & Hnear_n & Htie_n) & Hlo_n & Hhi_n).
  destruct (Z.le_gt_cases (roundToNearestPowerOfTwo n) (roundToNearestPowerOfTwo m))
    as [|Hgt]; [assumption|exfalso].
  rewrite Ea, Eb in *.
  pose proof (pow2_lt_double b a Hb Ha Hgt) as Hdbl.
  specialize (Hnear_n b Hb). specialize (Hnear_m a Ha). specialize (Htie_m a Ha).
  lia.
Qed.

Lemma roundToNearestPowerOfTwo_monotone_witness :
  roundToNearestPowerOfTwo 5 <= roundToNearestPowerOfTwo 6.
Proof. apply roundToNearestPowerOfTwo_monotone; lia. Defined.

(** ** The run of an engine *)

Lemma from_first_split x l1 l2 :
  x ∉ l1 -> from_first x (l1 ++ x :: l2) = x :: l2.
Proof.
  induction l1 as [|y l1 IH]; intros Hnot; simpl.
  - rewrite decide_True by reflexivity. reflexivity.
  - rewrite decide_False by (intros ->; apply Hnot; left).
    apply IH. intros Hin. apply Hnot. right. exact Hin.
Qed.

(** The run of a fresh engine is a suffix of the enumeration of the
    lengths [MinLen .. MaxLen]: it starts at the initial state, follows
    [next_digits] and ends where [next_digits] has no successor. *)
Lemma run_sequence_spec cfg pg0 :
  NewWordGen cfg = Ok pg0 ->
  exists before,
    enumeration (charsetLen pg0) (Z.to_nat (MinLen (config pg0)))
      (Z.to_nat (MaxLen (config pg0))) = before ++ run_sequence pg0 /\
    head (run_sequence pg0) = Some (initialState pg0) /\
    chain (next_digits (charsetLen pg0) (Z.to_nat (MaxLen (config pg0))))
      (run_sequence pg0) /\
    (forall z, last (run_sequence pg0) = Some z ->
       next_digits (charsetLen pg0) (Z.to_nat (MaxLen (config pg0))) z = None) /\
    Z.of_nat (length (run_sequence pg0)) <= total_words pg0 /\
    (InitialState cfg = [] -> 0 <= MinLen cfg -> before = []).
Proof.
  intros Hnew. pose proof (NewWordGen_Ok _ _ Hnew) as (Hacc & -> & _).
  pose proof (accepted_initial_digits _ Hacc) as (Hhi & Hlo & Hv).
  destruct Hacc as [Hle [Hmax Halloc] Hne Hnd _].
  unfold run_sequence, total_words.
  cbn [fresh_engine initialState charsetLen config].
  set (c := effective cfg) in *.
  set (R := Z.of_nat (length (Charset c))).
  set (lo := Z.to_nat (MinLen c)). set (hi := Z.to_nat (MaxLen c)).
  assert (Hpos : 0 < R) by (subst R; destruct (Charset c); [congruence|simpl length; lia]).
  assert (Hlohi : (lo <= hi)%nat) by (subst lo hi; lia).
  unfold enumeration.
  replace (S hi - lo)%nat with (S (hi - lo)) by lia.
  destruct (enumeration_from_chain R Hpos hi (hi - lo) lo ltac:(lia))
    as (Hchain & Hhead & Hlast).
  pose proof (enumeration_from_length R Hpos lo (S (hi - lo))) as Hlen.
  pose proof (enumeration_from_NoDup R Hpos lo (S (hi - lo))) as Hnodup.
  assert (Hin : initial_digits c ∈ enumeration_from R lo (S (hi - lo))).
  { apply enumeration_from_elem. split; [|exact Hv].
    destruct (Z.le_gt_cases 0 (MinLen c)); subst lo hi; lia. }
  apply list_elem_of_split in Hin as (l1 & l2 & Henum).
  rewrite Henum in *.
  assert (Hnot : initial_digits c ∉ l1).
  { apply NoDup_app in Hnodup as (_ & Hdisj & _).
    intros Hin. apply (Hdisj _ Hin). left. }
  rewrite (from_first_split _ _ _ Hnot).
  exists l1. split; [reflexivity|]. split; [reflexivity|].
  split; [eapply chain_suffix; eassumption|]. split; [|split].
  - intros z Hz. rewrite last_app, Hz in Hlast. injection Hlast as ->.
    apply next_digits_None; [apply Forall_replicate; lia|rewrite length_replicate; lia|].
    f_equal. lia.
  - unfold sum_powers. replace (S hi - lo)%nat with (S (hi - lo)) by lia.
    rewrite <- Hlen, length_app. lia.
  - intros Hnil Hmin. destruct l1 as [|x l1]; [reflexivity|exfalso].
    injection Hhead as ->. apply Hnot.
    assert (Hi : InitialState c = []) by exact Hnil.
    unfold initial_digits. rewrite Hi. left.
Qed.

(** ** The capacity as a mask *)

(** The capacity of an engine is a power of two, or 0 when the request
    lies above [2^63]. *)
Lemma capacity_shape cfg pg0 :
  NewWordGen cfg = Ok pg0 -> BufferSize cfg < 2 ^ 64 ->
  (bufSize pg0 = 0 /\ 2 ^ 63 < BufferSize cfg) \/
  (exists k, 0 <= k /\ bufSize pg0 = 2 ^ k /\ bufMask pg0 = Z.ones k /\
             BufferSize cfg <= 2 ^ 63).
Proof.
  intros Hnew Hrange. pose proof (NewWordGen_Ok _ _ Hnew) as (_ & -> & Hmk).
  cbn [fresh_engine bufSize bufMask effective BufferSize apply_defaults] in *.
  apply make_ok_true in Hmk.
  set (n := Z.max 1 (BufferSize cfg)) in *.
  destruct (Z.le_gt_cases n (2 ^ 63)) as [Hle|Hgt].
  - right.
    pose proof (roundToNearestPowerOfTwo_nearest n ltac:(lia))
      as (((k & Hk & Ek) & _) & _).
    exists k. split; [assumption|]. split; [assumption|]. split; [|lia].
    rewrite Ek, Z.ones_equiv. apply wrap64_small.
    assert (0 < 2 ^ k) by (apply Z.pow_pos_nonneg; lia).
    unfold maxAlloc, sizeof_slice in Hmk. rewrite Ek in Hmk. lia.
  - left. split; [|lia]. apply roundToNearestPowerOfTwo_overflow. lia.
Qed.

Lemma mod_shift_ne k d m : 0 < d < m -> (k + d) mod m <> k mod m.
Proof.
  intros Hd Heq.
  assert (H0 : ((k + d) - k) mod m = 0).
  { rewrite Zminus_mod, Heq, Z.sub_diag. apply Z.mod_0_l. lia. }
  replace (k + d - k) with d in H0 by lia.
  rewrite Z.mod_small in H0; lia.
Qed.

(** An engine of capacity 0 never moves. *)
Lemma zero_capacity_idle cfg pg0 pg :
  NewWordGen cfg = Ok pg0 -> 2 ^ 63 < BufferSize cfg < 2 ^ 64 ->
  reachable pg0 pg ->
  bufSize pg = 0 /\ bufW pg = 0 /\ bufR pg = 0 /\ generated pg = 0.
Proof.
  intros Hnew Hbuf Hreach.
  destruct (fresh_engine_buffer_ok _ _ Hnew) as [Hok0 _].
  assert (Hsz0 : forall p, reachable pg0 p -> bufSize p = 0).
  { intros p Hp. pose proof (reachable_static _ _ _ Hok0 Hp) as Hst.
    apply static_fields in Hst as (_ & _ & _ & Hsz & _).
    destruct (capacity_shape _ _ Hnew ltac:(lia)) as [[Hz _]|(k & _ & _ & _ & Hle)];
      [congruence|lia]. }
  split; [auto|].
  induction Hreach as [|a pg pg' Hr IH _ Hstep].
  { apply NewWordGen_Ok in Hnew as (_ & -> & _). repeat split. }
  destruct IH as (HW & HR & Hgen). pose proof (Hsz0 _ Hr) as Hz.
  destruct Hstep as [now pg pg' H| | |pg pg' H| |pg pg' H|pg pg' H
                    |words pg pg' H|i count words pg pg' H].
  - unfold Run in H. destruct (running pg); [discriminate|].
    destruct (negb _); [discriminate|]. injection H as <-. repeat split. assumption.
  - repeat split; assumption.
  - repeat split; assumption.
  - apply runGenerator_iter_idle in H as [->|H]; [repeat split; assumption|].
    apply runGenerator_iter_writes in H as (_ & Hgate & _).
    pose proof (wrap64_range (bufW pg - bufR pg)). lia.
  - repeat split; assumption.
  - apply Next_post in H as [->|[Hlt _]]; [repeat split; assumption|lia].
  - apply Next_wake_post in H as [->|[Hlt _]]; [repeat split; assumption|lia].
  - apply Batch_from_empty in H as ->; [repeat split; assumption|lia].
  - apply Batch_from_empty in H as ->; [repeat split; assumption|lia].
Qed.

(** ** Delivery in order *)

(** After [io.EOF] the slot cannot be resliced to [stateLen]. *)
Lemma encode_exhausted pg :
  stateLen pg = MaxLen (config pg) + 1 -> 0 <= MaxLen (config pg) < 2 ^ 63 - 1 ->
  encode pg = None.
Proof.
  intros Hend Hmax. unfold encode. rewrite Hend.
  rewrite to_int_small by lia.
  destruct (Z.gtb_spec (MaxLen (config pg) + 1) (MaxLen (config pg))); [|lia].
  rewrite orb_true_r. reflexivity.
Qed.

Lemma slots_ok_same E pg pg' :
  buf pg' = buf pg -> bufMask pg' = bufMask pg -> charset pg' = charset pg ->
  bufW pg' = bufW pg -> bufR pg <= bufR pg' ->
  slots_ok E pg -> slots_ok E pg'.
Proof.
  intros Hb Hm Hc HW HR Hs k Hk. rewrite Hb, Hm, Hc. apply Hs. lia.
Qed.

(** A step changes nothing, or is taken below the wrap of the write
    cursor, or is the write of slot number [2^64 - 1]. *)
Lemma step_cases a pg pg' :
  step a pg pg' ->
  pg' = pg \/ no_wrap a pg \/
  (a = AProduce /\ 2 ^ 64 <= bufW pg + 1 /\
   (runGenerator_iter pg = IterWrote pg' \/ runGenerator_iter pg = IterDone pg')).
Proof.
  intros Hstep.
  destruct Hstep as [now pg pg' H| | |pg pg' H| |pg pg' H|pg pg' H
                    |words pg pg' H|i count words pg pg' H];
    try solve [right; left; intros [=]].
  apply runGenerator_iter_idle in H as [->|H]; [left; reflexivity|].
  destruct (Z.lt_ge_cases (bufW pg + 1) (2 ^ 64)) as [Hlt|Hge].
  - right; left. intros _. exact Hlt.
  - right; right. split; [reflexivity|]. split; [lia|exact H].
Qed.

(** The producer writes only from a valid counter that stands at the
    position of the write cursor. *)
Lemma write_at_position E pg pg' :
  position E pg -> 0 <= MaxLen (config pg) < 2 ^ 63 - 1 ->
  runGenerator_iter pg = IterWrote pg' \/ runGenerator_iter pg = IterDone pg' ->
  exists s, E !! Z.to_nat (bufW pg) = Some s /\ counter_at pg s.
Proof.
  intros Hpos Hmax H.
  apply runGenerator_iter_writes in H as (Hrun & _ & w & Henc & _).
  destruct Hpos as [[Hf _]|[(n & s & Hn & Hat & Hw)|[_ Hend]]].
  - congruence.
  - exists s. rewrite Hw, Nat2Z.id. split; assumption.
  - rewrite encode_exhausted in Henc by assumption. discriminate.
Qed.

Section InOrder.

Variables (cfg : Config) (pg0 : WordGen) (E : list (list Z)).
Hypothesis Hnew : NewWordGen cfg = Ok pg0.
Hypothesis Hbuf : BufferSize cfg < 2 ^ 64.
Hypothesis Hhead : head E = Some (initialState pg0).
Hypothesis Hchain :
  chain (next_digits (charsetLen pg0) (Z.to_nat (MaxLen (config pg0)))) E.
Hypothesis Hlast :
  forall z, last E = Some z ->
    next_digits (charsetLen pg0) (Z.to_nat (MaxLen (config pg0))) z = None.

(** [Run] puts the counter at the head of the run and empties the
    buffer. *)
Lemma Run_in_order now pg pg' :
  static pg = static pg0 -> buffer_ok pg ->
  Run now pg = Ok pg' -> in_order E pg'.
Proof.
  intros Hst Hok H.
  apply static_fields in Hst as (Hcfg & Hcs & Hcl & _ & _ & Hi & _).
  pose proof (NewWordGen_Ok _ _ Hnew) as (Hacc & Hfresh & _).
  pose proof (accepted_initial_digits _ Hacc) as (Hhi & _ & Hv).
  destruct Hacc as [Hle [Hmax Halloc] Hne Hnd _].
  pose proof (NoDup_bytes_length _ Hnd) as H256.
  assert (Hpos : 0 < Z.of_nat (length (Charset (effective cfg)))).
  { destruct (Charset (effective cfg)); [congruence|simpl length; lia]. }
  rewrite Hfresh in Hcfg, Hcs, Hcl, Hi, Hhead.
  cbn [fresh_engine config charset charsetLen initialState] in Hcfg, Hcs, Hcl, Hi, Hhead.
  unfold Run in H. destruct (running pg); [discriminate|].
  destruct (negb _); [discriminate|]. injection H as <-.
  split; [|split].
  - unfold cursors_ok. cbn [bufR bufW bufSize]. destruct Hok as [_ _ [? _] _ _ _]. lia.
  - right; left. exists 0%nat, (initial_digits (effective cfg)).
    split; [destruct E; [discriminate|injection Hhead as ->; reflexivity]|].
    split; [|reflexivity].
    constructor; cbn [state stateLen charsetLen charset config];
      rewrite ?Hi, ?Hcl, ?Hcs, ?Hcfg; try assumption; try reflexivity; lia.
  - intros k Hk. cbn [bufR bufW] in Hk. lia.
Qed.

(** A step below the wrap keeps the counter at the position of the
    write cursor. *)
Lemma step_position a pg pg' :
  static pg = static pg0 -> buffer_ok pg ->
  step a pg pg' -> no_wrap a pg -> position E pg -> position E pg'.
Proof.
  intros Hst Hok Hstep Hnw IH.
  assert (HRun : forall now, Run now pg = Ok pg' -> position E pg')
    by (intros now H; eapply Run_in_order; eassumption).
  apply static_fields in Hst as (Hcfg & Hcs & Hcl & _ & _ & Hi & _).
  pose proof (NewWordGen_Ok _ _ Hnew) as (Hacc & Hfresh & _).
  destruct Hacc as [Hle [Hmax Halloc] Hne Hnd _].
  rewrite Hfresh in Hcfg, Hcs, Hcl, Hi, Hchain, Hlast.
  cbn [fresh_engine config charset charsetLen initialState] in *.
  destruct Hstep as [now pg pg' H| | |pg pg' H| |pg pg' H|pg pg' H
                    |words pg pg' H|i count words pg pg' H].
  - eapply HRun; eassumption.
  - apply (position_same E pg); auto.
  - apply (position_same E pg); auto.
  - apply runGenerator_iter_idle in H as [->|H]; [exact IH|].
    specialize (Hnw eq_refl).
    pose proof (runGenerator_iter_writes _ _ H) as (Hrun & _ & w & Henc & Hf).
    frame_fields Hf.
    assert (HW : 0 <= bufW pg < 2 ^ 64) by apply Hok.
    destruct IH as [[Hr0 _]|[(n & s & Hn & Hat & Hw)|[Hw Hend]]].
    + congruence.
    + assert (Hat1 : forall pg1, state pg1 = state pg -> stateLen pg1 = stateLen pg ->
                charsetLen pg1 = charsetLen pg -> charset pg1 = charset pg ->
                config pg1 = config pg -> counter_at pg1 s)
        by (intros; eapply counter_at_same_counter; eauto).
      pose proof (chain_next _ _ _ _ Hchain Hlast Hn) as Hnext.
      apply lookup_lt_Some in Hn as Hlt.
      destruct H as [H|H].
      * apply runGenerator_iter_nextState in H as (pg1 & ? & ? & E3 & ? & E5 & Hadv).
        pose proof (nextState_next_digits pg1 s ltac:(auto)) as Hnd1.
        rewrite E3, E5, Hcl, Hcfg in Hnd1.
        destruct (next_digits _ _ s) as [s'|].
        -- destruct Hnd1 as (pg2 & Hadv2 & Hat2).
           assert (pg2 = pg') as -> by congruence.
           right; left. exists (S n), s'. split; [assumption|].
           split; [assumption|].
           match goal with HbW : bufW pg' = _ |- _ => rewrite HbW end.
           rewrite wrap64_small by lia. lia.
        -- destruct Hnd1 as (pg2 & Hadv2 & _). congruence.
      * apply runGenerator_iter_nextState in H as (pg1 & ? & ? & E3 & ? & E5 & Hadv).
        pose proof (nextState_next_digits pg1 s ltac:(auto)) as Hnd1.
        rewrite E3, E5, Hcl, Hcfg in Hnd1.
        destruct (next_digits _ _ s) as [s'|].
        -- destruct Hnd1 as (pg2 & Hadv2 & _). congruence.
        -- destruct Hnd1 as (pg2 & Hadv2 & Hf2 & _ & Hend2).
           assert (pg2 = pg') as -> by congruence.
           right; right.
           match goal with HbW : bufW pg' = _ |- _ => rewrite HbW end.
           rewrite wrap64_small by lia.
           match goal with Hc' : config pg' = config pg |- _ => rewrite Hc' end.
           rewrite Hend2, Hcfg. split; [lia|reflexivity].
    + exfalso. rewrite encode_exhausted in Henc; [discriminate|assumption|].
      rewrite Hcfg. unfold maxAlloc, sizeof_uint in *. lia.
  - apply (position_same E pg); auto.
  - apply Next_post in H as [->|[_ ->]]; [exact IH|].
    apply (position_same E pg); auto.
  - apply Next_wake_post in H as [->|[_ ->]]; [exact IH|].
    apply (position_same E pg); auto.
  - unfold Batch in H. destruct (Z.le_gt_cases (bufW pg) (bufR pg)) as [Hle'|Hgt].
    + apply Batch_from_empty in H as ->; auto.
    + destruct Hok as [HR HW _ _ _ _].
      apply Batch_from_post in H as (r & -> & _); [|lia..].
      apply (position_same E pg); auto.
  - unfold Batch_wake in H. destruct (Z.le_gt_cases (bufW pg) (bufR pg)) as [Hle'|Hgt].
    + apply Batch_from_empty in H as ->; auto.
    + destruct Hok as [HR HW _ _ _ _].
      apply Batch_from_post in H as (r & -> & _); [|lia..].
      apply (position_same E pg); auto.
Qed.

(** A step below the wrap keeps the words of the run in the slots
    between the cursors. *)
Lemma step_slots a pg pg' :
  static pg = static pg0 -> buffer_ok pg -> cursors_ok pg -> position E pg ->
  step a pg pg' -> no_wrap a pg -> slots_ok E pg -> slots_ok E pg'.
Proof.
  intros Hst Hok Hc Hpos Hstep Hnw IH.
  apply static_fields in Hst as (Hcfg & Hcs & Hcl & Hsz & Hmk & Hi & _).
  pose proof Hok as [HR HW _ Hlen Hmask _]. unfold cursors_ok in Hc.
  destruct Hstep as [now pg pg' H| | |pg pg' H| |pg pg' H|pg pg' H
                    |words pg pg' H|i count words pg pg' H].
  - unfold Run in H. destruct (running pg); [discriminate|].
    destruct (negb _); [discriminate|]. injection H as <-.
    intros k Hk. cbn [bufR bufW] in Hk. lia.
  - apply (slots_ok_same _ pg); auto; reflexivity.
  - apply (slots_ok_same _ pg); auto; reflexivity.
  - apply runGenerator_iter_idle in H as [->|H]; [exact IH|].
    specialize (Hnw eq_refl).
    pose proof (runGenerator_iter_writes _ _ H) as (Hrun & Hgate & w & Henc & Hf).
    frame_fields Hf.
    rewrite wrap64_small in Hgate by lia.
    destruct (capacity_shape _ _ Hnew Hbuf) as [[Hz0 _]|(j & Hj & Ej & Emask & _)];
      [rewrite <- Hsz in Hz0; lia|].
    rewrite <- Hsz in Ej. rewrite <- Hmk in Emask.
    assert (Hland : forall x, Z.land x (bufMask pg) = x mod bufSize pg).
    { intros x. rewrite Emask, Ej. apply Z.land_ones. assumption. }
    assert (Hidx : forall x, (Z.to_nat (Z.land x (bufMask pg)) < length (buf pg))%nat).
    { intros x. rewrite Hland, Hlen.
      pose proof (Z.mod_pos_bound x (bufSize pg) ltac:(lia)). lia. }
    destruct Hpos as [[Hr0 _]|[(n & s & Hn & Hat & Hw)|[Hw Hend]]].
    + congruence.
    + rewrite (encode_word _ _ Hat) in Henc. injection Henc as <-.
      intros k Hk.
      replace (bufR pg') with (bufR pg) in Hk by congruence.
      replace (bufW pg') with (wrap64 (bufW pg + 1)) in Hk by congruence.
      rewrite wrap64_small in Hk by lia.
      replace (buf pg') with
        (<[Z.to_nat (Z.land (bufW pg) (bufMask pg)) := word_of (charset pg) s]> (buf pg))
        by congruence.
      replace (bufMask pg') with (bufMask pg) by congruence.
      replace (charset pg') with (charset pg) by congruence.
      destruct (Z.eq_dec k (bufW pg)) as [->|Hne].
      * exists s. split; [rewrite Hw, Nat2Z.id; assumption|].
        apply list_lookup_insert_eq. apply Hidx.
      * destruct (IH k ltac:(lia)) as (sk & Hsk & Hslot).
        exists sk. split; [assumption|].
        rewrite list_lookup_insert_ne; [assumption|].
        rewrite !Hland. intros Heq. apply Z2Nat.inj in Heq;
          try (apply Z.mod_pos_bound; lia).
        apply (mod_shift_ne k (bufW pg - k) (bufSize pg)); [lia|].
        replace (k + (bufW pg - k)) with (bufW pg) by lia. assumption.
    + rewrite encode_exhausted in Henc; [discriminate|assumption|].
      rewrite Hcfg. pose proof (NewWordGen_Ok _ _ Hnew) as ([_ [? ?] _ _ _] & -> & _).
      cbn [fresh_engine config]. unfold maxAlloc, sizeof_uint in *. lia.
  - apply (slots_ok_same _ pg); auto; reflexivity.
  - apply Next_post in H as [->|[Hlt ->]]; [exact IH|].
    apply (slots_ok_same _ pg); auto; try reflexivity.
    cbn [bufR with_bufR]. rewrite wrap64_small; lia.
  - apply Next_wake_post in H as [->|[Hlt ->]]; [exact IH|].
    apply (slots_ok_same _ pg); auto; try reflexivity.
    cbn [bufR with_bufR]. rewrite wrap64_small; lia.
  - unfold Batch in H. destruct (Z.le_gt_cases (bufW pg) (bufR pg)) as [Hle'|Hgt].
    + apply Batch_from_empty in H as ->; auto.
    + apply Batch_from_post in H as (r & -> & Hrr); [|lia..].
      apply (slots_ok_same _ pg); auto; try reflexivity. cbn [bufR with_bufR]. lia.
  - unfold Batch_wake in H. destruct (Z.le_gt_cases (bufW pg) (bufR pg)) as [Hle'|Hgt].
    + apply Batch_from_empty in H as ->; auto.
    + apply Batch_from_post in H as (r & -> & Hrr); [|lia..].
      apply (slots_ok_same _ pg); auto; try reflexivity. cbn [bufR with_bufR]. lia.
Qed.

(** As long as a step does not write slot number [2^64 - 1], delivery
    stays in order; that write needs a run of [2^64] words or more and
    leaves the write cursor below the read cursor. *)
Lemma step_in_order a pg pg' :
  static pg = static pg0 -> buffer_ok pg ->
  step a pg pg' -> in_order E pg ->
  in_order E pg' \/ (wrapped pg' /\ 2 ^ 64 <= Z.of_nat (length E)).
Proof.
  intros Hst Hok Hstep (Hc & Hpos & Hs).
  destruct (step_cases _ _ _ Hstep) as [->|[Hnw|(-> & Hbig & Hw)]].
  - left. unfold in_order. auto.
  - left. split; [|split].
    + apply (step_cursors_ok _ _ _ Hstep Hnw Hok Hc).
    + eapply step_position; eassumption.
    + eapply step_slots; eassumption.
  - right.
    assert (Hmax : 0 <= MaxLen (config pg) < 2 ^ 63 - 1).
    { apply static_fields in Hst as (Hcfg & _). rewrite Hcfg.
      pose proof (NewWordGen_Ok _ _ Hnew) as ([_ [? ?] _ _ _] & -> & _).
      cbn [fresh_engine config]. unfold maxAlloc, sizeof_uint in *. lia. }
    destruct (write_at_position _ _ _ Hpos Hmax Hw) as (s & Hs0 & _).
    apply lookup_lt_Some in Hs0.
    pose proof Hok as [HR HW [_ Hsz] _ _ _]. unfold maxAlloc, sizeof_slice in Hsz.
    unfold cursors_ok in Hc.
    apply runGenerator_iter_writes in Hw as (_ & Hgate & w & _ & Hf).
    frame_fields Hf. rewrite wrap64_small in Hgate by lia.
    split; [|lia]. unfold wrapped.
    replace (bufW pg') with (wrap64 (bufW pg + 1)) by congruence.
    replace (bufR pg') with (bufR pg) by congruence.
    replace (bufW pg + 1) with (2 ^ 64) by lia.
    change (wrap64 (2 ^ 64)) with 0. lia.
Qed.

(** After the wrap the consumers find the buffer empty and the producer
    stays below the read cursor, until [Run] starts afresh. *)
Lemma step_wrapped a pg pg' :
  static pg = static pg0 -> buffer_ok pg ->
  step a pg pg' -> wrapped pg -> wrapped pg' \/ in_order E pg'.
Proof.
  intros Hst Hok Hstep Hw. unfold wrapped in *.
  pose proof Hok as [HR HW [_ Hsz] _ _ _]. unfold maxAlloc, sizeof_slice in Hsz.
  destruct Hstep as [now pg pg' H| | |pg pg' H| |pg pg' H|pg pg' H
                    |words pg pg' H|i count words pg pg' H];
    try (left; exact Hw).
  - right. eapply Run_in_order; eassumption.
  - left. apply runGenerator_iter_idle in H as [->|H]; [exact Hw|].
    apply runGenerator_iter_writes in H as (_ & Hgate & w & _ & Hf).
    frame_fields Hf.
    replace (bufW pg') with (wrap64 (bufW pg + 1)) by congruence.
    replace (bufR pg') with (bufR pg) by congruence.
    replace (wrap64 (bufW pg - bufR pg)) with (bufW pg - bufR pg + 2 ^ 64) in Hgate.
    + rewrite wrap64_small by lia. lia.
    + unfold wrap64. apply (Z.mod_unique _ _ (-1)); lia.
  - left. apply Next_post in H as [->|[Hlt _]]; [exact Hw|lia].
  - left. apply Next_wake_post in H as [->|[Hlt _]]; [exact Hw|lia].
  - left. apply Batch_from_empty in H as ->; [exact Hw|lia].
  - left. apply Batch_from_empty in H as ->; [exact Hw|lia].
Qed.

End InOrder.

(** ** Every interleaving *)

Lemma fresh_in_order cfg pg0 E :
  NewWordGen cfg = Ok pg0 -> in_order E pg0.
Proof.
  intros Hnew. destruct (fresh_engine_buffer_ok _ _ Hnew) as [_ Hc0].
  apply NewWordGen_Ok in Hnew as (_ & -> & _).
  split; [assumption|]. split.
  - left. split; reflexivity.
  - intros k Hk. cbn [fresh_engine bufR bufW] in Hk. lia.
Qed.

(** In every reachable state the run is delivered in order, or the write
    cursor has wrapped. *)
Lemma reachable_in_order_or_wrapped cfg pg0 pg :
  NewWordGen cfg = Ok pg0 -> BufferSize cfg < 2 ^ 64 ->
  reachable pg0 pg ->
  in_order (run_sequence pg0) pg \/ wrapped pg.
Proof.
  intros Hnew Hbuf Hreach.
  destruct (run_sequence_spec _ _ Hnew) as (_ & _ & Hhead & Hchain & Hlast & _).
  destruct (fresh_engine_buffer_ok _ _ Hnew) as [Hok0 _].
  induction Hreach as [|a pg pg' Hr IH _ Hstep].
  { left. eapply fresh_in_order; eassumption. }
  pose proof (reachable_buffer_ok _ _ _ Hok0 Hr) as Hok.
  pose proof (reachable_static _ _ _ Hok0 Hr) as Hst.
  destruct IH as [Hin|Hw].
  - destruct (step_in_order _ _ _ Hnew Hbuf Hhead Hchain Hlast _ _ _ Hst Hok Hstep Hin)
      as [Hin'|[Hw' _]]; auto.
  - destruct (step_wrapped _ _ _ Hnew Hhead Hchain Hlast _ _ _ Hst Hok Hstep Hw); auto.
Qed.

(** A run of fewer than [2^64] words is delivered in order by every
    interleaving of the operations. *)
Lemma reachable_in_order cfg pg0 pg :
  NewWordGen cfg = Ok pg0 -> BufferSize cfg < 2 ^ 64 ->
  Z.of_nat (length (run_sequence pg0)) < 2 ^ 64 ->
  reachable pg0 pg ->
  buffer_ok pg /\ static pg = static pg0 /\ in_order (run_sequence pg0) pg.
Proof.
  intros Hnew Hbuf Hsmall Hreach.
  destruct (run_sequence_spec _ _ Hnew) as (_ & _ & Hhead & Hchain & Hlast & _).
  destruct (fresh_engine_buffer_ok _ _ Hnew) as [Hok0 _].
  split; [eapply reachable_buffer_ok; eassumption|].
  split; [eapply reachable_static; eassumption|].
  induction Hreach as [|a pg pg' Hr IH _ Hstep].
  { eapply fresh_in_order; eassumption. }
  pose proof (reachable_buffer_ok _ _ _ Hok0 Hr) as Hok.
  pose proof (reachable_static _ _ _ Hok0 Hr) as Hst.
  destruct (step_in_order _ _ _ Hnew Hbuf Hhead Hchain Hlast _ _ _ Hst Hok Hstep IH)
    as [Hin'|[_ Hbig]]; [assumption|lia].
Qed.

(** ** Runs too short to wrap the write cursor *)

Lemma reachable_position cfg pg0 E pg :
  NewWordGen cfg = Ok pg0 ->
  head E = Some (initialState pg0) ->
  chain (next_digits (charsetLen pg0) (Z.to_nat (MaxLen (config pg0)))) E ->
  (forall z, last E = Some z ->
     next_digits (charsetLen pg0) (Z.to_nat (MaxLen (config pg0))) z = None) ->
  Z.of_nat (length E) < 2 ^ 64 ->
  reachable pg0 pg -> position E pg.
Proof.
  intros Hnew Hhead Hchain Hlast Hsmall Hreach.
  destruct (fresh_engine_buffer_ok _ _ Hnew) as [Hok0 _].
  induction Hreach as [|a pg pg' Hr IH _ Hstep].
  { left. apply NewWordGen_Ok in Hnew as (_ & -> & _). split; reflexivity. }
  pose proof (reachable_buffer_ok _ _ _ Hok0 Hr) as Hok.
  pose proof (reachable_static _ _ _ Hok0 Hr) as Hst.
  destruct (step_cases _ _ _ Hstep) as [->|[Hnw|(-> & Hbig & Hw)]]; [exact IH| |].
  - eapply step_position; eassumption.
  - exfalso.
    assert (Hmax : 0 <= MaxLen (config pg) < 2 ^ 63 - 1).
    { apply static_fields in Hst as (Hcfg & _). rewrite Hcfg.
      pose proof (NewWordGen_Ok _ _ Hnew) as ([_ [? ?] _ _ _] & -> & _).
      cbn [fresh_engine config]. unfold maxAlloc, sizeof_uint in *. lia. }
    destruct (write_at_position _ _ _ IH Hmax Hw) as (s & Hs & _).
    apply lookup_lt_Some in Hs. destruct Hok as [_ HW _ _ _ _]. lia.
Qed.

(** When the whole enumeration has fewer than [2^64 - 1] words, as with
    the default configuration, no interleaving of the operations makes
    the write cursor wrap: every reachable state is reached without a
    wrap, and the cursors satisfy [bufR <= bufW <= bufR + bufSize] in it. *)
Theorem short_run_never_wraps cfg pg0 pg :
  NewWordGen cfg = Ok pg0 -> 0 <= MinLen cfg ->
  sum_powers (charsetLen pg0) (Z.to_nat (MinLen (config pg0)))
    (Z.to_nat (MaxLen (config pg0))) + 1 < 2 ^ 64 ->
  reachable pg0 pg ->
  reachable_if no_wrap pg0 pg /\ cursors_ok pg.
Proof.
  intros Hnew Hmin Hsmall Hreach.
  destruct (run_states _ _ Hnew) as (E & Hhead & Hchain & Hlast & Hlen).
  specialize (Hlen Hmin).
  assert (Hnw : reachable_if no_wrap pg0 pg).
  { induction Hreach as [|a pg pg' Hr IH _ Hstep]; [constructor|].
    apply (reachable_next _ _ a pg); [assumption| |assumption].
    intros _.
    pose proof (reachable_position _ _ E _ Hnew Hhead Hchain Hlast ltac:(lia) Hr)
      as [[_ H0]|[(n & s & Hn & _ & Hw)|[Hw _]]].
    - lia.
    - apply lookup_lt_Some in Hn. lia.
    - lia. }
  split; [assumption|].
  apply (reachable_cursors_ok pg0); [apply (fresh_engine_buffer_ok cfg)..|]; assumption.
Qed.

Lemma reachable_run cfg pg0 pg :
  NewWordGen cfg = Ok pg0 -> total_words pg0 + 1 < 2 ^ 64 ->
  reachable pg0 pg ->
  reachable_if no_wrap pg0 pg /\ buffer_ok pg /\ static pg = static pg0 /\
  cursors_ok pg /\ position (run_sequence pg0) pg.
Proof.
  intros Hnew Hsmall Hreach.
  destruct (run_sequence_spec _ _ Hnew) as (before & _ & Hhead & Hchain & Hlast & Hlen & _).
  destruct (fresh_engine_buffer_ok _ _ Hnew) as [Hok0 Hc0].
  assert (Hpos : forall pg, reachable pg0 pg -> position (run_sequence pg0) pg).
  { intros pg1 H1. eapply reachable_position; eauto. lia. }
  assert (Hnw : reachable_if no_wrap pg0 pg).
  { clear Hc0. induction Hreach as [|a pg pg' Hr IH _ Hstep]; [constructor|].
    apply (reachable_next _ _ a pg); [assumption| |assumption].
    intros _.
    destruct (Hpos _ Hr) as [[_ H0]|[(n & s & Hn & _ & Hw)|[Hw _]]].
    - lia.
    - apply lookup_lt_Some in Hn. lia.
    - lia. }
  split; [assumption|].
  split; [eapply reachable_buffer_ok; eassumption|].
  split; [eapply reachable_static; eassumption|].
  split; [apply (reachable_cursors_ok pg0); assumption|].
  apply Hpos. assumption.
Qed.

Lemma reachable_slots cfg pg0 pg :
  NewWordGen cfg = Ok pg0 -> BufferSize cfg < 2 ^ 64 ->
  total_words pg0 + 1 < 2 ^ 64 ->
  reachable pg0 pg -> slots_ok (run_sequence pg0) pg.
Proof.
  intros Hnew Hbuf Hsmall Hreach.
  destruct (run_sequence_spec _ _ Hnew) as (_ & _ & Hhead & Hchain & Hlast & HlenE & _).
  induction Hreach as [|a pg pg' Hr IH _ Hstep].
  { apply (fresh_in_order _ _ (run_sequence pg0) Hnew). }
  destruct (reachable_run _ _ _ Hnew Hsmall Hr) as (_ & Hok & Hst & Hc & Hpos).
  destruct (step_cases _ _ _ Hstep) as [->|[Hnw|(-> & Hbig & Hw)]]; [exact IH| |].
  - eapply step_slots; eassumption.
  - exfalso.
    assert (Hmax : 0 <= MaxLen (config pg) < 2 ^ 63 - 1).
    { apply static_fields in Hst as (Hcfg & _). rewrite Hcfg.
      pose proof (NewWordGen_Ok _ _ Hnew) as ([_ [? ?] _ _ _] & -> & _).
      cbn [fresh_engine config]. unfold maxAlloc, sizeof_uint in *. lia. }
    destruct (write_at_position _ _ _ Hpos Hmax Hw) as (s & Hs & _).
    apply lookup_lt_Some in Hs. destruct Hok as [_ HW _ _ _ _]. lia.
Qed.

(** ** What the consumers receive *)

Lemma with_bufR_id pg : with_bufR (bufR pg) pg = pg.
Proof. destruct pg; reflexivity. Qed.

(** The loop of [Batch]: it pops [k] words into [words[i ..]], in the
    order of the read cursor, and stops at the end of [words], on an
    empty buffer with the engine stopped, or on an empty buffer just
    after a wake-up; otherwise it waits. *)
Lemma Batch_from_spec E todo :
  forall i woken count words pg,
    slots_ok E pg -> 0 <= bufR pg <= bufW pg -> bufW pg < 2 ^ 64 ->
    (i + todo = length words)%nat ->
    0 <= count -> count + (bufW pg - bufR pg) < 2 ^ 63 ->
    exists k : nat,
      (k <= todo)%nat /\ bufR pg + Z.of_nat k <= bufW pg /\
      match Batch_from todo i woken count words pg with
      | BatchDone count' words' pg' =>
          count' = count + Z.of_nat k /\
          pg' = with_bufR (bufR pg + Z.of_nat k) pg /\
          length words' = length words /\
          (forall j, (j < i \/ i + k <= j)%nat -> words' !! j = words !! j) /\
          (forall j, (j < k)%nat ->
             words' !! (i + j)%nat
             = word_of (charset pg) <$> E !! Z.to_nat (bufR pg + Z.of_nat j)) /\
          (k = todo \/
           bufR pg + Z.of_nat k = bufW pg /\
           (running pg = false \/ woken = true /\ k = 0%nat))
      | BatchWait i' count' words' pg' =>
          count' = count + Z.of_nat k /\
          pg' = with_bufR (bufR pg + Z.of_nat k) pg /\
          length words' = length words /\
          (forall j, (j < i \/ i + k <= j)%nat -> words' !! j = words !! j) /\
          (forall j, (j < k)%nat ->
             words' !! (i + j)%nat
             = word_of (charset pg) <$> E !! Z.to_nat (bufR pg + Z.of_nat j)) /\
          i' = (i + k)%nat /\ (k < todo)%nat /\
          bufR pg + Z.of_nat k = bufW pg /\ running pg = true
      | BatchPanic => False
      end.
Proof.
  induction todo as [|todo IH]; intros i woken count words pg Hs HR HW Hlen Hc0 Hc1.
  - exists 0%nat. simpl. rewrite Z.add_0_r, with_bufR_id.
    repeat split; auto; try lia; try (intros j Hj; lia).
  - simpl. destruct (Z.geb_spec (bufR pg) (bufW pg)) as [Hge|Hlt]; cbn [andb].
    + exists 0%nat. rewrite Z.add_0_r, with_bufR_id.
      destruct woken; cbn [orb].
      * repeat split; auto; try lia; try (intros j Hj; lia).
      * destruct (running pg) eqn:Hrun; cbn [negb].
        -- repeat split; auto; try lia; try (intros j Hj; lia).
        -- repeat split; auto; try lia; try (intros j Hj; lia).
    + destruct (Hs (bufR pg) ltac:(lia)) as (s & Hs0 & Hslot). rewrite Hslot.
      set (pg1 := with_bufR (wrap64 (bufR pg + 1)) pg).
      set (words1 := <[i := word_of (charset pg) s]> words).
      assert (HR1 : bufR pg1 = bufR pg + 1)
        by (subst pg1; cbn [bufR with_bufR]; apply wrap64_small; lia).
      destruct (IH (S i) false (wrap_int (count + 1)) words1 pg1)
        as (k & Hk & Hkw & Hres).
      * apply (slots_ok_same _ pg); try reflexivity; [lia|assumption].
      * rewrite HR1. subst pg1. cbn [bufW with_bufR]. lia.
      * subst pg1. cbn [bufW with_bufR]. lia.
      * subst words1. rewrite length_insert. lia.
      * rewrite wrap_int_small; lia.
      * rewrite wrap_int_small by lia. rewrite HR1. subst pg1. cbn [bufW with_bufR]. lia.
      * rewrite HR1 in Hkw. change (bufW pg1) with (bufW pg) in Hkw.
        exists (S k). split; [lia|]. split; [lia|].
        assert (Hpg : with_bufR (bufR pg1 + Z.of_nat k) pg1
                      = with_bufR (bufR pg + Z.of_nat (S k)) pg).
        { rewrite HR1. subst pg1. unfold with_bufR. simpl. f_equal. lia. }
        assert (Hfirst : forall words' : list (list byte),
                   (forall j, (j < S i \/ S i + k <= j)%nat -> words' !! j = words1 !! j) ->
                   (forall j, (j < k)%nat ->
                      words' !! (S i + j)%nat
                      = word_of (charset pg1) <$> E !! Z.to_nat (bufR pg1 + Z.of_nat j)) ->
                   (forall j, (j < i \/ i + S k <= j)%nat -> words' !! j = words !! j) /\
                   (forall j, (j < S k)%nat ->
                      words' !! (i + j)%nat
                      = word_of (charset pg) <$> E !! Z.to_nat (bufR pg + Z.of_nat j))).
        { intros words' Hout Hin. split.
          - intros j Hj. rewrite Hout by lia. subst words1.
            apply list_lookup_insert_ne. lia.
          - intros [|j] Hj.
            + rewrite Nat.add_0_r, Z.add_0_r, Hout by lia. subst words1.
              rewrite list_lookup_insert_eq by lia. rewrite Hs0. reflexivity.
            + replace (i + S j)%nat with (S i + j)%nat by lia.
              rewrite Hin by lia. rewrite HR1. do 3 f_equal. lia. }
        destruct (Batch_from todo (S i) false _ words1 pg1) as [c' w' p'|i' c' w' p'|];
          [| |contradiction].
        -- destruct Hres as (-> & -> & Hl & Hout & Hin & Hend).
           destruct (Hfirst w' Hout Hin) as [Hout' Hin'].
           rewrite wrap_int_small by lia.
           split; [lia|]. split; [assumption|].
           split; [subst words1; rewrite Hl, length_insert; reflexivity|].
           split; [assumption|]. split; [assumption|].
           destruct Hend as [->|[Heq [Hrun|[Hf _]]]]; [left; reflexivity| |discriminate].
           right. split; [rewrite HR1 in Heq; change (bufW pg1) with (bufW pg) in Heq; lia|].
           left. exact Hrun.
        -- destruct Hres as (-> & -> & Hl & Hout & Hin & -> & Hlt' & Heq & Hrun).
           destruct (Hfirst w' Hout Hin) as [Hout' Hin'].
           rewrite wrap_int_small by lia.
           split; [lia|]. split; [assumption|].
           split; [subst words1; rewrite Hl, length_insert; reflexivity|].
           split; [assumption|]. split; [assumption|].
           split; [lia|]. split; [lia|].
           split; [rewrite HR1 in Heq; change (bufW pg1) with (bufW pg) in Heq; lia|].
           exact Hrun.
Qed.

(** The words of a run are pairwise distinct, of a length between
    [MinLen] and [MaxLen], and made of symbols of the charset. *)
Lemma run_words_spec cfg pg0 :
  NewWordGen cfg = Ok pg0 ->
  NoDup (run_words pg0) /\
  forall w, w ∈ run_words pg0 ->
    (Z.to_nat (MinLen (config pg0)) <= length w <= Z.to_nat (MaxLen (config pg0)))%nat /\
    Forall (fun x => x ∈ charset pg0) w.
Proof.
  intros Hnew.
  destruct (run_sequence_spec _ _ Hnew) as (before & Henum & _).
  pose proof (NewWordGen_Ok _ _ Hnew) as ([Hle [Hmax _] Hne Hnd _] & E & _).
  unfold run_words. rewrite E in *.
  cbn [fresh_engine charset charsetLen config] in *.
  set (c := effective cfg) in *.
  set (lo := Z.to_nat (MinLen c)) in *. set (hi := Z.to_nat (MaxLen c)) in *.
  pose proof (enumeration_words_NoDup (Charset c) lo hi Hnd Hne) as Hnodup.
  rewrite Henum, fmap_app in Hnodup. apply NoDup_app in Hnodup as (_ & _ & Hnodup).
  split; [exact Hnodup|].
  intros w Hw. apply list_elem_of_fmap in Hw as (s & -> & Hs).
  assert (Hin : s ∈ enumeration (Z.of_nat (length (Charset c))) lo hi).
  { rewrite Henum. apply elem_of_app. right. exact Hs. }
  unfold enumeration in Hin. apply enumeration_from_elem in Hin as [Hlen Hv].
  unfold word_of. rewrite length_fmap. split; [subst lo hi; lia|].
  apply Forall_fmap. eapply Forall_impl; [exact Hv|].
  intros d Hd. cbv beta in *. apply list_elem_of_lookup_total_2. lia.
Qed.

(** A word [Next] returns is the word of the run at the position of the
    read cursor, which moves on by one: after a wrap of the write cursor
    [Next] returns no word at all. *)
Lemma Next_delivers cfg pg0 pg w pg' :
  NewWordGen cfg = Ok pg0 -> BufferSize cfg < 2 ^ 64 ->
  reachable pg0 pg ->
  Next pg = NextWord w pg' \/ Next_wake pg = NextWord w pg' ->
  run_words pg0 !! Z.to_nat (bufR pg) = Some w /\
  pg' = with_bufR (bufR pg + 1) pg.
Proof.
  intros Hnew Hbuf Hreach Hnext.
  destruct (fresh_engine_buffer_ok _ _ Hnew) as [Hok0 _].
  pose proof (reachable_buffer_ok _ _ _ Hok0 Hreach) as [HR HW _ _ _ _].
  pose proof (reachable_static _ _ _ Hok0 Hreach) as Hst.
  apply static_fields in Hst as (_ & Hcs & _).
  assert (Hpop : bufR pg < bufW pg /\ pop pg = NextWord w pg').
  { unfold Next, Next_wake in Hnext.
    destruct (Z.geb_spec (bufR pg) (bufW pg)); [|split; [lia|tauto]].
    destruct (negb (running pg)); destruct Hnext; discriminate. }
  destruct Hpop as [Hlt Hpop].
  destruct (reachable_in_order_or_wrapped _ _ _ Hnew Hbuf Hreach)
    as [(_ & _ & Hs)|Hw]; [|unfold wrapped in Hw; lia].
  destruct (Hs (bufR pg) ltac:(lia)) as (s & Hs0 & Hslot).
  unfold pop in Hpop. rewrite Hslot in Hpop. injection Hpop as <- <-.
  unfold run_words. rewrite list_lookup_fmap, Hs0, Hcs.
  split; [reflexivity|]. rewrite wrap64_small by lia. reflexivity.
Qed.

(** Without an initial state the run is the whole enumeration. *)
Lemma run_sequence_whole cfg pg0 :
  NewWordGen cfg = Ok pg0 -> InitialState cfg = [] ->
  run_sequence pg0
  = enumeration (charsetLen pg0) (Z.to_nat (MinLen (config pg0)))
      (Z.to_nat (MaxLen (config pg0))) /\
  Z.of_nat (length (run_sequence pg0)) = total_words pg0.
Proof.
  intros Hnew Hnil.
  pose proof (NewWordGen_Ok _ _ Hnew) as ([Hle [Hmax _] Hne _ _] & E & _).
  unfold run_sequence, total_words, sum_powers, enumeration. rewrite E.
  cbn [fresh_engine initialState charsetLen config].
  set (c := effective cfg) in *.
  set (R := Z.of_nat (length (Charset c))).
  set (lo := Z.to_nat (MinLen c)). set (hi := Z.to_nat (MaxLen c)).
  assert (Hpos : 0 < R) by (subst R; destruct (Charset c); [congruence|simpl length; lia]).
  assert (Hlohi : (lo <= hi)%nat) by (subst lo hi; lia).
  replace (S hi - lo)%nat with (S (hi - lo)) by lia.
  destruct (enumeration_from_chain R Hpos hi (hi - lo) lo ltac:(lia)) as (_ & Hhead & _).
  pose proof (enumeration_from_length R Hpos lo (S (hi - lo))) as Hlen.
  assert (Hinit : initial_digits c = replicate lo 0).
  { unfold initial_digits. assert (Hi : InitialState c = []) by exact Hnil.
    rewrite Hi. reflexivity. }
  rewrite Hinit.
  destruct (enumeration_from R lo (S (hi - lo))) as [|x rest] eqn:Henum; [discriminate|].
  injection Hhead as ->. cbn [from_first]. rewrite decide_True by reflexivity.
  split; [reflexivity|exact Hlen].
Qed.


(** On an engine whose whole enumeration has fewer than [2^64 - 1]
    words, [Batch], when it returns without waiting: it fills the first
    [count] entries of [words] with the next [count] words of the run,
    in order, leaves the other entries alone and moves the read cursor by
    [count]; it returns fewer words than asked for only when the engine
    is stopped and the buffer drained. *)
Theorem Batch_in_order cfg pg0 pg words count words' pg' :
  NewWordGen cfg = Ok pg0 -> BufferSize cfg < 2 ^ 64 ->
  total_words pg0 + 1 < 2 ^ 64 ->
  reachable pg0 pg ->
  Batch words pg = BatchDone count words' pg' ->
  0 <= count <= Z.of_nat (length words) /\
  bufR pg' = bufR pg + count /\ bufW pg' = bufW pg /\
  length words' = length words /\
  take (Z.to_nat count) words'
  = take (Z.to_nat count) (drop (Z.to_nat (bufR pg)) (run_words pg0)) /\
  drop (Z.to_nat count) words' = drop (Z.to_nat count) words /\
  (count < Z.of_nat (length words) -> running pg = false /\ bufR pg' = bufW pg).
Proof.
  intros Hnew Hbuf Hsmall Hreach Hbatch.
  pose proof (reachable_slots _ _ _ Hnew Hbuf Hsmall Hreach) as Hs.
  destruct (reachable_run _ _ _ Hnew Hsmall Hreach) as (_ & Hok & Hst & Hc & _).
  apply static_fields in Hst as (_ & Hcs & _).
  destruct Hok as [HR HW [Hsz0 Hsz] _ _ _]. unfold cursors_ok in Hc.
  unfold maxAlloc, sizeof_slice in Hsz.
  destruct (Batch_from_spec (run_sequence pg0) (length words) 0 false 0 words pg)
    as (k & Hk & Hkw & Hres); try assumption; try lia.
  unfold Batch in Hbatch. rewrite Hbatch in Hres.
  destruct Hres as (-> & -> & Hlen & Hout & Hin & Hend).
  rewrite Z.add_0_l, Nat2Z.id. cbn [bufR bufW with_bufR].
  split; [lia|]. split; [reflexivity|]. split; [reflexivity|].
  split; [assumption|]. split; [|split].
  - apply list_eq. intros j. destruct (Nat.lt_ge_cases j k) as [Hj|Hj].
    + rewrite !lookup_take_lt, lookup_drop by assumption.
      pose proof (Hin j Hj) as Hj'. cbn [Nat.add] in Hj'. rewrite Hj'. unfold run_words. rewrite list_lookup_fmap, Hcs.
      do 2 f_equal. lia.
    + rewrite !lookup_take_ge by assumption. reflexivity.
  - apply list_eq. intros j. rewrite !lookup_drop. apply Hout. right. lia.
  - intros Hlt. destruct Hend as [->|[Heq [Hrun|[Hf _]]]]; [lia| |discriminate].
    split; assumption.
Qed.

(** Every word [Next] returns, in whatever state the engine has been
    brought to, has between [MinLen] and [MaxLen] symbols, all of the
    charset. *)
Theorem Next_word_length cfg pg0 pg w pg' :
  NewWordGen cfg = Ok pg0 -> BufferSize cfg < 2 ^ 64 ->
  reachable pg0 pg ->
  Next pg = NextWord w pg' \/ Next_wake pg = NextWord w pg' ->
  MinLen (config pg) <= Z.of_nat (length w) <= MaxLen (config pg) /\
  Forall (fun x => x ∈ charset pg) w.
Proof.
  intros Hnew Hbuf Hreach Hnext.
  destruct (Next_delivers _ _ _ _ _ Hnew Hbuf Hreach Hnext) as [Hw _].
  destruct (fresh_engine_buffer_ok _ _ Hnew) as [Hok0 _].
  pose proof (reachable_static _ _ _ Hok0 Hreach) as Hst.
  apply static_fields in Hst as (Hcfg & Hcs & _).
  destruct (run_words_spec _ _ Hnew) as [_ Hall].
  destruct (Hall w) as [Hlen Hsym]; [eapply list_elem_of_lookup_2; exact Hw|].
  rewrite Hcfg, Hcs. split; [|assumption].
  pose proof (NewWordGen_Ok _ _ Hnew) as ([_ [Hmax _] _ _ _] & E & _).
  rewrite E in *. cbn [fresh_engine config] in *. lia.
Qed.

(** On an engine whose whole enumeration has fewer than [2^64 - 1]
    words, the words a call of [Batch] that returns without waiting has
    put into [words] are pairwise distinct. *)
Theorem Batch_distinct cfg pg0 pg words count words' pg' :
  NewWordGen cfg = Ok pg0 -> BufferSize cfg < 2 ^ 64 ->
  total_words pg0 + 1 < 2 ^ 64 ->
  reachable pg0 pg ->
  Batch words pg = BatchDone count words' pg' ->
  NoDup (take (Z.to_nat count) words').
Proof.
  intros Hnew Hbuf Hsmall Hreach Hbatch.
  pose proof (reachable_slots _ _ _ Hnew Hbuf Hsmall Hreach) as Hs.
  destruct (reachable_run _ _ _ Hnew Hsmall Hreach) as (_ & Hok & Hst & Hc & _).
  apply static_fields in Hst as (_ & Hcs & _).
  destruct Hok as [HR HW [Hsz0 Hsz] _ _ _]. unfold cursors_ok in Hc.
  unfold maxAlloc, sizeof_slice in Hsz.
  destruct (Batch_from_spec (run_sequence pg0) (length words) 0 false 0 words pg)
    as (k & Hk & Hkw & Hres); try assumption; try lia.
  unfold Batch in Hbatch. rewrite Hbatch in Hres.
  destruct Hres as (-> & _ & Hlen & _ & Hin & _).
  rewrite Z.add_0_l, Nat2Z.id.
  destruct (run_words_spec _ _ Hnew) as [Hnodup _].
  replace (take k words')
    with (take k (drop (Z.to_nat (bufR pg)) (run_words pg0))).
  - eapply sublist_NoDup; [exact Hnodup|].
    etransitivity; [apply sublist_take|apply sublist_drop].
  - apply list_eq. intros j. destruct (Nat.lt_ge_cases j k) as [Hj|Hj].
    + rewrite !lookup_take_lt, lookup_drop by assumption.
      pose proof (Hin j Hj) as Hj'. cbn [Nat.add] in Hj'. rewrite Hj'. unfold run_words. rewrite list_lookup_fmap, Hcs.
      do 2 f_equal. lia.
    + rewrite !lookup_take_ge by assumption. reflexivity.
Qed.

(** On an engine whose whole enumeration has fewer than [2^64 - 1]
    words, [Batch] waits only with the engine running and the buffer
    drained: it has then taken every word that was available, in order,
    and will resume at the next entry of [words]. *)
Theorem Batch_waits_when_drained cfg pg0 pg words i count words' pg' :
  NewWordGen cfg = Ok pg0 -> BufferSize cfg < 2 ^ 64 ->
  total_words pg0 + 1 < 2 ^ 64 ->
  reachable pg0 pg ->
  Batch words pg = BatchWait i count words' pg' ->
  running pg = true /\ count = bufW pg - bufR pg /\ Z.of_nat i = count /\
  count < Z.of_nat (length words) /\
  bufR pg' = bufW pg /\ bufW pg' = bufW pg /\
  length words' = length words /\
  take i words' = take i (drop (Z.to_nat (bufR pg)) (run_words pg0)) /\
  drop i words' = drop i words.
Proof.
  intros Hnew Hbuf Hsmall Hreach Hbatch.
  pose proof (reachable_slots _ _ _ Hnew Hbuf Hsmall Hreach) as Hs.
  destruct (reachable_run _ _ _ Hnew Hsmall Hreach) as (_ & Hok & Hst & Hc & _).
  apply static_fields in Hst as (_ & Hcs & _).
  destruct Hok as [HR HW [Hsz0 Hsz] _ _ _]. unfold cursors_ok in Hc.
  unfold maxAlloc, sizeof_slice in Hsz.
  destruct (Batch_from_spec (run_sequence pg0) (length words) 0 false 0 words pg)
    as (k & Hk & Hkw & Hres); try assumption; try lia.
  unfold Batch in Hbatch. rewrite Hbatch in Hres.
  destruct Hres as (-> & -> & Hlen & Hout & Hin & -> & Hlt & Heq & Hrun).
  cbn [Nat.add bufR bufW with_bufR].
  split; [assumption|]. split; [lia|]. split; [lia|]. split; [lia|].
  split; [lia|]. split; [reflexivity|]. split; [assumption|]. split.
  - apply list_eq. intros j. destruct (Nat.lt_ge_cases j k) as [Hj|Hj].
    + rewrite !lookup_take_lt, lookup_drop by assumption.
      pose proof (Hin j Hj) as Hj'. cbn [Nat.add] in Hj'. rewrite Hj'. unfold run_words.
      rewrite list_lookup_fmap, Hcs. do 2 f_equal. lia.
    + rewrite !lookup_take_ge by assumption. reflexivity.
  - apply list_eq. intros j. rewrite !lookup_drop. apply Hout. right. lia.
Qed.

(** ** One consumer against the producer *)

Section Consume.

Variables (cfg : Config) (pg0 : WordGen).
Hypothesis Hnew : NewWordGen cfg = Ok pg0.
Hypothesis Hcap : BufferSize cfg <= 2 ^ 63.
Hypothesis Hsmall : Z.of_nat (length (run_sequence pg0)) < 2 ^ 64.
Variables (burst : nat) (t : Time).

Lemma in_run_facts alive pg :
  in_run pg0 alive pg ->
  buffer_ok pg /\ static pg = static pg0 /\ 0 < bufSize pg /\
  bufR pg <= bufW pg <= bufR pg + bufSize pg /\
  bufW pg <= Z.of_nat (length (run_sequence pg0)) /\
  slots_ok (run_sequence pg0) pg.
Proof.
  intros (Hreach & Hrun & Hgen & Hat).
  destruct (reachable_in_order _ _ _ Hnew ltac:(lia) Hsmall Hreach)
    as (Hok & Hst & Hc & _ & Hs).
  split; [assumption|]. split; [assumption|].
  pose proof Hok as [HR HW _ _ _ _].
  split; [|split; [exact Hc|split; [|exact Hs]]].
  - pose proof (static_fields _ _ Hst) as (_ & _ & _ & Hsz & _). rewrite Hsz.
    destruct (capacity_shape _ _ Hnew ltac:(lia)) as [[_ Hgt]|(k & Hk & -> & _)]; [lia|].
    apply Z.pow_pos_nonneg; lia.
  - destruct alive; [|lia].
    destruct Hat as (s & Hs0 & _). apply lookup_lt_Some in Hs0. lia.
Qed.

(** The producer, scheduled for [k] iterations while it is alive. *)
Lemma produce_burst_spec k :
  forall pg, in_run pg0 true pg ->
    exists alive' pg1,
      produce_burst k t pg = Some (alive', pg1) /\ in_run pg0 alive' pg1 /\
      bufR pg1 = bufR pg /\ bufW pg <= bufW pg1 /\
      ((0 < k)%nat -> bufW pg - bufR pg < bufSize pg -> bufW pg < bufW pg1).
Proof.
  destruct (run_sequence_spec _ _ Hnew) as (_ & _ & _ & Hchain & Hlast & _).
  induction k as [|k IH]; intros pg Hin.
  { exists true, pg. split; [reflexivity|]. split; [assumption|].
    split; [reflexivity|]. split; lia. }
  destruct (in_run_facts _ _ Hin) as (Hok & Hst & Hsz & Hc & Hle & _).
  destruct Hin as (Hreach & Hrun & Hgen & s & Hs0 & Hat).
  pose proof (static_fields _ _ Hst) as (Hcfg & Hcs & Hcl & _).
  pose proof Hok as [HR HW _ _ _ _].
  apply lookup_lt_Some in Hs0 as Hlt.
  cbn [produce_burst].
  destruct (Z.lt_ge_cases (bufW pg - bufR pg) (bufSize pg)) as [Hroom|Hfull].
  - destruct (runGenerator_iter_counter pg s Hat Hok Hrun) as (pg' & Hf & Hiter);
      [rewrite wrap64_small; lia|].
    pose proof (chain_next _ _ _ _ Hchain Hlast Hs0) as Hnext.
    rewrite Hcl, Hcfg in Hiter. frame_fields Hf.
    assert (HW' : bufW pg' = bufW pg + 1).
    { replace (bufW pg') with (wrap64 (bufW pg + 1)) by congruence.
      apply wrap64_small. lia. }
    assert (Hgen' : generated pg' = bufW pg').
    { replace (generated pg') with (wrap64 (generated pg + 1)) by congruence.
      rewrite Hgen, HW'. apply wrap64_small. lia. }
    destruct (next_digits _ _ s) as [s'|].
    + destruct Hiter as [Hiter Hat']. rewrite Hiter.
      destruct (IH pg') as (alive' & pg1 & Hb & Hin1 & HR1 & HW1 & _).
      { split; [|split; [congruence|split; [assumption|]]].
        - eapply reachable_next; [exact Hreach|exact I|].
          apply step_produce. rewrite Hiter. reflexivity.
        - exists s'. split; [|assumption].
          rewrite HW'. replace (Z.to_nat (bufW pg + 1)) with (S (Z.to_nat (bufW pg))) by lia.
          assumption. }
      exists alive', pg1. split; [assumption|]. split; [assumption|].
      split; [congruence|]. split; lia.
    + rewrite Hiter. exists false, (producer_exit t pg').
      split; [reflexivity|]. split; [|cbn; split; [congruence|split; lia]].
      split; [|split; [reflexivity|split; [exact Hgen'|]]].
      * eapply reachable_next; [|exact I|apply (step_producer_exit t)].
        eapply reachable_next; [exact Hreach|exact I|].
        apply step_produce. rewrite Hiter. reflexivity.
      * cbn [bufW producer_exit with_running with_endTime]. lia.
  - exists true, pg. unfold runGenerator_iter. rewrite Hrun. cbn [negb].
    rewrite wrap64_small by lia.
    destruct (Z.geb_spec (bufW pg - bufR pg) (bufSize pg)); [|lia].
    split; [reflexivity|]. split; [|split; [reflexivity|split; lia]].
    split; [assumption|]. split; [assumption|]. split; [assumption|].
    exists s. split; assumption.
Qed.

(** The slot of the read cursor, when the buffer is not empty. *)
Lemma in_run_pop alive pg :
  in_run pg0 alive pg -> bufR pg < bufW pg ->
  exists w,
    run_words pg0 !! Z.to_nat (bufR pg) = Some w /\
    pop pg = NextWord w (with_bufR (bufR pg + 1) pg) /\
    in_run pg0 alive (with_bufR (bufR pg + 1) pg).
Proof.
  intros Hin Hlt.
  destruct (in_run_facts _ _ Hin) as (Hok & Hst & Hsz & Hc & Hle & Hs).
  destruct Hin as (Hreach & Hrun & Hgen & Hat).
  pose proof (static_fields _ _ Hst) as (_ & Hcs & _).
  pose proof Hok as [HR HW _ _ _ _].
  destruct (Hs (bufR pg) ltac:(lia)) as (s & Hs0 & Hslot).
  exists (word_of (charset pg) s).
  split; [unfold run_words; rewrite list_lookup_fmap, Hs0, Hcs; reflexivity|].
  assert (Hpop : pop pg = NextWord (word_of (charset pg) s) (with_bufR (bufR pg + 1) pg)).
  { unfold pop. rewrite Hslot, wrap64_small by lia. reflexivity. }
  split; [exact Hpop|].
  split; [|split; [assumption|split; [assumption|]]].
  - eapply reachable_next; [exact Hreach|exact I|].
    apply step_Next_wake. unfold Next_wake.
    destruct (Z.geb_spec (bufR pg) (bufW pg)); [lia|]. rewrite Hpop. reflexivity.
  - destruct alive; [|assumption].
    destruct Hat as (s1 & Hs1 & Hat1). exists s1. split; [assumption|].
    apply (counter_at_same_counter pg); [assumption|reflexivity..].
Qed.

(** The consumer receives what is left of the run, then [io.EOF]. *)
Lemma consume_spec fuel :
  forall alive pg,
    in_run pg0 alive pg ->
    Z.of_nat (length (run_sequence pg0)) - bufR pg < Z.of_nat fuel ->
    exists pg',
      consume fuel burst t alive pg
      = Some (drop (Z.to_nat (bufR pg)) (run_words pg0), pg') /\
      in_run pg0 false pg' /\ bufR pg' = bufW pg'.
Proof.
  induction fuel as [|fuel IH]; intros alive pg Hin Hfuel;
    destruct (in_run_facts _ _ Hin) as (Hok & Hst & Hsz & Hc & Hle & Hs);
    pose proof Hok as [HR HW _ _ _ _]; [lia|].
  cbn [consume]. unfold Next.
  destruct (Z.geb_spec (bufR pg) (bufW pg)) as [Hge|Hlt].
  - assert (Heq : bufR pg = bufW pg) by lia.
    pose proof Hin as (Hreach & Hrun & Hgen & Hat). rewrite Hrun.
    destruct alive; cbn [negb].
    + destruct (produce_burst_spec (S burst) pg Hin)
        as (alive' & pg1 & -> & Hin1 & HR1 & _ & HW1).
      specialize (HW1 ltac:(lia) ltac:(lia)). cbn [mbind option_bind].
      destruct (Z.eqb_spec (bufW pg1) (bufW pg)) as [|_]; [lia|].
      destruct (in_run_pop _ _ Hin1 ltac:(lia)) as (w & Hw & Hpop & Hin2).
      unfold Next_wake. destruct (Z.geb_spec (bufR pg1) (bufW pg1)); [lia|].
      rewrite Hpop.
      destruct (IH alive' _ Hin2) as (pg' & -> & Hin' & Hcur).
      { cbn [bufR with_bufR]. lia. }
      cbn [mbind option_bind bufR with_bufR].
      exists pg'. split; [|split; assumption].
      rewrite HR1 in Hw |- *. rewrite (drop_S _ _ _ Hw). do 4 f_equal. lia.
    + exists pg. rewrite drop_ge; [repeat split; assumption|].
      unfold run_words. rewrite length_fmap. lia.
  - destruct (in_run_pop _ _ Hin Hlt) as (w & Hw & -> & Hin2).
    destruct (IH alive _ Hin2) as (pg' & -> & Hin' & Hcur).
    { cbn [bufR with_bufR]. lia. }
    cbn [mbind option_bind bufR with_bufR].
    exists pg'. split; [|split; assumption].
    rewrite (drop_S _ _ _ Hw). do 4 f_equal. lia.
Qed.

(** A whole run from [Run] on: a single consumer receives every word of
    the run in order and then [io.EOF], however far the producer runs
    ahead; the engine is then stopped, with the buffer drained and every
    word counted. *)
Lemma consume_run t0 fuel :
  (length (run_words pg0) < fuel)%nat ->
  exists pg1 pg',
    Run t0 pg0 = Ok pg1 /\
    consume fuel burst t true pg1 = Some (run_words pg0, pg') /\
    running pg' = false /\ bufR pg' = bufW pg' /\
    bufW pg' = Z.of_nat (length (run_words pg0)) /\
    generated pg' = Z.of_nat (length (run_words pg0)) /\
    reachable pg0 pg'.
Proof.
  intros Hfuel. unfold run_words in Hfuel. rewrite length_fmap in Hfuel.
  destruct (run_sequence_spec _ _ Hnew) as (_ & _ & Hhead & _).
  destruct (Run_fresh cfg pg0 t0 Hnew)
    as (pg1 & Hrun & Hc & _ & _ & _ & _ & _ & Hrunning & HbR & HbW & Hst).
  pose proof (static_fields _ _ Hst) as (_ & _ & _ & _ & _ & Hi & _).
  assert (Hgen : generated pg1 = 0).
  { pose proof (NewWordGen_Ok _ _ Hnew) as (_ & E & _).
    unfold Run in Hrun. rewrite E in Hrun. cbn [running fresh_engine] in Hrun.
    destruct (negb _); [discriminate|]. injection Hrun as <-. reflexivity. }
  assert (Hin : in_run pg0 true pg1).
  { split; [|split; [assumption|split; [lia|]]].
    - eapply reachable_next; [apply reachable_start|exact I|].
      apply (step_Run t0). assumption.
    - exists (initialState pg0). rewrite HbW. split; [rewrite <- head_lookup; exact Hhead|].
      pose proof (NewWordGen_Ok _ _ Hnew) as (_ & E & _). rewrite E.
      exact Hc. }
  destruct (consume_spec fuel true pg1 Hin ltac:(lia)) as (pg' & Hcons & Hin' & Hcur).
  rewrite HbR in Hcons. change (Z.to_nat 0) with 0%nat in Hcons. rewrite drop_0 in Hcons.
  destruct Hin' as (Hreach & Hstop & Hgen' & HW').
  exists pg1, pg'. unfold run_words at 2 3. rewrite length_fmap.
  split; [assumption|]. split; [assumption|]. split; [assumption|].
  split; [assumption|]. split; [assumption|]. split; [congruence|assumption].
Qed.

End Consume.

(** ** What a consumer can receive at most *)

Lemma produce_burst_cursors k t :
  forall pg alive' pg1,
    buffer_ok pg -> produce_burst k t pg = Some (alive', pg1) ->
    buffer_ok pg1 /\ bufR pg1 = bufR pg.
Proof.
  induction k as [|k IH]; intros pg alive' pg1 Hok; cbn [produce_burst].
  { intros [= <- <-]. split; [assumption|reflexivity]. }
  assert (Hstep : forall pg', iteration_post pg (runGenerator_iter pg) = Some pg' ->
            buffer_ok pg' /\ bufR pg' = bufR pg).
  { intros pg' H. apply step_produce in H.
    split; [eapply step_buffer_ok; eassumption|].
    destruct (step_effect _ _ _ H Hok) as [_ [HR _]]. exact HR. }
  destruct (runGenerator_iter pg) as [| |pg'|pg'|] eqn:Hiter; try discriminate.
  - intros [= <- <-]. split; [|reflexivity].
    apply (step_buffer_ok (AProducerExit t) pg); [constructor|assumption].
  - intros [= <- <-]. split; [assumption|reflexivity].
  - destruct (Hstep pg' eq_refl) as [Hok' HR']. intros H.
    destruct (IH _ _ _ Hok' H) as [Hok1 HR1]. split; [assumption|congruence].
  - destruct (Hstep pg' eq_refl) as [Hok' HR']. intros [= <- <-]. split; [|exact HR'].
    apply (step_buffer_ok (AProducerExit t) pg'); [constructor|assumption].
Qed.

(** The words one consumer receives are counted by the read cursor, a
    [uint64]: there are fewer than [2^64] of them. *)
Lemma consume_length fuel :
  forall burst t alive pg ws pg',
    buffer_ok pg -> consume fuel burst t alive pg = Some (ws, pg') ->
    buffer_ok pg' /\ bufR pg' = bufR pg + Z.of_nat (length ws).
Proof.
  induction fuel as [|fuel IH]; intros burst t alive pg ws pg' Hok; [discriminate|].
  assert (Hpop : forall p w p', buffer_ok p -> bufR p < bufW p ->
            pop p = NextWord w p' -> buffer_ok p' /\ bufR p' = bufR p + 1).
  { intros p w p' Hp Hlt H.
    assert (Hs : step ANextWake p p').
    { apply step_Next_wake. unfold Next_wake.
      destruct (Z.geb_spec (bufR p) (bufW p)); [lia|]. rewrite H. reflexivity. }
    split; [eapply step_buffer_ok; eassumption|].
    unfold pop in H. destruct (buf p !! _); [|discriminate]. injection H as _ <-.
    destruct Hp as [HR HW _ _ _ _]. cbn [bufR with_bufR]. apply wrap64_small. lia. }
  assert (Hrest : forall w p ws' , buffer_ok p ->
            ('(ws1, p1) ← consume fuel burst t alive p; Some (w :: ws1, p1))
            = Some (ws', pg') ->
            buffer_ok pg' /\ bufR pg' = bufR p + Z.of_nat (length ws') - 1).
  { intros w p ws' Hp H.
    destruct (consume fuel burst t alive p) as [[ws1 p1]|] eqn:Hc; [|discriminate].
    cbn in H. injection H as <- <-.
    destruct (IH _ _ _ _ _ _ Hp Hc) as [Hok1 HR1]. split; [assumption|].
    cbn [length]. lia. }
  cbn [consume]. unfold Next.
  destruct (Z.geb_spec (bufR pg) (bufW pg)) as [Hge|Hlt].
  - destruct (running pg); cbn [negb].
    + destruct alive; [|discriminate].
      destruct (produce_burst (S burst) t pg) as [[alive' pg1]|] eqn:Hb; [|discriminate].
      destruct (produce_burst_cursors _ _ _ _ _ Hok Hb) as [Hok1 HR1].
      cbn [mbind option_bind]. destruct (bufW pg1 =? bufW pg); [discriminate|].
      unfold Next_wake. destruct (Z.geb_spec (bufR pg1) (bufW pg1)) as [|Hlt1].
      * intros [= <- <-]. split; [assumption|]. cbn [length]. lia.
      * destruct (pop pg1) as [w p2|p2|p2|] eqn:Hp; try discriminate.
        -- destruct (Hpop _ _ _ Hok1 Hlt1 Hp) as [Hok2 HR2]. intros H.
           assert (Hgoal : buffer_ok pg' /\
                    bufR pg' = bufR p2 + Z.of_nat (length ws) - 1).
           { destruct (consume fuel burst t alive' p2) as [[ws1 p3]|] eqn:Hc;
               [|discriminate].
             cbn in H. injection H as <- <-.
             destruct (IH _ _ _ _ _ _ Hok2 Hc) as [Hok3 HR3]. split; [assumption|].
             cbn [length]. lia. }
           destruct Hgoal as [? ?]. split; [assumption|lia].
        -- unfold pop in Hp. destruct (buf pg1 !! _); discriminate.
    + intros [= <- <-]. split; [assumption|]. cbn [length]. lia.
  - destruct (pop pg) as [w p2|p2|p2|] eqn:Hp.
    + destruct (Hpop _ _ _ Hok Hlt Hp) as [Hok2 HR2]. intros H.
      destruct (Hrest _ _ _ Hok2 H) as [? ?]. split; [assumption|lia].
    + unfold pop in Hp. destruct (buf pg !! _); discriminate.
    + unfold pop in Hp. destruct (buf pg !! _); discriminate.
    + discriminate.
Qed.

(** With a capacity of 0 the consumer and the producer wait for each
    other. *)
Lemma consume_zero_capacity fuel burst t pg :
  running pg = true -> bufR pg = bufW pg -> bufSize pg = 0 ->
  consume fuel burst t true pg = None.
Proof.
  intros Hrun Hcur Hz. destruct fuel as [|fuel]; [reflexivity|].
  cbn [consume]. unfold Next.
  destruct (Z.geb_spec (bufR pg) (bufW pg)); [|lia].
  rewrite Hrun. cbn [negb produce_burst]. unfold runGenerator_iter.
  rewrite Hrun, Hcur, Z.sub_diag, Hz. change (wrap64 0 >=? 0) with true.
  cbn [negb mbind option_bind]. rewrite Z.eqb_refl. reflexivity.
Qed.

(** ** Whole runs through the buffer *)

(** C1 (as amended).  For every configuration [NewWordGen] accepts
    without an initial state, with a requested buffer size of at most
    [2^63] (a capacity that is not 0) and fewer than [2^64] words in all:
    a run from [Run] on hands a single consumer that calls [Next] until
    [io.EOF] exactly the words of the digit sequences of lengths
    [MinLen .. MaxLen], however far the producer runs ahead, and the
    engine has then stopped with [generated] at their number; in every
    interleaving of the operations a word [Next] returns is the one at
    the position of the read cursor.  There are
    [R^MinLen + ... + R^MaxLen] of these words, pairwise distinct, every
    digit sequence in that range occurs (exactly once), and their
    (length, value) ranks run through the lengths in increasing order
    and, within a length, through [0 .. R^L - 1] in increasing order. *)
Theorem full_run_enumerates cfg pg0 t0 :
  NewWordGen cfg = Ok pg0 -> InitialState cfg = [] ->
  BufferSize cfg <= 2 ^ 63 -> total_words pg0 < 2 ^ 64 ->
  exists pg states,
    Run t0 pg0 = Ok pg /\
    states = enumeration (charsetLen pg0) (Z.to_nat (MinLen (config pg0)))
               (Z.to_nat (MaxLen (config pg0))) /\
    (forall burst t1 fuel, (length states < fuel)%nat ->
       exists pg',
         consume fuel burst t1 true pg
         = Some (word_of (charset pg0) <$> states, pg') /\
         running pg' = false /\ bufR pg' = bufW pg' /\
         generated pg' = total_words pg0) /\
    (forall pg1 w pg2, reachable pg0 pg1 ->
       Next pg1 = NextWord w pg2 \/ Next_wake pg1 = NextWord w pg2 ->
       (word_of (charset pg0) <$> states) !! Z.to_nat (bufR pg1) = Some w /\
       bufR pg2 = bufR pg1 + 1) /\
    Z.of_nat (length (word_of (charset pg0) <$> states)) = total_words pg0 /\
    total_words pg0
    = sum_powers (charsetLen pg0) (Z.to_nat (MinLen (config pg0)))
        (Z.to_nat (MaxLen (config pg0))) /\
    NoDup (word_of (charset pg0) <$> states) /\
    (forall s, s ∈ states <->
       (Z.to_nat (MinLen (config pg0)) <= length s
        <= Z.to_nat (MaxLen (config pg0)))%nat /\
       valid_digits (charsetLen pg0) s) /\
    (fun s => (length s, value (charsetLen pg0) s)) <$> states
    = ranks (charsetLen pg0) (Z.to_nat (MinLen (config pg0)))
        (Z.to_nat (MaxLen (config pg0))).
Proof.
  intros Hnew Hnil Hcap Hsum.
  destruct (run_sequence_whole _ _ Hnew Hnil) as [Hseq Hlen].
  destruct (Run_fresh cfg pg0 t0 Hnew) as (pg & Hrun & _).
  pose proof (NewWordGen_Ok _ _ Hnew) as ([Hle [Hmax _] Hne Hnd _] & E & _).
  assert (Hcs : charset pg0 = Charset (effective cfg)) by (rewrite E; reflexivity).
  assert (HR : charsetLen pg0 = Z.of_nat (length (Charset (effective cfg))))
    by (rewrite E; reflexivity).
  assert (Hpos : 0 < charsetLen pg0).
  { rewrite HR. destruct (Charset (effective cfg)); [congruence|simpl length; lia]. }
  assert (Hwords : run_words pg0 = word_of (charset pg0) <$> run_sequence pg0)
    by reflexivity.
  rewrite <- Hseq.
  assert (Helem : forall s, s ∈ run_sequence pg0 <->
            (Z.to_nat (MinLen (config pg0)) <= length s
             <= Z.to_nat (MaxLen (config pg0)))%nat /\
            valid_digits (charsetLen pg0) s).
  { intros s. rewrite Hseq. unfold enumeration. rewrite enumeration_from_elem by assumption.
    assert (Z.to_nat (MinLen (config pg0)) <= Z.to_nat (MaxLen (config pg0)))%nat
      by (rewrite E; cbn [fresh_engine config]; lia).
    split; intros [? ?]; (split; [lia|assumption]). }
  exists pg, (run_sequence pg0). split; [assumption|]. split; [reflexivity|].
  split; [|split; [|split; [|split; [|split; [|split]]]]].
  - intros burst t1 fuel Hfuel.
    destruct (consume_run cfg pg0 Hnew Hcap ltac:(lia) burst t1 t0 fuel)
      as (pg1 & pg' & Hrun1 & Hcons & Hstop & Hcur & _ & Hgen & _).
    { rewrite Hwords, length_fmap. assumption. }
    assert (pg1 = pg) as -> by congruence.
    exists pg'. rewrite <- Hwords. repeat (split; [assumption|]).
    rewrite Hgen, Hwords, length_fmap. assumption.
  - intros pg1 w pg2 Hreach Hnext.
    destruct (Next_delivers _ _ _ _ _ Hnew ltac:(lia) Hreach Hnext) as [Hw ->].
    split; [exact Hw|reflexivity].
  - rewrite length_fmap. assumption.
  - reflexivity.
  - rewrite Hseq, Hcs, HR. apply enumeration_words_NoDup; assumption.
  - exact Helem.
  - rewrite Hseq. apply enumeration_from_ranks. assumption.
Qed.

Lemma full_run_enumerates_witness :
  exists pg0 pg,
    NewWordGen cfg_abc = Ok pg0 /\ Run 1 pg0 = Ok pg /\
    (exists pg', consume 13 3 2 true pg
                 = Some (word_of (bytes "abc") <$> enumeration 3 1 2, pg') /\
       generated pg' = 12) /\
    NoDup (word_of (bytes "abc") <$> enumeration 3 1 2).
Proof.
  assert (Hnew : NewWordGen cfg_abc = Ok (fresh_engine (effective cfg_abc)))
    by (vm_compute; reflexivity).
  destruct (full_run_enumerates cfg_abc _ 1 Hnew eq_refl
              ltac:(vm_compute; discriminate) ltac:(vm_compute; reflexivity))
    as (pg & states & Hrun & -> & Hcons & _ & _ & _ & Hnd & _).
  exists (fresh_engine (effective cfg_abc)), pg.
  split; [exact Hnew|]. split; [exact Hrun|]. split; [|exact Hnd].
  destruct (Hcons 3%nat 2 13%nat ltac:(vm_compute; lia)) as (pg' & Hc & _ & _ & Hgen).
  exists pg'. split; [exact Hc|exact Hgen].
Defined.

(** C1 (as stated) fails on two kinds of valid configuration.  With
    charset "ab" and 65 symbols per word there are [2^65] words, but the
    read cursor is a [uint64]: no consumer receives [2^64] words or more
    from a run.  With a requested buffer size above [2^63] the capacity
    is 0: the consumer and the producer wait for each other, and in no
    reachable state is a word produced or handed out. *)
Lemma full_run_falls_short :
  (exists pg0 pg,
     NewWordGen cfg_ab_len65 = Ok pg0 /\ Run 1 pg0 = Ok pg /\
     total_words pg0 = 2 ^ 65 /\
     forall fuel burst t ws pg',
       consume fuel burst t true pg = Some (ws, pg') ->
       Z.of_nat (length ws) < 2 ^ 64) /\
  (exists pg0 pg,
     NewWordGen cfg_abc_huge = Ok pg0 /\ Run 1 pg0 = Ok pg /\
     total_words pg0 = 12 /\
     (forall fuel burst t, consume fuel burst t true pg = None) /\
     forall pg1, reachable pg0 pg1 ->
       generated pg1 = 0 /\
       forall w pg2, Next pg1 <> NextWord w pg2 /\ Next_wake pg1 <> NextWord w pg2).
Proof.
  split.
  - assert (Hnew : NewWordGen cfg_ab_len65 = Ok (fresh_engine (effective cfg_ab_len65)))
      by (vm_compute; reflexivity).
    destruct (fresh_engine_buffer_ok _ _ Hnew) as [Hok0 _].
    destruct (Run_fresh _ _ 1 Hnew) as (pg & Hrun & _ & _ & _ & _ & _ & _ & _ & HbR & _).
    exists (fresh_engine (effective cfg_ab_len65)), pg.
    split; [exact Hnew|]. split; [exact Hrun|]. split; [reflexivity|].
    intros fuel burst t ws pg' Hcons.
    assert (Hok : buffer_ok pg).
    { apply (step_buffer_ok (ARun 1) (fresh_engine (effective cfg_ab_len65)));
        [apply step_Run; exact Hrun|exact Hok0]. }
    destruct (consume_length _ _ _ _ _ _ _ Hok Hcons) as [[HR _ _ _ _ _] Hlen].
    lia.
  - assert (Hnew : NewWordGen cfg_abc_huge = Ok (fresh_engine (effective cfg_abc_huge)))
      by (vm_compute; reflexivity).
    destruct (Run_fresh _ _ 1 Hnew)
      as (pg & Hrun & _ & _ & _ & _ & _ & _ & Hrunning & HbR & HbW & Hst).
    exists (fresh_engine (effective cfg_abc_huge)), pg.
    split; [exact Hnew|]. split; [exact Hrun|]. split; [reflexivity|].
    assert (Hzero : forall p, reachable (fresh_engine (effective cfg_abc_huge)) p ->
              bufSize p = 0 /\ bufW p = 0 /\ bufR p = 0 /\ generated p = 0).
    { intros p Hp. apply (zero_capacity_idle cfg_abc_huge _ _ Hnew); [|exact Hp].
      split; vm_compute; reflexivity. }
    split.
    + intros fuel burst t. apply consume_zero_capacity; [assumption|lia|].
      apply Hzero. eapply reachable_next; [apply reachable_start|exact I|].
      apply (step_Run 1). exact Hrun.
    + intros p Hp. destruct (Hzero p Hp) as (_ & HW & HR & Hgen).
      split; [exact Hgen|]. intros w p2. unfold Next, Next_wake.
      rewrite HW, HR. cbn. destruct (running p); split; discriminate.
Qed.





(** ** One run from start to end *)

Lemma reachable_if_weaken (allowed : action -> WordGen -> Prop) pg0 pg :
  reachable_if allowed pg0 pg -> reachable pg0 pg.
Proof.
  induction 1 as [|a pg pg' _ IH _ Hstep]; [constructor|].
  eapply reachable_next; [exact IH|exact I|exact Hstep].
Qed.

Lemma run_sequence_lengths cfg pg0 s :
  NewWordGen cfg = Ok pg0 -> 0 <= MinLen cfg -> s ∈ run_sequence pg0 ->
  1 <= Z.of_nat (length s).
Proof.
  intros Hnew Hmin Hs.
  destruct (run_words_spec _ _ Hnew) as [_ Hall].
  destruct (Hall (word_of (charset pg0) s)) as [Hlen _].
  { unfold run_words. apply list_elem_of_fmap_2. exact Hs. }
  unfold word_of in Hlen. rewrite length_fmap in Hlen.
  pose proof (NewWordGen_Ok _ _ Hnew) as (_ & E & _).
  rewrite E in Hlen. cbn [fresh_engine config effective MinLen apply_defaults] in Hlen.
  destruct (Z.eqb_spec (MinLen cfg) 0); unfold defaultMinLen in *; lia.
Qed.

Lemma single_run_phase cfg pg0 pg :
  NewWordGen cfg = Ok pg0 -> 0 <= MinLen cfg ->
  total_words pg0 + 1 < 2 ^ 64 ->
  reachable_if single_run pg0 pg ->
  never_started pg \/ first_run (Z.of_nat (length (run_sequence pg0))) pg.
Proof.
  intros Hnew Hmin Hsmall Hreach.
  induction Hreach as [|a pg pg' Hr IH Hallowed Hstep].
  { left. apply NewWordGen_Ok in Hnew as (_ & -> & _). repeat split. }
  pose proof (reachable_if_weaken _ _ _ Hr) as Hr'.
  destruct (reachable_run _ _ _ Hnew Hsmall Hr') as (_ & Hok & Hst & Hc & Hpos).
  apply static_fields in Hst as (Hcfg & Hcs & Hcl & _ & _ & Hi & _).
  assert (Hmax : 0 <= MaxLen (config pg)).
  { rewrite Hcfg. pose proof (NewWordGen_Ok _ _ Hnew) as ([_ [? _] _ _ _] & -> & _).
    assumption. }
  assert (Hpos' : position (run_sequence pg0) pg').
  { destruct (reachable_run _ _ pg' Hnew Hsmall) as (_ & _ & _ & _ & H); [|exact H].
    eapply reachable_next; [exact Hr'|exact I|exact Hstep]. }
  assert (Hlen1 : forall n s, run_sequence pg0 !! n = Some s -> 1 <= Z.of_nat (length s)).
  { intros n s Hn. eapply run_sequence_lengths; eauto.
    eapply list_elem_of_lookup_2; eassumption. }
  destruct Hstep as [now pg pg' H| | |pg pg' H|now pg|pg pg' H|pg pg' H
                    |words pg pg' H|i count words pg pg' H];
    cbn [single_run] in Hallowed; try contradiction.
  - destruct Hallowed as [Hzero Hnow].
    destruct IH as [(_ & Hrun & _ & _ & Hgen & _)|(_ & _ & Hone & _)]; [|lia].
    unfold Run in H. rewrite Hrun in H.
    destruct (negb _); [discriminate|]. injection H as <-.
    right. unfold first_run. cbn [generated bufW startTime stateLen running endTime].
    split; [assumption|]. split; [assumption|]. split; [|split; [reflexivity|discriminate]].
    destruct Hpos' as [[Hf _]|[(n & s & Hn & [_ Hl _ _ _ _ _] & _)|[_ Hend]]].
    + discriminate Hf.
    + cbn [stateLen] in Hl. rewrite Hl. eapply Hlen1; eassumption.
    + cbn [stateLen config] in Hend. lia.
  - apply runGenerator_iter_idle in H as [->|H]; [exact IH|].
    pose proof (runGenerator_iter_writes _ _ H) as (Hrun & _ & w & _ & Hf).
    frame_fields Hf.
    destruct IH as [(_ & Hf0 & _)|(Hgen & Hstart & _ & Hend & _)]; [congruence|].
    right. unfold first_run.
    split; [congruence|]. split; [congruence|]. split; [|split].
    + destruct Hpos' as [[Hf0 _]|[(n & s & Hn & [_ Hl _ _ _ _ _] & _)|[_ Hend']]].
      * congruence.
      * rewrite Hl. eapply Hlen1; eassumption.
      * replace (config pg') with (config pg) in Hend' by congruence. lia.
    + intros _. replace (endTime pg') with (endTime pg) by congruence. auto.
    + intros Hf0. congruence.
  - destruct Hallowed as [Hexh Hnow].
    destruct IH as [(Hzero & _)|(Hgen & Hstart & Hone & Hend & Hstop)]; [lia|].
    right. unfold first_run, producer_exit.
    cbn [generated bufW startTime stateLen running endTime config with_running with_endTime].
    split; [assumption|]. split; [assumption|]. split; [assumption|].
    split; [discriminate|]. intros _. split; [assumption|]. split; [assumption|].
    destruct (running pg) eqn:Hrun; [|apply Hstop; reflexivity].
    destruct Hpos as [[Hf0 _]|[(n & s & Hn & [_ Hl _ Hb _ _ _] & _)|[Hw _]]];
      [congruence|lia|assumption].
  - apply Next_post in H as [->|[Hlt ->]]; [exact IH|].
    destruct IH as [(_ & _ & HW0 & HR0 & _)|Hfirst]; [lia|]. right. exact Hfirst.
  - apply Next_wake_post in H as [->|[Hlt ->]]; [exact IH|].
    destruct IH as [(_ & _ & HW0 & HR0 & _)|Hfirst]; [lia|]. right. exact Hfirst.
  - unfold Batch in H. destruct (Z.le_gt_cases (bufW pg) (bufR pg)) as [Hle'|Hgt].
    + apply Batch_from_empty in H as ->; auto.
    + destruct Hok as [HR HW _ _ _ _].
      apply Batch_from_post in H as (r & -> & _); [|lia..].
      destruct IH as [(_ & _ & HW0 & HR0 & _)|Hfirst]; [lia|]. right. exact Hfirst.
  - unfold Batch_wake in H. destruct (Z.le_gt_cases (bufW pg) (bufR pg)) as [Hle'|Hgt].
    + apply Batch_from_empty in H as ->; auto.
    + destruct Hok as [HR HW _ _ _ _].
      apply Batch_from_post in H as (r & -> & _); [|lia..].
      destruct IH as [(_ & _ & HW0 & HR0 & _)|Hfirst]; [lia|]. right. exact Hfirst.
Qed.

Lemma run_words_length cfg pg0 :
  NewWordGen cfg = Ok pg0 -> InitialState cfg = [] -> 0 <= MinLen cfg ->
  Z.of_nat (length (run_words pg0)) = total_words pg0.
Proof.
  intros Hnew Hnil Hmin.
  destruct (run_sequence_spec _ _ Hnew) as (before & Henum & _ & _ & _ & _ & Hb).
  rewrite (Hb Hnil Hmin) in Henum. cbn [app] in Henum.
  unfold run_words. rewrite length_fmap, <- Henum.
  pose proof (NewWordGen_Ok _ _ Hnew) as ([Hle [Hmax _] Hne _ _] & E & _).
  unfold total_words, sum_powers, enumeration. rewrite E.
  cbn [fresh_engine charsetLen config].
  apply enumeration_from_length.
  destruct (Charset (effective cfg)); [congruence|simpl length; lia].
Qed.

(** A run that is left alone delivers everything, on an engine whose
    whole enumeration has fewer than [2^64 - 1] words and whose [MinLen]
    is not negative: when [Next] reports [io.EOF] (without having
    waited), either [Run] was never called, or the read cursor has passed
    every word of the run and [Stats] reports their number, with the
    duration [endTime.Sub(startTime)].  Without an initial state that
    number is [R^MinLen + ... + R^MaxLen]. *)
Theorem single_run_complete cfg pg0 pg pg' t :
  NewWordGen cfg = Ok pg0 -> 0 <= MinLen cfg ->
  total_words pg0 + 1 < 2 ^ 64 ->
  reachable_if single_run pg0 pg ->
  Next pg = NextEOF pg' ->
  pg' = pg /\
  (never_started pg /\ Stats t pg = (0, 0) \/
   bufR pg = Z.of_nat (length (run_words pg0)) /\
   bufW pg = Z.of_nat (length (run_words pg0)) /\
   Stats t pg
   = (Z.of_nat (length (run_words pg0)), Sub (endTime pg) (startTime pg))) /\
  (InitialState cfg = [] -> Z.of_nat (length (run_words pg0)) = total_words pg0).
Proof.
  intros Hnew Hmin Hsmall Hreach Hnext.
  assert (Heof : pg' = pg /\ running pg = false /\ bufW pg <= bufR pg).
  { unfold Next in Hnext. destruct (Z.geb_spec (bufR pg) (bufW pg)) as [Hge|Hlt].
    - destruct (running pg); cbn [negb] in Hnext; [discriminate|].
      injection Hnext as <-. repeat split. lia.
    - unfold pop in Hnext. destruct (buf pg !! _); discriminate. }
  destruct Heof as (-> & Hrun & Hge). split; [reflexivity|].
  split; [|intros Hnil; eapply run_words_length; eassumption].
  destruct (reachable_run _ _ _ Hnew Hsmall (reachable_if_weaken _ _ _ Hreach))
    as (_ & _ & _ & Hc & _).
  unfold cursors_ok in Hc. unfold run_words. rewrite length_fmap.
  destruct (single_run_phase _ _ _ Hnew Hmin Hsmall Hreach)
    as [Hnever|(Hgen & Hstart & _ & _ & Hstop)].
  - left. split; [assumption|]. destruct Hnever as (_ & _ & _ & _ & _ & Hstart).
    unfold Stats. rewrite Hstart. reflexivity.
  - right. destruct (Hstop Hrun) as (Hend & _ & HW).
    split; [lia|]. split; [assumption|].
    unfold Stats. rewrite Hstart, Hend, Hgen, HW. reflexivity.
Qed.

(** During a run that is left alone, on an engine whose whole
    enumeration has fewer than [2^64 - 1] words and whose [MinLen] is not
    negative, the count [Stats] reports is the number of words written so
    far, whatever the consumers have taken; the duration is
    [time.Since(startTime)] while the engine runs and
    [endTime.Sub(startTime)] once the producer goroutine has finished. *)
Theorem Stats_single_run cfg pg0 pg t :
  NewWordGen cfg = Ok pg0 -> 0 <= MinLen cfg ->
  total_words pg0 + 1 < 2 ^ 64 ->
  reachable_if single_run pg0 pg ->
  fst (Stats t pg) = bufW pg /\ bufR pg <= fst (Stats t pg) /\
  (never_started pg -> Stats t pg = (0, 0)) /\
  (running pg = true -> snd (Stats t pg) = Since t (startTime pg)) /\
  (running pg = false -> ¬ never_started pg ->
   Stats t pg
   = (Z.of_nat (length (run_words pg0)), Sub (endTime pg) (startTime pg))).
Proof.
  intros Hnew Hmin Hsmall Hreach.
  destruct (reachable_run _ _ _ Hnew Hsmall (reachable_if_weaken _ _ _ Hreach))
    as (_ & _ & _ & Hc & _).
  unfold cursors_ok in Hc. unfold run_words. rewrite length_fmap.
  destruct (single_run_phase _ _ _ Hnew Hmin Hsmall Hreach)
    as [Hnever|(Hgen & Hstart & Hone & Hrunning & Hstop)].
  - pose proof Hnever as (_ & Hrun & HW & HR & _ & Hstart).
    unfold Stats. rewrite Hstart. cbn [IsZero zeroTime Z.eqb fst snd].
    split; [lia|]. split; [lia|]. split; [reflexivity|].
    split; [congruence|]. intros _ Hn. contradiction.
  - unfold Stats. rewrite Hstart.
    assert (Hfst : fst (if IsZero (endTime pg)
                        then (generated pg, Since t (startTime pg))
                        else (generated pg, Sub (endTime pg) (startTime pg)))
                   = bufW pg)
      by (destruct (IsZero (endTime pg)); cbn [fst]; assumption).
    rewrite Hfst. split; [reflexivity|]. split; [lia|]. split; [|split].
    + intros (Hz & _). lia.
    + intros Hrun. rewrite (Hrunning Hrun). reflexivity.
    + intros Hrun _. destruct (Hstop Hrun) as (Hend & _ & HW).
      rewrite Hend, Hgen, HW. reflexivity.
Qed.

(** ** Run-time panics *)

Lemma Batch_from_no_panic todo :
  forall i woken count words pg,
    buffer_ok pg -> Batch_from todo i woken count words pg <> BatchPanic.
Proof.
  induction todo as [|todo IH]; intros i woken count words pg Hok; simpl; [discriminate|].
  destruct (Z.geb_spec (bufR pg) (bufW pg)) as [Hge|Hlt]; cbn [andb].
  - destruct (woken || negb (running pg))%bool; discriminate.
  - destruct (read_slot_exists pg Hok Hlt) as (_ & w & ->).
    apply IH. destruct Hok as [HR HW Hsize Hlen Hmask Hzero].
    constructor; cbn [bufR bufW bufSize buf bufMask with_bufR]; try assumption.
    + apply wrap64_range.
    + intros Hz. specialize (Hzero Hz). lia.
Qed.

(** [Next] and [Batch] never index outside the buffer. *)
Theorem consumers_never_panic cfg pg0 pg :
  NewWordGen cfg = Ok pg0 -> reachable pg0 pg ->
  Next pg <> NextPanic /\ Next_wake pg <> NextPanic /\
  (forall words, Batch words pg <> BatchPanic) /\
  (forall i count words, Batch_wake i count words pg <> BatchPanic).
Proof.
  intros Hnew Hreach.
  destruct (fresh_engine_buffer_ok _ _ Hnew) as [Hok0 _].
  pose proof (reachable_buffer_ok _ _ _ Hok0 Hreach) as Hok.
  assert (Hpop : bufR pg < bufW pg -> pop pg <> NextPanic).
  { intros Hlt. unfold pop.
    destruct (read_slot_exists pg Hok Hlt) as (_ & w & ->). discriminate. }
  unfold Next, Next_wake.
  destruct (Z.geb_spec (bufR pg) (bufW pg)) as [Hge|Hlt].
  - split; [destruct (negb (running pg)); discriminate|]. split; [discriminate|].
    split; intros; apply Batch_from_no_panic; assumption.
  - split; [auto|]. split; [auto|].
    split; intros; apply Batch_from_no_panic; assumption.
Qed.

(** The counter of a reachable state is valid, or exhausted. *)
Lemma reachable_counter cfg pg0 pg :
  NewWordGen cfg = Ok pg0 -> reachable pg0 pg ->
  (exists s, counter_at pg s) \/ stateLen pg = MaxLen (config pg) + 1.
Proof.
  intros Hnew Hreach.
  destruct (fresh_engine_buffer_ok _ _ Hnew) as [Hok0 _].
  pose proof (NewWordGen_Ok _ _ Hnew) as (Hacc & Hfresh & _).
  pose proof (accepted_initial_digits _ Hacc) as (Hhi & _ & Hv).
  destruct Hacc as [Hle [Hmax Halloc] Hne Hnd _].
  pose proof (NoDup_bytes_length _ Hnd) as H256.
  assert (Hpos : 0 < Z.of_nat (length (Charset (effective cfg)))).
  { destruct (Charset (effective cfg)); [congruence|simpl length; lia]. }
  induction Hreach as [|a pg pg' Hr IH _ Hstep].
  { left. exists []. rewrite Hfresh.
    constructor; cbn [fresh_engine state stateLen charsetLen charset config length];
      try reflexivity; try assumption; try lia. constructor. }
  pose proof (reachable_static _ _ _ Hok0 Hr) as Hst.
  apply static_fields in Hst as (Hcfg & Hcs & Hcl & _ & _ & Hi & _).
  rewrite Hfresh in Hcfg, Hcs, Hcl, Hi.
  cbn [fresh_engine config charset charsetLen initialState] in *.
  assert (Hsame : forall pg1, state pg1 = state pg -> stateLen pg1 = stateLen pg ->
            charsetLen pg1 = charsetLen pg -> charset pg1 = charset pg ->
            config pg1 = config pg ->
            (exists s, counter_at pg1 s) \/ stateLen pg1 = MaxLen (config pg1) + 1).
  { intros pg1 E1 E2 E3 E4 E5. destruct IH as [[s Hat]|Hend].
    - left. exists s. eapply counter_at_same_counter; eauto.
    - right. congruence. }
  destruct Hstep as [now pg pg' H| | |pg pg' H| |pg pg' H|pg pg' H
                    |words pg pg' H|i count words pg pg' H].
  - unfold Run in H. destruct (running pg); [discriminate|].
    destruct (negb _); [discriminate|]. injection H as <-.
    left. exists (initial_digits (effective cfg)).
    constructor; cbn [state stateLen charsetLen charset config];
      rewrite ?Hi, ?Hcl, ?Hcs, ?Hcfg; try assumption; try reflexivity; lia.
  - apply Hsame; reflexivity.
  - apply Hsame; reflexivity.
  - apply runGenerator_iter_idle in H as [->|H]; [exact IH|].
    pose proof (runGenerator_iter_writes _ _ H) as (_ & _ & w & Henc & _).
    destruct IH as [[s Hat]|Hend].
    + assert (Hnext : exists pg1, counter_at pg1 s /\ config pg1 = config pg /\
                (nextState pg1 = Advanced pg' \/ nextState pg1 = Exhausted pg')).
      { destruct H as [H|H];
          apply runGenerator_iter_nextState in H as (pg1 & ? & ? & ? & ? & ? & Hadv);
          exists pg1; (split; [eapply counter_at_same_counter; eauto|]); auto. }
      destruct Hnext as (pg1 & Hat1 & Hcfg1 & Hadv).
      pose proof (nextState_next_digits pg1 s Hat1) as Hnd1.
      destruct (next_digits _ _ s) as [s'|].
      * destruct Hnd1 as (pg2 & Hadv2 & Hat2).
        left. exists s'. destruct Hadv; congruence.
      * destruct Hnd1 as (pg2 & Hadv2 & Hf2 & _ & Hend2).
        right. destruct Hadv as [Hadv|Hadv]; [congruence|].
        assert (pg2 = pg') as -> by congruence.
        rewrite Hend2. f_equal. unfold frame in Hf2. congruence.
    + rewrite encode_exhausted in Henc; [discriminate|assumption|].
      rewrite Hcfg. unfold maxAlloc, sizeof_uint in *. lia.
  - apply Hsame; reflexivity.
  - apply Next_post in H as [->|[_ ->]]; [exact IH|]. apply Hsame; reflexivity.
  - apply Next_wake_post in H as [->|[_ ->]]; [exact IH|]. apply Hsame; reflexivity.
  - unfold Batch in H. destruct (Z.le_gt_cases (bufW pg) (bufR pg)) as [Hle'|Hgt].
    + apply Batch_from_empty in H as ->; auto.
    + pose proof (reachable_buffer_ok _ _ _ Hok0 Hr) as [HR HW _ _ _ _].
      apply Batch_from_post in H as (r & -> & _); [|lia..]. apply Hsame; reflexivity.
  - unfold Batch_wake in H. destruct (Z.le_gt_cases (bufW pg) (bufR pg)) as [Hle'|Hgt].
    + apply Batch_from_empty in H as ->; auto.
    + pose proof (reachable_buffer_ok _ _ _ Hok0 Hr) as [HR HW _ _ _ _].
      apply Batch_from_post in H as (r & -> & _); [|lia..]. apply Hsame; reflexivity.
Qed.

(** One iteration of the producer loop panics in a reachable state
    exactly when it runs, with room in the buffer, after the counter has
    been exhausted: the reslice of the slot to [pg.stateLen] is then beyond
    its capacity.  [runGenerator] returns at exhaustion, so its
    own loop does not get there. *)
Theorem producer_panics_iff cfg pg0 pg :
  NewWordGen cfg = Ok pg0 -> reachable pg0 pg ->
  (runGenerator_iter pg = IterPanic <->
   running pg = true /\ wrap64 (bufW pg - bufR pg) < bufSize pg /\
   stateLen pg = MaxLen (config pg) + 1).
Proof.
  intros Hnew Hreach.
  destruct (fresh_engine_buffer_ok _ _ Hnew) as [Hok0 _].
  pose proof (reachable_buffer_ok _ _ _ Hok0 Hreach) as Hok.
  pose proof (reachable_static _ _ _ Hok0 Hreach) as Hst.
  apply static_fields in Hst as (Hcfg & _).
  assert (Hmax : 0 <= MaxLen (config pg) < 2 ^ 63 - 1).
  { rewrite Hcfg. pose proof (NewWordGen_Ok _ _ Hnew) as ([_ [? ?] _ _ _] & -> & _).
    cbn [fresh_engine config]. unfold maxAlloc, sizeof_uint in *. lia. }
  split.
  - intros Hpanic.
    destruct (running pg) eqn:Hrun;
      [|unfold runGenerator_iter in Hpanic; rewrite Hrun in Hpanic; discriminate].
    destruct (Z.lt_ge_cases (wrap64 (bufW pg - bufR pg)) (bufSize pg)) as [Hgate|Hfull].
    + split; [reflexivity|]. split; [assumption|].
      destruct (reachable_counter _ _ _ Hnew Hreach) as [[s Hat]|Hend]; [|assumption].
      exfalso.
      destruct (runGenerator_iter_counter pg s Hat Hok Hrun Hgate) as (pg' & _ & Hiter).
      destruct (next_digits _ _ s); [destruct Hiter|]; congruence.
    + unfold runGenerator_iter in Hpanic. rewrite Hrun in Hpanic. cbn [negb] in Hpanic.
      destruct (Z.geb_spec (wrap64 (bufW pg - bufR pg)) (bufSize pg)); [discriminate|lia].
  - intros (Hrun & Hgate & Hend). unfold runGenerator_iter.
    rewrite Hrun. cbn [negb].
    destruct (Z.geb_spec (wrap64 (bufW pg - bufR pg)) (bufSize pg)); [lia|].
    rewrite (encode_exhausted pg Hend Hmax).
    destruct (buf pg !! _); reflexivity.
Qed.

(** ** The capacity in use *)

(** With a request of at most [2^63] the capacity is a positive power of
    two and the mask computes the cursor modulo the capacity: the slot of
    cursor value [c] is slot [c mod bufSize]. *)
Theorem mask_is_modulo cfg pg0 pg c :
  NewWordGen cfg = Ok pg0 -> BufferSize cfg <= 2 ^ 63 ->
  reachable pg0 pg ->
  0 < bufSize pg /\ Z.land c (bufMask pg) = c mod bufSize pg /\
  (Z.to_nat (Z.land c (bufMask pg)) < length (buf pg))%nat.
Proof.
  intros Hnew Hbuf Hreach.
  destruct (fresh_engine_buffer_ok _ _ Hnew) as [Hok0 _].
  pose proof (reachable_buffer_ok _ _ _ Hok0 Hreach) as [_ _ _ Hlen _ _].
  pose proof (reachable_static _ _ _ Hok0 Hreach) as Hst.
  apply static_fields in Hst as (_ & _ & _ & Hsz & Hmk & _).
  destruct (capacity_shape _ _ Hnew ltac:(lia)) as [[_ Hgt]|(k & Hk & Ek & Emask & _)];
    [lia|].
  rewrite Hsz, Hmk, Ek, Emask, Hlen, Hsz, Ek.
  assert (0 < 2 ^ k) by (apply Z.pow_pos_nonneg; lia).
  split; [assumption|]. rewrite Z.land_ones by assumption.
  split; [reflexivity|]. pose proof (Z.mod_pos_bound c (2 ^ k)). lia.
Qed.

(** A request above [2^63] gives an engine of capacity 0, which never
    produces: the producer loop finds the buffer full in every state, no
    word is written or counted, and [Next] has nothing to return. *)
Theorem zero_capacity cfg pg0 pg :
  NewWordGen cfg = Ok pg0 -> 2 ^ 63 < BufferSize cfg < 2 ^ 64 ->
  reachable pg0 pg ->
  bufSize pg = 0 /\ bufW pg = 0 /\ bufR pg = 0 /\ generated pg = 0 /\
  (running pg = true -> runGenerator_iter pg = IterFull) /\
  (forall w pg', Next pg <> NextWord w pg' /\ Next_wake pg <> NextWord w pg').
Proof.
  intros Hnew Hbuf Hreach.
  destruct (zero_capacity_idle _ _ _ Hnew Hbuf Hreach) as (Hz & HW & HR & Hgen).
  split; [assumption|]. split; [assumption|]. split; [assumption|].
  split; [assumption|]. split.
  - intros Hrun. unfold runGenerator_iter. rewrite Hrun, HW, HR, Hz. reflexivity.
  - intros w pg'. unfold Next, Next_wake. rewrite HW, HR. cbn.
    destruct (running pg); split; discriminate.
Qed.

(** The ring takes a slot back as soon as it has been read.  On an
    engine of a capacity that is not 0 whose whole enumeration has fewer
    than [2^64 - 1] words: when [Next] pops a word from a full buffer,
    with the engine running and the counter not exhausted, the next
    iteration of the producer writes the following word of the run, a
    different one, into the slot whose contents [Next] returned. *)
Theorem Next_slot_reused cfg pg0 pg w pg1 :
  NewWordGen cfg = Ok pg0 -> BufferSize cfg <= 2 ^ 63 ->
  total_words pg0 + 1 < 2 ^ 64 ->
  reachable pg0 pg ->
  Next pg = NextWord w pg1 ->
  bufW pg - bufR pg = bufSize pg -> running pg = true ->
  stateLen pg <= MaxLen (config pg) ->
  exists w' pg2,
    (runGenerator_iter pg1 = IterWrote pg2 \/ runGenerator_iter pg1 = IterDone pg2) /\
    run_words pg0 !! Z.to_nat (bufW pg) = Some w' /\
    buf pg1 !! Z.to_nat (Z.land (bufR pg) (bufMask pg)) = Some w /\
    buf pg2 !! Z.to_nat (Z.land (bufR pg) (bufMask pg)) = Some w' /\
    w' <> w.
Proof.
  intros Hnew Hbuf Hsmall Hreach Hnext Hfull Hrun Hlive.
  pose proof (reachable_slots _ _ _ Hnew ltac:(lia) Hsmall Hreach) as Hs.
  destruct (reachable_run _ _ _ Hnew Hsmall Hreach) as (_ & Hok & Hst & Hc & Hpos).
  apply static_fields in Hst as (_ & Hcs & _ & Hsz & Hmk & _).
  pose proof Hok as [HR HW _ Hlen _ _]. unfold cursors_ok in Hc.
  destruct (capacity_shape _ _ Hnew ltac:(lia)) as [[_ Hgt]|(k & Hk & Ek & Emask & _)];
    [lia|].
  rewrite <- Hsz in Ek. rewrite <- Hmk in Emask.
  assert (Hpow : 0 < 2 ^ k) by (apply Z.pow_pos_nonneg; lia).
  assert (Hland : forall x, Z.land x (bufMask pg) = x mod bufSize pg).
  { intros x. rewrite Emask, Ek. apply Z.land_ones. assumption. }
  assert (Hlt : bufR pg < bufW pg) by lia.
  assert (Hpop : pop pg = NextWord w pg1).
  { unfold Next in Hnext. destruct (Z.geb_spec (bufR pg) (bufW pg)); [lia|assumption]. }
  destruct (Hs (bufR pg) ltac:(lia)) as (sR & HsR & Hslot).
  unfold pop in Hpop. rewrite Hslot in Hpop. injection Hpop as <- <-.
  destruct Hpos as [[Hf _]|[(n & s & Hn & Hat & Hw)|[_ Hend]]]; [congruence| |lia].
  set (pg1 := with_bufR (wrap64 (bufR pg + 1)) pg).
  assert (Hok1 : buffer_ok pg1).
  { apply (step_buffer_ok ANext pg); [|assumption].
    apply step_Next. unfold Next, pop.
    destruct (Z.geb_spec (bufR pg) (bufW pg)); [lia|]. rewrite Hslot. reflexivity. }
  assert (Hat1 : counter_at pg1 s)
    by (apply (counter_at_same_counter pg); [assumption|reflexivity..]).
  assert (HR1 : bufR pg1 = bufR pg + 1)
    by (subst pg1; cbn [bufR with_bufR]; apply wrap64_small; lia).
  destruct (runGenerator_iter_counter pg1 s Hat1 Hok1 Hrun) as (pg2 & Hf & Hiter).
  { rewrite HR1. change (bufW pg1) with (bufW pg). change (bufSize pg1) with (bufSize pg).
    rewrite wrap64_small; lia. }
  frame_fields Hf.
  change (bufW pg1) with (bufW pg) in *. change (bufMask pg1) with (bufMask pg) in *.
  change (buf pg1) with (buf pg) in *. change (charset pg1) with (charset pg) in *.
  exists (word_of (charset pg) s), pg2.
  split; [destruct (next_digits _ _ s); [left|right]; tauto|].
  split; [unfold run_words; rewrite list_lookup_fmap, Hw, Nat2Z.id, Hn, Hcs; reflexivity|].
  split; [assumption|]. split.
  - replace (buf pg2) with
      (<[Z.to_nat (Z.land (bufW pg) (bufMask pg)) := word_of (charset pg) s]> (buf pg))
      by congruence.
    rewrite !Hland.
    replace (bufW pg) with (bufR pg + 1 * bufSize pg) by lia.
    rewrite Z.mod_add by lia.
    apply list_lookup_insert_eq. rewrite Hlen.
    pose proof (Z.mod_pos_bound (bufR pg) (bufSize pg)). lia.
  - intros Heq.
    destruct (run_words_spec _ _ Hnew) as [Hnodup _].
    assert (HwR : run_words pg0 !! Z.to_nat (bufR pg) = Some (word_of (charset pg) sR))
      by (unfold run_words; rewrite list_lookup_fmap, HsR, Hcs; reflexivity).
    assert (HwW : run_words pg0 !! n = Some (word_of (charset pg) sR))
      by (unfold run_words; rewrite list_lookup_fmap, Hn, <- Hcs;
          exact (f_equal Some Heq)).
    pose proof (NoDup_lookup _ _ _ _ Hnodup HwR HwW). lia.
Qed.

(** ** The counter as a number *)

Lemma incr_value R ds ds' :
  valid_digits R ds -> incr R ds = Some ds' -> value R ds' = value R ds + 1.
Proof.
  unfold valid_digits. revert ds'.
  induction ds as [|d ds IH]; intros ds' Hv; simpl; [discriminate|].
  apply Forall_cons in Hv as [Hd Hv].
  destruct (Z.ltb_spec (d + 1) R).
  - intros [= <-]. simpl. lia.
  - destruct (incr R ds) as [ds1|]; simpl; [|discriminate].
    intros [= <-]. simpl. rewrite (IH ds1 Hv eq_refl). lia.
Qed.

(** [nextState], when it returns [nil]: it adds one to the number the
    digits denote (digit 0 least significant) and keeps the length, or,
    when every digit is [R - 1], moves to the all-zero state one digit
    longer. *)
Theorem nextState_adds_one pg ds pg' :
  counter_at pg ds -> nextState pg = Advanced pg' ->
  counter_at pg' (state pg') /\ frame pg' = frame pg /\
  (length (state pg') = length ds /\
   value (charsetLen pg) (state pg') = value (charsetLen pg) ds + 1 \/
   ds = replicate (length ds) (charsetLen pg - 1) /\
   state pg' = replicate (S (length ds)) 0).
Proof.
  intros Hat Hadv.
  pose proof (nextState_next_digits pg ds Hat) as Hnd.
  pose proof (nextState_frame pg) as Hf. rewrite Hadv in Hf.
  pose proof Hat as [_ _ Hv _ _ [Hpos _] _].
  unfold next_digits in Hnd.
  destruct (incr (charsetLen pg) ds) as [ds'|] eqn:Hincr.
  - destruct Hnd as (pg2 & Hadv2 & Hat2).
    assert (pg2 = pg') as -> by congruence.
    pose proof Hat2 as [<- _ _ _ _ _ _].
    split; [assumption|]. split; [assumption|]. left.
    destruct (incr_Some _ Hpos _ _ Hv Hincr) as [_ Hlen].
    split; [assumption|]. apply incr_value; assumption.
  - destruct (Nat.ltb_spec (Z.to_nat (MaxLen (config pg))) (S (length ds))).
    + destruct Hnd as (pg2 & Hadv2 & _). congruence.
    + destruct Hnd as (pg2 & Hadv2 & Hat2).
      assert (pg2 = pg') as -> by congruence.
      pose proof Hat2 as [Hst _ _ _ _ _ _].
      split; [rewrite Hst; assumption|]. split; [assumption|]. right.
      split; [|assumption]. apply incr_None; assumption.
Qed.

(** ** After a stop *)

Lemma reachable_trans (allowed : action -> WordGen -> Prop) pg0 pg pg2 :
  reachable pg0 pg -> reachable_if allowed pg pg2 -> reachable pg0 pg2.
Proof.
  intros H0. induction 1 as [|a pg1 pg2 _ IH _ Hstep]; [assumption|].
  eapply reachable_next; [exact IH|exact I|exact Hstep].
Qed.

(** Once the running flag is cleared (by [Stop], by the cancellation of
    the context or at the end of the run) and until [Run] is called
    again, nothing more is produced: the write cursor, the count and the
    buffer stay as they are, the producer loop returns at its next
    iteration, and [Next] ends with [io.EOF] once the read cursor has
    caught up. *)
Theorem stopped_stays_stopped cfg pg0 pg pg2 :
  NewWordGen cfg = Ok pg0 -> reachable pg0 pg -> running pg = false ->
  reachable_if no_restart pg pg2 ->
  running pg2 = false /\ bufW pg2 = bufW pg /\ generated pg2 = generated pg /\
  buf pg2 = buf pg /\ state pg2 = state pg /\
  runGenerator_iter pg2 = IterStopped /\
  (bufW pg2 <= bufR pg2 -> Next pg2 = NextEOF pg2).
Proof.
  intros Hnew Hreach Hrun Hcont.
  destruct (fresh_engine_buffer_ok _ _ Hnew) as [Hok0 _].
  assert (Hinv : running pg2 = false /\ bufW pg2 = bufW pg /\
                 generated pg2 = generated pg /\ buf pg2 = buf pg /\
                 state pg2 = state pg).
  { induction Hcont as [|a pg1 pg2 Hr IH Hallowed Hstep]; [repeat split; assumption|].
    destruct IH as (Hrun1 & HW1 & Hgen1 & Hbuf1 & Hst1).
    pose proof (reachable_buffer_ok _ _ _ Hok0 (reachable_trans _ _ _ _ Hreach Hr))
      as [HR HW _ _ _ _].
    destruct Hstep as [now pg1 pg2 H| | |pg1 pg2 H| |pg1 pg2 H|pg1 pg2 H
                      |words pg1 pg2 H|i count words pg1 pg2 H];
      cbn [no_restart] in Hallowed; try contradiction;
      try (repeat split; assumption).
    - unfold runGenerator_iter in H. rewrite Hrun1 in H. cbn in H.
      injection H as <-. repeat split; assumption.
    - apply Next_post in H as [->|[_ ->]]; repeat split; assumption.
    - apply Next_wake_post in H as [->|[_ ->]]; repeat split; assumption.
    - unfold Batch in H. destruct (Z.le_gt_cases (bufW pg1) (bufR pg1)).
      + apply Batch_from_empty in H as ->; [repeat split; assumption|lia].
      + apply Batch_from_post in H as (r & -> & _); [|lia..]. repeat split; assumption.
    - unfold Batch_wake in H. destruct (Z.le_gt_cases (bufW pg1) (bufR pg1)).
      + apply Batch_from_empty in H as ->; [repeat split; assumption|lia].
      + apply Batch_from_post in H as (r & -> & _); [|lia..]. repeat split; assumption. }
  destruct Hinv as (Hrun2 & HW2 & Hgen2 & Hbuf2 & Hst2).
  repeat (split; [assumption|]). split.
  - unfold runGenerator_iter. rewrite Hrun2. reflexivity.
  - intros Hle. unfold Next. destruct (Z.geb_spec (bufR pg2) (bufW pg2)); [|lia].
    rewrite Hrun2. reflexivity.
Qed.

(** ** The example program *)

Lemma lengthCombinations_loop_pow n R acc :
  lengthCombinations_loop n R acc = acc * R ^ Z.of_nat n.
Proof.
  revert acc. induction n as [|n IH]; intros acc; simpl lengthCombinations_loop.
  - change (Z.of_nat 0) with 0. rewrite Z.pow_0_r. lia.
  - rewrite IH, Nat2Z.inj_succ, Z.pow_succ_r by lia. lia.
Qed.

Lemma theoretical_loop_sum R maxLen k :
  forall fuel length acc,
    0 <= length -> length + Z.of_nat k = maxLen + 1 -> maxLen < 2 ^ 64 - 1 ->
    (k <= fuel)%nat ->
    theoretical_loop fuel length maxLen R acc
    = Some (acc + foldr Z.add 0 ((fun L => R ^ Z.of_nat L) <$> seq (Z.to_nat length) k)).
Proof.
  induction k as [|k IH]; intros fuel length acc Hlen Hk Hmax Hfuel.
  - destruct fuel; simpl; (destruct (Z.leb_spec length maxLen); [lia|]);
      rewrite Z.add_0_r; reflexivity.
  - destruct fuel as [|fuel]; [lia|]. simpl theoretical_loop.
    destruct (Z.leb_spec length maxLen); [|lia].
    rewrite wrap64_small by lia.
    rewrite IH by lia.
    rewrite lengthCombinations_loop_pow, Z.mul_1_l.
    replace (Z.to_nat (length + 1)) with (S (Z.to_nat length)) by lia.
    cbn [seq fmap list_fmap foldr]. f_equal. lia.
Qed.

(** For flags with [1 <= min <= max], the "theoretical total" the
    example prints is [R^min + ... + R^max]; its buffer of [8e6] becomes
    8388608 slots; and when that total is below [2^64], it is the number
    of words a single consumer receives through [Next] from the generator
    the example builds, and the count of the engine when the run is
    over. *)
Theorem example_theoretical_total charset minLen maxLen cfg pg0 fuel :
  1 <= minLen -> maxLen < 2 ^ 64 - 1 ->
  main_config charset minLen maxLen = Some cfg ->
  NewWordGen cfg = Ok pg0 ->
  (Z.to_nat (maxLen - minLen + 1) <= fuel)%nat ->
  theoretical_total fuel charset minLen maxLen = Some (total_words pg0) /\
  bufSize pg0 = 8388608 /\
  (total_words pg0 < 2 ^ 64 ->
   forall burst t0 t1,
   exists pg ws pg',
     Run t0 pg0 = Ok pg /\
     consume (S (Z.to_nat (total_words pg0))) burst t1 true pg = Some (ws, pg') /\
     Z.of_nat (length ws) = total_words pg0 /\
     running pg' = false /\ generated pg' = total_words pg0).
Proof.
  intros Hmin Hmax Hcfg Hnew Hfuel.
  unfold main_config in Hcfg.
  destruct (Z.gtb_spec minLen maxLen) as [|Hle]; [discriminate|].
  destruct (Z.eqb_spec (Z.of_nat (length charset)) 0) as [|Hne]; [discriminate|].
  injection Hcfg as <-.
  pose proof (NewWordGen_Ok _ _ Hnew) as (_ & E & _).
  assert (Hcs : Charset (apply_defaults (mkConfig charset [] minLen maxLen bufferSize))
                = charset).
  { unfold apply_defaults. cbn [Charset]. destruct charset; [simpl in Hne; lia|reflexivity]. }
  split; [|split].
  - unfold theoretical_total, total_words, sum_powers. rewrite E.
    cbn [fresh_engine charsetLen config effective MinLen MaxLen Charset].
    rewrite Hcs. unfold apply_defaults. cbn [MinLen MaxLen].
    destruct (Z.eqb_spec minLen 0); [lia|]. destruct (Z.eqb_spec maxLen 0); [lia|].
    rewrite (theoretical_loop_sum _ maxLen (Z.to_nat (maxLen - minLen + 1))) by lia.
    rewrite Z.add_0_l. do 4 f_equal. lia.
  - rewrite E. cbn [fresh_engine bufSize effective BufferSize apply_defaults].
    reflexivity.
  - intros Hsum burst t0 t1.
    destruct (run_sequence_whole _ _ Hnew eq_refl) as [_ Hlen].
    destruct (consume_run _ pg0 Hnew ltac:(cbn [BufferSize]; unfold bufferSize; lia)
                ltac:(lia) burst t1 t0 (S (Z.to_nat (total_words pg0))))
      as (pg & pg' & Hrun & Hcons & Hstop & _ & _ & Hgen & _).
    { unfold run_words. rewrite length_fmap. lia. }
    exists pg, (run_words pg0), pg'.
    split; [assumption|]. split; [assumption|].
    unfold run_words in *. rewrite length_fmap in *.
    split; [assumption|]. split; [assumption|]. lia.
Qed.

(** ** Before the first start *)

(** The engine [NewWordGen] returns has not started: it is not running,
    its buffer is empty, nothing is counted, and its initial state
    decodes to the word supplied as [InitialState] (or, without one, to
    [MinLen] times the first symbol).  Used before [Run], [Next] returns
    [io.EOF] at once, [Batch] returns 0 and leaves [words] alone, [Stats]
    returns zeros and the producer loop would return at once. *)
Theorem fresh_engine_behaviour cfg pg t words :
  NewWordGen cfg = Ok pg ->
  running pg = false /\ bufR pg = 0 /\ bufW pg = 0 /\ generated pg = 0 /\
  Z.of_nat (length (buf pg)) = bufSize pg /\
  word_of (charset pg) (initialState pg)
  = match InitialState cfg with
    | [] => replicate (Z.to_nat (MinLen (config pg))) (charset pg !!! 0%nat)
    | _ => InitialState cfg
    end /\
  Next pg = NextEOF pg /\ Batch words pg = BatchDone 0 words pg /\
  Stats t pg = (0, 0) /\ runGenerator_iter pg = IterStopped.
Proof.
  intros Hnew. pose proof (NewWordGen_Ok _ _ Hnew) as (Hacc & -> & Hmk).
  apply make_ok_true in Hmk.
  cbn [fresh_engine running bufR bufW generated buf bufSize charset initialState config]
    in *.
  repeat (split; [reflexivity|]).
  split; [rewrite length_replicate; lia|]. split; [|split; [reflexivity|split]].
  - unfold initial_digits. destruct Hacc as [_ _ _ _ Hinit].
    assert (Hi : InitialState (effective cfg) = InitialState cfg) by reflexivity.
    rewrite Hi in *. destruct (InitialState cfg) as [|x w] eqn:E.
    + unfold word_of. rewrite fmap_replicate. reflexivity.
    + apply word_of_IndexByte. apply Hinit. discriminate.
  - unfold Batch. destruct words as [|w words]; [reflexivity|]. reflexivity.
  - split; reflexivity.
Qed.

Lemma fresh_engine_behaviour_witness :
  let pg := engine_of cfg_abc_from_ba in
  NewWordGen cfg_abc_from_ba = Ok pg /\
  running pg = false /\ bufR pg = 0 /\ bufW pg = 0 /\ generated pg = 0 /\
  Z.of_nat (length (buf pg)) = bufSize pg /\
  word_of (charset pg) (initialState pg) = bytes "ba" /\
  Next pg = NextEOF pg /\ Batch [bytes "x"] pg = BatchDone 0 [bytes "x"] pg /\
  Stats 5 pg = (0, 0) /\ runGenerator_iter pg = IterStopped.
Proof.
  cbv zeta. split; [vm_compute; reflexivity|].
  apply (fresh_engine_behaviour cfg_abc_from_ba (engine_of cfg_abc_from_ba) 5 [bytes "x"]).
  vm_compute. reflexivity.
Defined.

(** ** Instances of the further properties *)

Lemma mask_is_modulo_witness :
  let pg0 := engine_of cfg_abc in
  let pg := after [ARun 1; AProduce] pg0 in
  0 < bufSize pg /\ Z.land 11 (bufMask pg) = 11 mod bufSize pg /\
  (Z.to_nat (Z.land 11 (bufMask pg)) < length (buf pg))%nat.
Proof.
  cbv zeta. apply (mask_is_modulo cfg_abc (engine_of cfg_abc)).
  - vm_compute. reflexivity.
  - vm_compute. discriminate.
  - apply (exec_all_reachable [ARun 1; AProduce]). vm_compute. reflexivity.
Defined.

Lemma zero_capacity_witness :
  let pg0 := engine_of cfg_abc_huge in
  let pg := after [ARun 1; AProduce; ANext] pg0 in
  NewWordGen cfg_abc_huge = Ok pg0 /\
  bufSize pg = 0 /\ bufW pg = 0 /\ bufR pg = 0 /\ generated pg = 0 /\
  (running pg = true -> runGenerator_iter pg = IterFull) /\
  (forall w pg', Next pg <> NextWord w pg' /\ Next_wake pg <> NextWord w pg').
Proof.
  cbv zeta. split; [vm_compute; reflexivity|].
  apply (zero_capacity cfg_abc_huge (engine_of cfg_abc_huge)).
  - vm_compute. reflexivity.
  - split; vm_compute; reflexivity.
  - apply (exec_all_reachable [ARun 1; AProduce; ANext]). vm_compute. reflexivity.
Defined.


Lemma Batch_in_order_witness :
  let pg0 := engine_of cfg_abc in
  let pg := after [ARun 1; AProduce; AProduce; AProduce; ANext; AStop] pg0 in
  let words := [bytes "x"; bytes "y"; bytes "z"] in
  let words' := [bytes "b"; bytes "c"; bytes "z"] in
  let pg' := after [ABatch words] pg in
  Batch words pg = BatchDone 2 words' pg' /\
  0 <= 2 <= Z.of_nat (length words) /\
  bufR pg' = bufR pg + 2 /\ bufW pg' = bufW pg /\
  length words' = length words /\
  take (Z.to_nat 2) words'
  = take (Z.to_nat 2) (drop (Z.to_nat (bufR pg)) (run_words pg0)) /\
  drop (Z.to_nat 2) words' = drop (Z.to_nat 2) words /\
  (2 < Z.of_nat (length words) -> running pg = false /\ bufR pg' = bufW pg).
Proof.
  cbv zeta. split; [vm_compute; reflexivity|].
  apply (Batch_in_order cfg_abc (engine_of cfg_abc)).
  - vm_compute. reflexivity.
  - vm_compute. reflexivity.
  - vm_compute. reflexivity.
  - apply (exec_all_reachable [ARun 1; AProduce; AProduce; AProduce; ANext; AStop]).
    vm_compute. reflexivity.
  - vm_compute. reflexivity.
Defined.

Lemma Next_word_length_witness :
  let pg0 := engine_of cfg_abc in
  let pg := after [ARun 1; AProduce; AProduce; ANext] pg0 in
  Next pg = NextWord (bytes "b") (after [ANext] pg) /\
  MinLen (config pg) <= Z.of_nat (length (bytes "b")) <= MaxLen (config pg) /\
  Forall (fun x => x ∈ charset pg) (bytes "b").
Proof.
  cbv zeta. split; [vm_compute; reflexivity|].
  apply (Next_word_length cfg_abc (engine_of cfg_abc) _ _
           (after [ARun 1; AProduce; AProduce; ANext; ANext] (engine_of cfg_abc))).
  - vm_compute. reflexivity.
  - vm_compute. reflexivity.
  - apply (exec_all_reachable [ARun 1; AProduce; AProduce; ANext]). vm_compute. reflexivity.
  - left. vm_compute. reflexivity.
Defined.

Lemma Batch_distinct_witness :
  let pg0 := engine_of cfg_abc in
  let pg := after [ARun 1; AProduce; AProduce; AProduce] pg0 in
  let words := [bytes "x"; bytes "y"; bytes "z"] in
  let words' := [bytes "a"; bytes "b"; bytes "c"] in
  Batch words pg = BatchDone 3 words' (after [ABatch words] pg) /\
  NoDup (take (Z.to_nat 3) words').
Proof.
  cbv zeta. split; [vm_compute; reflexivity|].
  apply (Batch_distinct cfg_abc (engine_of cfg_abc)
           (after [ARun 1; AProduce; AProduce; AProduce] (engine_of cfg_abc))
           [bytes "x"; bytes "y"; bytes "z"] 3 _
           (after [ARun 1; AProduce; AProduce; AProduce; ABatch [[]; []; []]]
              (engine_of cfg_abc))).
  - vm_compute. reflexivity.
  - vm_compute. reflexivity.
  - vm_compute. reflexivity.
  - apply (exec_all_reachable [ARun 1; AProduce; AProduce; AProduce]). vm_compute. reflexivity.
  - vm_compute. reflexivity.
Defined.

Lemma Next_slot_reused_witness :
  let pg0 := engine_of cfg_ab_len1 in
  let pg := after [ARun 1; AProduce] pg0 in
  let pg1 := after [ANext] pg in
  Next pg = NextWord (bytes "a") pg1 /\ bufW pg - bufR pg = bufSize pg /\
  exists w' pg2,
    (runGenerator_iter pg1 = IterWrote pg2 \/ runGenerator_iter pg1 = IterDone pg2) /\
    run_words pg0 !! Z.to_nat (bufW pg) = Some w' /\
    buf pg1 !! Z.to_nat (Z.land (bufR pg) (bufMask pg)) = Some (bytes "a") /\
    buf pg2 !! Z.to_nat (Z.land (bufR pg) (bufMask pg)) = Some w' /\
    w' <> bytes "a".
Proof.
  cbv zeta. split; [vm_compute; reflexivity|]. split; [vm_compute; reflexivity|].
  apply (Next_slot_reused cfg_ab_len1 (engine_of cfg_ab_len1)).
  - vm_compute. reflexivity.
  - vm_compute. discriminate.
  - vm_compute. reflexivity.
  - apply (exec_all_reachable [ARun 1; AProduce]). vm_compute. reflexivity.
  - vm_compute. reflexivity.
  - vm_compute. reflexivity.
  - vm_compute. reflexivity.
  - vm_compute. discriminate.
Defined.

Lemma single_run_complete_witness :
  let pg0 := engine_of cfg_ab_len1 in
  let l := [ARun 1; AProduce; ANext; AProduce; ANext; AProducerExit 5] in
  let pg := after l pg0 in
  allowed_along single_run l pg0 /\ Next pg = NextEOF pg /\
  pg = pg /\
  (never_started pg /\ Stats 9 pg = (0, 0) \/
   bufR pg = Z.of_nat (length (run_words pg0)) /\
   bufW pg = Z.of_nat (length (run_words pg0)) /\
   Stats 9 pg
   = (Z.of_nat (length (run_words pg0)), Sub (endTime pg) (startTime pg))) /\
  (InitialState cfg_ab_len1 = [] ->
   Z.of_nat (length (run_words pg0)) = total_words pg0).
Proof.
  cbv zeta.
  assert (Hal : allowed_along single_run
                  [ARun 1; AProduce; ANext; AProduce; ANext; AProducerExit 5]
                  (engine_of cfg_ab_len1))
    by (vm_compute; repeat split; lia).
  split; [exact Hal|]. split; [vm_compute; reflexivity|].
  apply (single_run_complete cfg_ab_len1 (engine_of cfg_ab_len1)).
  - vm_compute. reflexivity.
  - vm_compute. discriminate.
  - vm_compute. reflexivity.
  - eapply exec_all_reachable_if; [apply reachable_start|exact Hal|].
    vm_compute. reflexivity.
  - vm_compute. reflexivity.
Defined.

Lemma Stats_single_run_witness :
  let pg0 := engine_of cfg_ab_len1 in
  let l := [ARun 1; AProduce; ANext; AProduce] in
  let pg := after l pg0 in
  allowed_along single_run l pg0 /\
  fst (Stats 9 pg) = bufW pg /\ bufR pg <= fst (Stats 9 pg) /\
  (never_started pg -> Stats 9 pg = (0, 0)) /\
  (running pg = true -> snd (Stats 9 pg) = Since 9 (startTime pg)) /\
  (running pg = false -> ¬ never_started pg ->
   Stats 9 pg
   = (Z.of_nat (length (run_words pg0)), Sub (endTime pg) (startTime pg))).
Proof.
  cbv zeta.
  assert (Hal : allowed_along single_run [ARun 1; AProduce; ANext; AProduce]
                  (engine_of cfg_ab_len1))
    by (vm_compute; repeat split; lia).
  split; [exact Hal|].
  apply (Stats_single_run cfg_ab_len1 (engine_of cfg_ab_len1)).
  - vm_compute. reflexivity.
  - vm_compute. discriminate.
  - vm_compute. reflexivity.
  - eapply exec_all_reachable_if; [apply reachable_start|exact Hal|].
    vm_compute. reflexivity.
Defined.

Lemma consumers_never_panic_witness :
  let pg0 := engine_of cfg_abc in
  let pg := after [ARun 1; AProduce; AProduce; ANext] pg0 in
  Next pg <> NextPanic /\ Next_wake pg <> NextPanic /\
  (forall words, Batch words pg <> BatchPanic) /\
  (forall i count words, Batch_wake i count words pg <> BatchPanic).
Proof.
  cbv zeta. apply (consumers_never_panic cfg_abc (engine_of cfg_abc)).
  - vm_compute. reflexivity.
  - apply (exec_all_reachable [ARun 1; AProduce; AProduce; ANext]). vm_compute. reflexivity.
Defined.

Lemma producer_panics_iff_witness :
  let pg0 := engine_of cfg_ab_len1 in
  let pg := after [ARun 1; AProduce; ANext; AProduce] pg0 in
  runGenerator_iter pg = IterPanic <->
  running pg = true /\ wrap64 (bufW pg - bufR pg) < bufSize pg /\
  stateLen pg = MaxLen (config pg) + 1.
Proof.
  cbv zeta. apply (producer_panics_iff cfg_ab_len1 (engine_of cfg_ab_len1)).
  - vm_compute. reflexivity.
  - apply (exec_all_reachable [ARun 1; AProduce; ANext; AProduce]). vm_compute. reflexivity.
Defined.

Lemma nextState_adds_one_witness :
  let pg := after [ARun 1; AProduce] (engine_of cfg_abc) in
  exists pg',
    state pg = [1] /\ nextState pg = Advanced pg' /\
    counter_at pg' (state pg') /\ frame pg' = frame pg /\
    (length (state pg') = length [1] /\
     value (charsetLen pg) (state pg') = value (charsetLen pg) [1] + 1 \/
     [1] = replicate (length [1]) (charsetLen pg - 1) /\
     state pg' = replicate (S (length [1])) 0).
Proof.
  cbv zeta. eexists. split; [vm_compute; reflexivity|].
  split; [vm_compute; reflexivity|].
  apply (nextState_adds_one
           (after [ARun 1; AProduce] (engine_of cfg_abc)) [1]).
  - constructor; try (vm_compute; reflexivity); try (vm_compute; discriminate).
    + repeat constructor; vm_compute; discriminate.
    + split; vm_compute; reflexivity.
  - vm_compute. reflexivity.
Defined.

Lemma stopped_stays_stopped_witness :
  let pg0 := engine_of cfg_abc in
  let pg := after [ARun 1; AProduce; AProduce; AStop] pg0 in
  let pg2 := after [ANext; AProduce; ANext] pg in
  running pg = false /\ allowed_along no_restart [ANext; AProduce; ANext] pg /\
  running pg2 = false /\ bufW pg2 = bufW pg /\ generated pg2 = generated pg /\
  buf pg2 = buf pg /\ state pg2 = state pg /\
  runGenerator_iter pg2 = IterStopped /\
  (bufW pg2 <= bufR pg2 -> Next pg2 = NextEOF pg2).
Proof.
  cbv zeta.
  assert (Hal : allowed_along no_restart [ANext; AProduce; ANext]
                  (after [ARun 1; AProduce; AProduce; AStop] (engine_of cfg_abc)))
    by (vm_compute; repeat split).
  split; [vm_compute; reflexivity|]. split; [exact Hal|].
  apply (stopped_stays_stopped cfg_abc (engine_of cfg_abc)).
  - vm_compute. reflexivity.
  - apply (exec_all_reachable [ARun 1; AProduce; AProduce; AStop]). vm_compute. reflexivity.
  - vm_compute. reflexivity.
  - eapply exec_all_reachable_if; [apply reachable_start|exact Hal|].
    vm_compute. reflexivity.
Defined.

Lemma Batch_waits_when_drained_witness :
  let pg0 := engine_of cfg_abc in
  let pg := after [ARun 1; AProduce; AProduce] pg0 in
  let words := [bytes "x"; bytes "y"; bytes "z"] in
  let words' := [bytes "a"; bytes "b"; bytes "z"] in
  let pg' := after [ABatch words] pg in
  Batch words pg = BatchWait 2 2 words' pg' /\
  running pg = true /\ 2 = bufW pg - bufR pg /\ Z.of_nat 2 = 2 /\
  2 < Z.of_nat (length words) /\
  bufR pg' = bufW pg /\ bufW pg' = bufW pg /\
  length words' = length words /\
  take 2 words' = take 2 (drop (Z.to_nat (bufR pg)) (run_words pg0)) /\
  drop 2 words' = drop 2 words.
Proof.
  cbv zeta. split; [vm_compute; reflexivity|].
  apply (Batch_waits_when_drained cfg_abc (engine_of cfg_abc)).
  - vm_compute. reflexivity.
  - vm_compute. reflexivity.
  - vm_compute. reflexivity.
  - apply (exec_all_reachable [ARun 1; AProduce; AProduce]). vm_compute. reflexivity.
  - vm_compute. reflexivity.
Defined.

Lemma example_theoretical_total_witness :
  let cfg := mkConfig (bytes "abc") [] 1 2 bufferSize in
  let pg0 := fresh_engine (effective cfg) in
  main_config (bytes "abc") 1 2 = Some cfg /\
  theoretical_total 2 (bytes "abc") 1 2 = Some (total_words pg0) /\
  bufSize pg0 = 8388608 /\
  (total_words pg0 < 2 ^ 64 ->
   forall burst t0 t1,
   exists pg ws pg',
     Run t0 pg0 = Ok pg /\
     consume (S (Z.to_nat (total_words pg0))) burst t1 true pg = Some (ws, pg') /\
     Z.of_nat (length ws) = total_words pg0 /\
     running pg' = false /\ generated pg' = total_words pg0).
Proof.
  cbv zeta. split; [reflexivity|].
  apply (example_theoretical_total (bytes "abc") 1 2
           (mkConfig (bytes "abc") [] 1 2 bufferSize)).
  - lia.
  - lia.
  - reflexivity.
  - apply NewWordGen_accepts.
    + constructor; cbn [effective apply_defaults MinLen MaxLen Charset InitialState];
        try (vm_compute; discriminate).
      * split; vm_compute; discriminate.
      * vm_compute. repeat constructor; set_solver.
      * intros H. contradiction H. reflexivity.
    + lazy. reflexivity.
  - vm_compute. lia.
Defined.

Lemma short_run_never_wraps_witness :
  let pg0 := engine_of cfg_abc in
  let pg := after [ARun 1; AProduce; AProduce; ANext] pg0 in
  reachable_if no_wrap pg0 pg /\ cursors_ok pg.
Proof.
  cbv zeta. apply (short_run_never_wraps cfg_abc (engine_of cfg_abc)).
  - vm_compute. reflexivity.
  - vm_compute. discriminate.
  - vm_compute. reflexivity.
  - apply (exec_all_reachable [ARun 1; AProduce; AProduce; ANext]). vm_compute. reflexivity.
Defined.


(** ** The producer writes in order *)

(** On an engine whose whole enumeration has fewer than [2^64 - 1]
    words: as long as the run has words left, an iteration of the
    producer loop that finds the engine running and room in the buffer
    writes the word
    of the run at the position of the write cursor into the slot of that
    cursor, advances the cursor and the count by one, and returns on
    [io.EOF] exactly when that word was the last one. *)
Theorem producer_writes_in_order cfg pg0 pg :
  NewWordGen cfg = Ok pg0 -> total_words pg0 + 1 < 2 ^ 64 ->
  reachable pg0 pg ->
  running pg = true -> bufW pg - bufR pg < bufSize pg ->
  bufW pg < Z.of_nat (length (run_words pg0)) ->
  exists w pg',
    run_words pg0 !! Z.to_nat (bufW pg) = Some w /\
    (runGenerator_iter pg = IterWrote pg' \/ runGenerator_iter pg = IterDone pg') /\
    (runGenerator_iter pg = IterDone pg' <->
     bufW pg + 1 = Z.of_nat (length (run_words pg0))) /\
    buf pg' = <[Z.to_nat (Z.land (bufW pg) (bufMask pg)) := w]> (buf pg) /\
    buf pg' !! Z.to_nat (Z.land (bufW pg) (bufMask pg)) = Some w /\
    bufW pg' = bufW pg + 1 /\ bufR pg' = bufR pg /\
    generated pg' = wrap64 (generated pg + 1) /\ running pg' = true.
Proof.
  intros Hnew Hsmall Hreach Hrun Hgate Hleft.
  destruct (run_sequence_spec _ _ Hnew) as (_ & _ & _ & Hchain & Hlast & HlenE & _).
  destruct (reachable_run _ _ _ Hnew Hsmall Hreach) as (_ & Hok & Hst & Hc & Hpos).
  apply static_fields in Hst as (Hcfg & Hcs & Hcl & _).
  pose proof Hok as [HR HW _ _ _ _]. unfold cursors_ok in Hc.
  unfold run_words in *. rewrite length_fmap in *.
  destruct Hpos as [[Hf _]|[(n & s & Hn & Hat & Hw)|[Hw _]]]; [congruence| |lia].
  destruct (runGenerator_iter_counter pg s Hat Hok Hrun) as (pg' & Hf & Hiter);
    [rewrite wrap64_small; lia|].
  pose proof (chain_next _ _ _ _ Hchain Hlast Hn) as Hnext.
  rewrite <- Hcl, <- Hcfg in Hnext.
  frame_fields Hf.
  assert (Hslot : (Z.to_nat (Z.land (bufW pg) (bufMask pg)) < length (buf pg))%nat).
  { destruct (slot_exists pg (bufW pg) Hok ltac:(lia) ltac:(lia)) as [old Hold].
    apply lookup_lt_Some in Hold. exact Hold. }
  exists (word_of (charset pg) s), pg'.
  split; [rewrite list_lookup_fmap, Hw, Nat2Z.id, Hn, Hcs; reflexivity|].
  split; [destruct (next_digits _ _ s); [left|right]; tauto|].
  split; [|split; [congruence|split; [|split; [|split; [congruence|split; congruence]]]]].
  - destruct (next_digits _ _ s) as [s'|].
    + destruct Hiter as [Hiter _]. apply lookup_lt_Some in Hnext.
      split; [congruence|lia].
    + split; [lia|intros _; assumption].
  - replace (buf pg') with
      (<[Z.to_nat (Z.land (bufW pg) (bufMask pg)) := word_of (charset pg) s]> (buf pg))
      by congruence.
    apply list_lookup_insert_eq. exact Hslot.
  - replace (bufW pg') with (wrap64 (bufW pg + 1)) by congruence.
    apply wrap64_small. lia.
Qed.

Lemma producer_writes_in_order_witness :
  let pg0 := engine_of cfg_abc in
  let pg := after [ARun 1; AProduce; AProduce; ANext] pg0 in
  exists w pg',
    run_words pg0 !! Z.to_nat (bufW pg) = Some w /\
    (runGenerator_iter pg = IterWrote pg' \/ runGenerator_iter pg = IterDone pg') /\
    (runGenerator_iter pg = IterDone pg' <->
     bufW pg + 1 = Z.of_nat (length (run_words pg0))) /\
    buf pg' = <[Z.to_nat (Z.land (bufW pg) (bufMask pg)) := w]> (buf pg) /\
    buf pg' !! Z.to_nat (Z.land (bufW pg) (bufMask pg)) = Some w /\
    bufW pg' = bufW pg + 1 /\ bufR pg' = bufR pg /\
    generated pg' = wrap64 (generated pg + 1) /\ running pg' = true.
Proof.
  cbv zeta. apply (producer_writes_in_order cfg_abc (engine_of cfg_abc)).
  - vm_compute. reflexivity.
  - vm_compute. reflexivity.
  - apply (exec_all_reachable [ARun 1; AProduce; AProduce; ANext]). vm_compute. reflexivity.
  - vm_compute. reflexivity.
  - vm_compute. reflexivity.
  - vm_compute. reflexivity.
Defined.

(** ** Batch after a wait *)

(** On an engine whose whole enumeration has fewer than [2^64 - 1]
    words, [Batch] resumed after [genCond.Wait()] at entry [i], with [i]
    words taken before: it returns at once if the buffer is still empty;
    otherwise it goes on filling [words] from entry [i] with the next
    words of the run, in order, and stops short of the end of [words]
    only on a drained buffer with the engine stopped. *)
Theorem Batch_wake_in_order cfg pg0 pg words i count' words' pg' :
  NewWordGen cfg = Ok pg0 -> BufferSize cfg < 2 ^ 64 ->
  total_words pg0 + 1 < 2 ^ 64 ->
  reachable pg0 pg ->
  (i < length words)%nat -> Z.of_nat (length words) < 2 ^ 62 ->
  Batch_wake i (Z.of_nat i) words pg = BatchDone count' words' pg' ->
  exists k : nat,
    count' = Z.of_nat (i + k) /\ (i + k <= length words)%nat /\
    bufR pg' = bufR pg + Z.of_nat k /\ bufW pg' = bufW pg /\
    length words' = length words /\
    take i words' = take i words /\
    take k (drop i words') = take k (drop (Z.to_nat (bufR pg)) (run_words pg0)) /\
    drop (i + k) words' = drop (i + k) words /\
    (k = 0%nat <-> bufW pg <= bufR pg) /\
    ((i + k < length words)%nat ->
     bufR pg' = bufW pg /\ (running pg = false \/ k = 0%nat)).
Proof.
  intros Hnew Hbuf Hsmall Hreach Hi Hwords Hbatch.
  pose proof (reachable_slots _ _ _ Hnew Hbuf Hsmall Hreach) as Hs.
  destruct (reachable_run _ _ _ Hnew Hsmall Hreach) as (_ & Hok & Hst & Hc & _).
  apply static_fields in Hst as (_ & Hcs & _).
  destruct Hok as [HR HW [Hsz0 Hsz] _ _ _]. unfold cursors_ok in Hc.
  unfold maxAlloc, sizeof_slice in Hsz.
  destruct (Batch_from_spec (run_sequence pg0) (length words - i) i true (Z.of_nat i)
              words pg)
    as (k & Hk & Hkw & Hres); try assumption; try lia.
  unfold Batch_wake in Hbatch. rewrite Hbatch in Hres.
  destruct Hres as (-> & -> & Hlen & Hout & Hin & Hend).
  exists k. cbn [bufR bufW with_bufR].
  split; [lia|]. split; [lia|]. split; [reflexivity|]. split; [reflexivity|].
  split; [assumption|]. split; [|split; [|split; [|split]]].
  - apply list_eq. intros j. destruct (Nat.lt_ge_cases j i) as [Hj|Hj].
    + rewrite !lookup_take_lt by assumption. apply Hout. left. assumption.
    + rewrite !lookup_take_ge by assumption. reflexivity.
  - apply list_eq. intros j. destruct (Nat.lt_ge_cases j k) as [Hj|Hj].
    + rewrite !lookup_take_lt, !lookup_drop by assumption.
      rewrite (Hin j Hj). unfold run_words. rewrite list_lookup_fmap, Hcs.
      do 2 f_equal. lia.
    + rewrite !lookup_take_ge by assumption. reflexivity.
  - apply list_eq. intros j. rewrite !lookup_drop. apply Hout. right. lia.
  - split.
    + intros ->. destruct Hend as [Hz|[Heq _]]; lia.
    + intros Hle. lia.
  - intros Hlt. destruct Hend as [->|[Heq [Hrun|[_ ->]]]]; [lia| |].
    + split; [assumption|]. left. assumption.
    + split; [lia|]. right. reflexivity.
Qed.

Lemma Batch_wake_in_order_witness :
  let pg0 := engine_of cfg_abc in
  let words := [bytes "a"; bytes "b"; bytes "z"] in
  let words' := [bytes "a"; bytes "b"; bytes "c"] in
  let pg := after [ARun 1; AProduce; AProduce; ABatch words; AProduce] pg0 in
  let pg' := after [ABatchWake 2 2 words] pg in
  Batch_wake 2 (Z.of_nat 2) words pg = BatchDone 3 words' pg' /\
  exists k : nat,
    3 = Z.of_nat (2 + k) /\ (2 + k <= length words)%nat /\
    bufR pg' = bufR pg + Z.of_nat k /\ bufW pg' = bufW pg /\
    length words' = length words /\
    take 2 words' = take 2 words /\
    take k (drop 2 words') = take k (drop (Z.to_nat (bufR pg)) (run_words pg0)) /\
    drop (2 + k) words' = drop (2 + k) words /\
    (k = 0%nat <-> bufW pg <= bufR pg) /\
    ((2 + k < length words)%nat ->
     bufR pg' = bufW pg /\ (running pg = false \/ k = 0%nat)).
Proof.
  cbv zeta. split; [vm_compute; reflexivity|].
  apply (Batch_wake_in_order cfg_abc (engine_of cfg_abc)).
  - vm_compute. reflexivity.
  - vm_compute. reflexivity.
  - vm_compute. reflexivity.
  - apply (exec_all_reachable
             [ARun 1; AProduce; AProduce;
              ABatch [bytes "a"; bytes "b"; bytes "z"]; AProduce]).
    vm_compute. reflexivity.
  - vm_compute. lia.
  - vm_compute. reflexivity.
  - vm_compute. reflexivity.
Defined.

(** * The PassGen revision *)

Lemma NewPassGen_Ok cfg pg :
  PassGen.NewPassGen cfg = PassGen.Ok pg ->
  PassGen.stateLen pg = 0 /\ PassGen.generated pg = 0 /\
  PassGen.startTime pg = zeroTime /\
  PassGen.charsetLen pg = Z.of_nat (length (PassGen.charset pg)) /\
  PassGen.charset pg <> [] /\ NoDup (PassGen.charset pg) /\
  PassGen.MinLen (PassGen.config pg) <= PassGen.MaxLen (PassGen.config pg) /\
  0 <= PassGen.MaxLen (PassGen.config pg) /\
  PassGen.MaxLen (PassGen.config pg) * sizeof_uint <= maxAlloc /\
  PassGen.charset pg
  = match PassGen.Charset cfg with [] => defaultCharset | _ => PassGen.Charset cfg end /\
  PassGen.MinLen (PassGen.config pg)
  = (if PassGen.MinLen cfg =? 0 then defaultMinLen else PassGen.MinLen cfg) /\
  PassGen.MaxLen (PassGen.config pg)
  = (if PassGen.MaxLen cfg =? 0 then defaultMaxLen else PassGen.MaxLen cfg).
Proof.
  unfold PassGen.NewPassGen.
  set (minLen := if PassGen.MinLen cfg =? 0 then _ else _).
  set (maxLen := if PassGen.MaxLen cfg =? 0 then _ else _).
  set (cs := match PassGen.Charset cfg with [] => _ | _ => _ end).
  cbv zeta. destruct (Z.gtb_spec minLen maxLen) as [|Hle]; [discriminate|].
  destruct (make_ok sizeof_uint 0 maxLen) eqn:Hmk; cbn [negb]; [|discriminate].
  apply make_ok_true in Hmk.
  destruct (Z.eqb_spec (Z.of_nat (length cs)) 0) as [|Hne]; [discriminate|].
  destruct (charset_duplicate ∅ 0 cs) as [i|] eqn:Hdup; [discriminate|].
  apply charset_duplicate_None in Hdup as [Hnd _].
  match goal with |- match ?x with _ => _ end = _ -> _ => destruct x as [[e|st]|] end;
    try discriminate.
  cbn [PassGen.config PassGen.BufSize].
  destruct (negb _); [discriminate|]. intros [= <-].
  cbn [PassGen.stateLen PassGen.generated PassGen.startTime PassGen.charsetLen
         PassGen.charset PassGen.config PassGen.MinLen PassGen.MaxLen].
  repeat split; try reflexivity; try lia; try assumption.
  intros ->. simpl in Hne. lia.
Qed.

Lemma passgen_with_state_id pg s :
  PassGen.state pg = s -> PassGen.with_state s pg = pg.
Proof. intros <-. destruct pg; reflexivity. Qed.

(** The increment loop of [PassGen.Next] is [incr] on the digits. *)
Lemma increment_from_incr ds pre pg :
  PassGen.state pg = pre ++ ds ->
  valid_digits (PassGen.charsetLen pg) ds ->
  0 < PassGen.charsetLen pg < 2 ^ 63 ->
  match incr (PassGen.charsetLen pg) ds with
  | Some ds' =>
      PassGen.increment_from (length ds) (length pre) pg
      = PassGen.Advanced (PassGen.with_state (pre ++ ds') pg)
  | None =>
      PassGen.increment_from (length ds) (length pre) pg
      = PassGen.increment_from 0 0
          (PassGen.with_state (pre ++ replicate (length ds) 0) pg)
  end.
Proof.
  revert pre pg. induction ds as [|d ds IH]; intros pre pg Hst Hv HR.
  - cbn [incr length replicate]. rewrite passgen_with_state_id by assumption.
    reflexivity.
  - apply Forall_cons in Hv as [Hd Hv]. cbn [incr length PassGen.increment_from].
    assert (Hlook : PassGen.state pg !! length pre = Some d).
    { rewrite Hst. apply list_lookup_middle. reflexivity. }
    rewrite Hlook. rewrite wrap64_small by lia.
    destruct (Z.ltb_spec (d + 1) (PassGen.charsetLen pg)) as [Hlt|Hge].
    + rewrite Hst, insert_app_r_alt by lia. rewrite Nat.sub_diag. reflexivity.
    + destruct (Z.eqb_spec (PassGen.charsetLen pg) 0) as [|_]; [lia|].
      replace (d + 1) with (PassGen.charsetLen pg) by lia. rewrite Z.mod_same by lia.
      specialize (IH (pre ++ [0])
                    (PassGen.with_state (<[length pre := 0]> (PassGen.state pg)) pg)).
      cbn [PassGen.state PassGen.charsetLen PassGen.with_state] in IH.
      rewrite length_app in IH. cbn [length] in IH. rewrite Nat.add_1_r in IH.
      assert (Hins : <[length pre := 0]> (PassGen.state pg) = (pre ++ [0]) ++ ds).
      { rewrite Hst, insert_app_r_alt by lia. rewrite Nat.sub_diag.
        rewrite <- app_assoc. reflexivity. }
      specialize (IH Hins Hv HR).
      destruct (incr (PassGen.charsetLen pg) ds) as [ds1|];
        cbn [fmap option_fmap option_map]; rewrite IH;
        cbn [replicate]; rewrite <- app_assoc; reflexivity.
Qed.

Lemma emit_word pg ds :
  passgen_at pg ds -> Z.of_nat (length ds) <= maxAlloc ->
  PassGen.emit pg
  = PassGen.Word (word_of (PassGen.charset pg) ds)
      (PassGen.mkPassGen (PassGen.config pg) (PassGen.charset pg)
         (PassGen.charsetLen pg) (PassGen.startTime pg)
         (wrap64 (PassGen.generated pg + 1)) (PassGen.buf pg) (PassGen.state pg)
         (PassGen.stateLen pg)).
Proof.
  intros [Hst Hlen Hv Hr Hs Ha] Hsmall. unfold PassGen.emit.
  assert (Hmk : make_ok 1 (PassGen.stateLen pg) (PassGen.stateLen pg) = true)
    by (apply make_ok_true; lia).
  rewrite Hmk. cbn [negb].
  assert (Hmap : mapM (fun i => d ← PassGen.state pg !! i;
                                PassGen.charset pg !! Z.to_nat d)
                   (seq 0 (Z.to_nat (PassGen.stateLen pg)))
                 = Some (word_of (PassGen.charset pg) ds)); [|rewrite Hmap; reflexivity].
  rewrite Hlen, Nat2Z.id, Hst.
  apply mapM_Some_2, Forall2_same_length_lookup_2.
  - unfold word_of. rewrite length_seq, length_fmap. reflexivity.
  - intros i j c Hi Hc. apply lookup_seq in Hi as [-> Hi]. cbn [Nat.add].
    unfold word_of in Hc. rewrite list_lookup_fmap in Hc.
    destruct (ds !! i) as [d|] eqn:Hd; [|discriminate]. injection Hc as <-.
    cbn. unfold valid_digits in Hv. rewrite Forall_lookup in Hv.
    specialize (Hv i d Hd). apply list_lookup_lookup_total_lt. lia.
Qed.

Lemma passgen_at_moved pg pg' ds ds' :
  passgen_at pg ds ->
  PassGen.state pg' = ds' -> PassGen.stateLen pg' = Z.of_nat (length ds') ->
  valid_digits (PassGen.charsetLen pg) ds' ->
  PassGen.charsetLen pg' = PassGen.charsetLen pg ->
  PassGen.charset pg' = PassGen.charset pg ->
  PassGen.config pg' = PassGen.config pg ->
  passgen_at pg' ds'.
Proof.
  intros [Hst Hl Hv Hr Hs Ha] Hst' Hl' Hv' E1 E2 E3.
  constructor; rewrite ?E1, ?E2, ?E3; assumption.
Qed.

(** A later call of [PassGen.Next]: the word of the successor, or
    [io.EOF] with the state already extended. *)
Lemma passgen_Next_next_digits now pg ds :
  passgen_at pg ds ->
  1 <= Z.of_nat (length ds) <= PassGen.MaxLen (PassGen.config pg) ->
  match next_digits (PassGen.charsetLen pg)
          (Z.to_nat (PassGen.MaxLen (PassGen.config pg))) ds with
  | Some ds' =>
      exists pg',
        PassGen.Next now pg = PassGen.Word (word_of (PassGen.charset pg) ds') pg' /\
        passgen_at pg' ds' /\
        PassGen.generated pg' = wrap64 (PassGen.generated pg + 1) /\
        PassGen.config pg' = PassGen.config pg /\
        PassGen.charset pg' = PassGen.charset pg /\
        PassGen.charsetLen pg' = PassGen.charsetLen pg /\
        PassGen.startTime pg' = PassGen.startTime pg
  | None =>
      exists pg',
        PassGen.Next now pg = PassGen.EOF pg' /\
        passgen_at pg' (replicate (S (length ds)) 0) /\
        PassGen.generated pg' = PassGen.generated pg /\
        PassGen.config pg' = PassGen.config pg /\
        PassGen.charset pg' = PassGen.charset pg /\
        PassGen.charsetLen pg' = PassGen.charsetLen pg /\
        PassGen.startTime pg' = PassGen.startTime pg
  end.
Proof.
  intros Hat Hlen. pose proof Hat as [Hst Hl Hv Hr Hs [Hmax Ha]].
  assert (Hmax45 : PassGen.MaxLen (PassGen.config pg) <= 2 ^ 45)
    by (unfold maxAlloc, sizeof_uint in Ha; lia).
  unfold PassGen.Next. destruct (Z.eqb_spec (PassGen.stateLen pg) 0) as [|_]; [lia|].
  rewrite Hl, Nat2Z.id.
  pose proof (increment_from_incr ds [] pg Hst Hv Hs) as Hloop.
  cbn [length app] in Hloop.
  pose proof (next_digits_Some (PassGen.charsetLen pg) ltac:(lia)
                (Z.to_nat (PassGen.MaxLen (PassGen.config pg))) ds) as Hnext.
  unfold next_digits in *.
  destruct (incr (PassGen.charsetLen pg) ds) as [ds1|] eqn:Hincr.
  - rewrite Hloop.
    destruct (Hnext ds1 Hv ltac:(lia) eq_refl) as [Hv1 Hl1].
    destruct (incr_Some (PassGen.charsetLen pg) ltac:(lia) _ _ Hv Hincr) as [_ Hl2].
    assert (Hat1 : passgen_at (PassGen.with_state ds1 pg) ds1).
    { apply (passgen_at_moved pg _ ds); try assumption; try reflexivity.
      cbn [PassGen.with_state PassGen.stateLen]. congruence. }
    rewrite (emit_word _ ds1 Hat1) by (unfold maxAlloc; lia).
    eexists. split; [reflexivity|].
    split; [|cbn; repeat split].
    apply (passgen_at_moved pg _ ds); try assumption; try reflexivity.
    cbn [PassGen.with_state PassGen.stateLen]. congruence.
  - rewrite Hloop.
    cbn [PassGen.increment_from PassGen.with_state PassGen.with_stateLen
           PassGen.state PassGen.stateLen PassGen.config].
    rewrite Hl, wrap_int_small, to_int_small by lia.
    assert (Hzeros : replicate (length ds) 0 ++ [0] = replicate (S (length ds)) 0)
      by (rewrite replicate_S_end; reflexivity).
    rewrite Hzeros.
    assert (Hvz : valid_digits (PassGen.charsetLen pg) (replicate (S (length ds)) 0))
      by (apply (valid_digits_zeros (PassGen.charsetLen pg)); lia).
    assert (Hlz : Z.of_nat (length ds) + 1
                  = Z.of_nat (length (replicate (S (length ds)) 0)))
      by (rewrite length_replicate; lia).
    destruct (Nat.ltb_spec (Z.to_nat (PassGen.MaxLen (PassGen.config pg)))
                (S (length ds))) as [Hfull|Hroom].
    + assert (Hgt : (Z.of_nat (length ds) + 1 >? PassGen.MaxLen (PassGen.config pg))
                    = true) by (apply gtb_lt; lia).
      rewrite Hgt. eexists. split; [reflexivity|].
      split; [|cbn; repeat split].
      apply (passgen_at_moved pg _ ds); try assumption; reflexivity.
    + assert (Hle : (Z.of_nat (length ds) + 1 >? PassGen.MaxLen (PassGen.config pg))
                    = false) by (apply gtb_ge; lia).
      rewrite Hle.
      match goal with |- context [PassGen.emit ?p] =>
        assert (Hat1 : passgen_at p (replicate (S (length ds)) 0))
          by (apply (passgen_at_moved pg _ ds); try assumption; reflexivity) end.
      rewrite (emit_word _ _ Hat1) by (rewrite length_replicate; unfold maxAlloc; lia).
      eexists. split; [reflexivity|].
      split; [|cbn; repeat split].
      apply (passgen_at_moved pg _ ds); try assumption; reflexivity.
Qed.

(** The first call of [PassGen.Next] starts from [MinLen] zeros,
    whatever [state] held. *)
Lemma passgen_first_Next cfg pg0 now :
  PassGen.NewPassGen cfg = PassGen.Ok pg0 -> 0 <= PassGen.MinLen cfg ->
  exists pg,
    PassGen.Next now pg0
    = PassGen.Word
        (word_of (PassGen.charset pg0)
           (replicate (Z.to_nat (PassGen.MinLen (PassGen.config pg0))) 0)) pg /\
    passgen_at pg (replicate (Z.to_nat (PassGen.MinLen (PassGen.config pg0))) 0) /\
    1 <= PassGen.MinLen (PassGen.config pg0) /\
    PassGen.generated pg = 1 /\ PassGen.startTime pg = now /\
    PassGen.config pg = PassGen.config pg0 /\
    PassGen.charset pg = PassGen.charset pg0 /\
    PassGen.charsetLen pg = PassGen.charsetLen pg0.
Proof.
  intros Hnew Hmin.
  destruct (NewPassGen_Ok _ _ Hnew)
    as (Hlen0 & Hgen0 & _ & Hr & Hne & Hnd & Hle & Hmax & Ha & _ & Hm & _).
  assert (Hmin1 : 1 <= PassGen.MinLen (PassGen.config pg0)).
  { rewrite Hm. destruct (Z.eqb_spec (PassGen.MinLen cfg) 0); unfold defaultMinLen; lia. }
  assert (Hmax45 : PassGen.MaxLen (PassGen.config pg0) <= 2 ^ 45)
    by (unfold maxAlloc, sizeof_uint in Ha; lia).
  pose proof (NoDup_bytes_length _ Hnd) as H256.
  assert (Hpos : 0 < Z.of_nat (length (PassGen.charset pg0))).
  { destruct (PassGen.charset pg0); [congruence|simpl length; lia]. }
  unfold PassGen.Next. rewrite Hlen0. cbn [Z.eqb].
  rewrite to_int_small by lia.
  assert (Hmk : make_ok sizeof_uint (PassGen.MinLen (PassGen.config pg0))
                  (PassGen.MinLen (PassGen.config pg0)) = true)
    by (apply make_ok_true; unfold maxAlloc, sizeof_uint in *; lia).
  rewrite Hmk. cbn [negb].
  match goal with |- context [PassGen.emit ?p] =>
    assert (Hat : passgen_at p
                    (replicate (Z.to_nat (PassGen.MinLen (PassGen.config pg0))) 0)) end.
  { constructor; cbn [PassGen.state PassGen.stateLen PassGen.charsetLen
                        PassGen.charset PassGen.config];
      try reflexivity; try assumption.
    - rewrite length_replicate. lia.
    - rewrite Hr. apply (valid_digits_zeros (Z.of_nat (length (PassGen.charset pg0)))).
      assumption.
    - lia.
    - split; assumption. }
  rewrite (emit_word _ _ Hat) by (rewrite length_replicate; unfold maxAlloc; lia).
  eexists. split; [reflexivity|].
  split; [|cbn; rewrite Hgen0; repeat split; assumption].
  apply (passgen_at_moved _ _ _ _ Hat);
    [reflexivity|cbn; rewrite length_replicate; lia|destruct Hat; assumption
    |reflexivity..].
Qed.

(** Successive calls follow a chain of successors. *)
Lemma calls_chain l :
  forall s pg nows,
    chain (next_digits (PassGen.charsetLen pg)
             (Z.to_nat (PassGen.MaxLen (PassGen.config pg)))) (s :: l) ->
    passgen_at pg s ->
    1 <= Z.of_nat (length s) <= PassGen.MaxLen (PassGen.config pg) ->
    0 <= PassGen.generated pg < 2 ^ 64 ->
    length nows = length l ->
    exists pg' z,
      PassGen.calls nows pg = Some (word_of (PassGen.charset pg) <$> l, pg') /\
      last (s :: l) = Some z /\ passgen_at pg' z /\
      1 <= Z.of_nat (length z) <= PassGen.MaxLen (PassGen.config pg) /\
      PassGen.generated pg'
      = wrap64 (PassGen.generated pg + Z.of_nat (length l)) /\
      PassGen.config pg' = PassGen.config pg /\
      PassGen.charset pg' = PassGen.charset pg /\
      PassGen.charsetLen pg' = PassGen.charsetLen pg /\
      PassGen.startTime pg' = PassGen.startTime pg.
Proof.
  induction l as [|y l IH]; intros s pg nows Hchain Hat Hlen Hgen Hnows.
  - destruct nows; [|discriminate]. exists pg, s. cbn [PassGen.calls fmap list_fmap].
    split; [reflexivity|]. split; [reflexivity|]. split; [assumption|].
    split; [lia|]. split; [|repeat split; reflexivity].
    cbn [length]. change (Z.of_nat 0) with 0.
    rewrite Z.add_0_r, wrap64_small by assumption. reflexivity.
  - destruct nows as [|now nows]; [discriminate|]. injection Hnows as Hnows.
    inversion Hchain as [|? ? ? Hstep Hrest]; subst.
    pose proof (passgen_Next_next_digits now pg s Hat Hlen) as Hnext.
    rewrite Hstep in Hnext.
    destruct Hnext as (pg1 & Hcall & Hat1 & Hgen1 & Hcfg1 & Hcs1 & Hcl1 & Hstart1).
    pose proof Hat as [_ _ Hv _ [Hpos _] _].
    assert (Hls : (length s <= Z.to_nat (PassGen.MaxLen (PassGen.config pg)))%nat)
      by lia.
    destruct (next_digits_Some (PassGen.charsetLen pg) Hpos _ _ _ Hv Hls Hstep)
      as [_ Hly].
    destruct (IH y pg1 nows) as (pg' & z & Hcalls & Hz & Hatz & Hlz & Hgz & E1 & E2 & E3 & E4).
    + rewrite Hcl1, Hcfg1. assumption.
    + assumption.
    + rewrite Hcfg1. lia.
    + rewrite Hgen1. apply wrap64_range.
    + assumption.
    + exists pg', z. cbn [PassGen.calls]. rewrite Hcall, Hcalls.
      cbn [mbind option_bind]. rewrite Hcs1.
      split; [reflexivity|]. split; [rewrite last_cons_cons; assumption|].
      split; [assumption|]. split; [rewrite <- Hcfg1; assumption|].
      split; [|repeat split; congruence].
      rewrite Hgz, Hgen1. unfold wrap64. cbn [length].
      rewrite Zplus_mod_idemp_l. f_equal. lia.
Qed.

(** The calls up to the last word of the enumeration. *)
Lemma passgen_full_run cfg pg0 now nows :
  PassGen.NewPassGen cfg = PassGen.Ok pg0 -> 0 <= PassGen.MinLen cfg ->
  S (length nows)
  = length (enumeration (PassGen.charsetLen pg0)
              (Z.to_nat (PassGen.MinLen (PassGen.config pg0)))
              (Z.to_nat (PassGen.MaxLen (PassGen.config pg0)))) ->
  exists pg,
    PassGen.calls (now :: nows) pg0
    = Some (word_of (PassGen.charset pg0) <$>
              enumeration (PassGen.charsetLen pg0)
                (Z.to_nat (PassGen.MinLen (PassGen.config pg0)))
                (Z.to_nat (PassGen.MaxLen (PassGen.config pg0))), pg) /\
    passgen_at pg
      (replicate (Z.to_nat (PassGen.MaxLen (PassGen.config pg0)))
         (PassGen.charsetLen pg0 - 1)) /\
    1 <= PassGen.MaxLen (PassGen.config pg0) /\
    PassGen.generated pg = wrap64 (Z.of_nat (S (length nows))) /\
    PassGen.startTime pg = now /\
    PassGen.config pg = PassGen.config pg0 /\
    PassGen.charset pg = PassGen.charset pg0 /\
    PassGen.charsetLen pg = PassGen.charsetLen pg0.
Proof.
  intros Hnew Hmin Hnows.
  destruct (passgen_first_Next _ _ now Hnew Hmin)
    as (pg1 & Hcall & Hat1 & Hmin1 & Hgen1 & Hstart1 & Hcfg1 & Hcs1 & Hcl1).
  destruct (NewPassGen_Ok _ _ Hnew)
    as (_ & _ & _ & Hr & Hne & Hnd & Hle & Hmax & Ha & _).
  set (R := PassGen.charsetLen pg0) in *.
  set (lo := Z.to_nat (PassGen.MinLen (PassGen.config pg0))) in *.
  set (hi := Z.to_nat (PassGen.MaxLen (PassGen.config pg0))) in *.
  assert (Hpos : 0 < R)
    by (subst R; rewrite Hr; destruct (PassGen.charset pg0); [congruence|simpl length; lia]).
  assert (Hlohi : (lo <= hi)%nat) by (subst lo hi; lia).
  unfold enumeration in *. replace (S hi - lo)%nat with (S (hi - lo)) in * by lia.
  destruct (enumeration_from_chain R Hpos hi (hi - lo) lo ltac:(lia))
    as (Hchain & Hhead & Hlast).
  destruct (enumeration_from R lo (S (hi - lo))) as [|s rest] eqn:Henum; [discriminate|].
  injection Hhead as ->. cbn [length] in Hnows. injection Hnows as Hnows.
  destruct (calls_chain rest (replicate lo 0) pg1 nows)
    as (pg & z & Hcalls & Hz & Hatz & Hlz & Hgz & E1 & E2 & E3 & E4).
  - rewrite Hcl1, Hcfg1. exact Hchain.
  - assumption.
  - rewrite length_replicate, Hcfg1. subst lo. lia.
  - rewrite Hgen1. lia.
  - assumption.
  - exists pg. rewrite Hz in Hlast. injection Hlast as ->.
    replace (lo + (hi - lo))%nat with hi in Hatz by lia.
    split; [|split; [assumption|split; [lia|split; [|repeat split; congruence]]]].
    + cbn [PassGen.calls]. rewrite Hcall, Hcalls. cbn [mbind option_bind].
      rewrite Hcs1. reflexivity.
    + rewrite Hgz, Hgen1, Hnows. f_equal. lia.
Qed.

(** The call after the last word returns [io.EOF]. *)
Lemma PassGen_Next_sequence_aux cfg pg0 now nows :
  PassGen.NewPassGen cfg = PassGen.Ok pg0 -> 0 <= PassGen.MinLen cfg ->
  S (length nows)
  = length (enumeration (PassGen.charsetLen pg0)
              (Z.to_nat (PassGen.MinLen (PassGen.config pg0)))
              (Z.to_nat (PassGen.MaxLen (PassGen.config pg0)))) ->
  exists pg,
    PassGen.calls (now :: nows) pg0
    = Some (word_of (PassGen.charset pg0) <$>
              enumeration (PassGen.charsetLen pg0)
                (Z.to_nat (PassGen.MinLen (PassGen.config pg0)))
                (Z.to_nat (PassGen.MaxLen (PassGen.config pg0))), pg) /\
    (forall t, exists pg', PassGen.Next t pg = PassGen.EOF pg').
Proof.
  intros Hnew Hmin Hnows.
  destruct (passgen_full_run _ _ now nows Hnew Hmin Hnows)
    as (pg & Hcalls & Hat & Hmax1 & Hgen & Hstart & Hcfg & Hcs & Hcl).
  exists pg. split; [assumption|].
  intros t.
  pose proof Hat as [_ _ _ _ [Hpos _] _]. rewrite Hcl in Hpos.
  pose proof (passgen_Next_next_digits t pg _ Hat) as Hnext.
  rewrite length_replicate, Hcfg, Hcl in Hnext.
  assert (Hnone : next_digits (PassGen.charsetLen pg0)
                    (Z.to_nat (PassGen.MaxLen (PassGen.config pg0)))
                    (replicate (Z.to_nat (PassGen.MaxLen (PassGen.config pg0)))
                       (PassGen.charsetLen pg0 - 1)) = None).
  { apply next_digits_None;
      [apply Forall_replicate; lia|rewrite length_replicate; lia|reflexivity]. }
  rewrite Hnone in Hnext. destruct Hnext as (pg' & Hn & _); [lia|].
  exists pg'. exact Hn.
Qed.

(** The PassGen revision goes through the same enumeration: the calls
    of [Next] return the words of the digit sequences of lengths
    [MinLen .. MaxLen] in length-major, odometer-minor order, whatever
    initial state the configuration carries (it is validated and then
    overwritten by the first call); the call after the last word returns
    [io.EOF]; [Stats] then reports the number of words, modulo [2^64],
    and [time.Since] of the time of the first call. *)
Theorem PassGen_Next_sequence cfg pg0 now nows :
  PassGen.NewPassGen cfg = PassGen.Ok pg0 -> 0 <= PassGen.MinLen cfg ->
  S (length nows)
  = length (enumeration (PassGen.charsetLen pg0)
              (Z.to_nat (PassGen.MinLen (PassGen.config pg0)))
              (Z.to_nat (PassGen.MaxLen (PassGen.config pg0)))) ->
  exists pg,
    PassGen.calls (now :: nows) pg0
    = Some (word_of (PassGen.charset pg0) <$>
              enumeration (PassGen.charsetLen pg0)
                (Z.to_nat (PassGen.MinLen (PassGen.config pg0)))
                (Z.to_nat (PassGen.MaxLen (PassGen.config pg0))), pg) /\
    (forall t, exists pg', PassGen.Next t pg = PassGen.EOF pg') /\
    (forall t,
       PassGen.Stats t pg = (wrap64 (Z.of_nat (S (length nows))), Since t now)).
Proof.
  intros Hnew Hmin Hnows.
  destruct (PassGen_Next_sequence_aux _ _ now nows Hnew Hmin Hnows)
    as (pg & Hcalls & Heof).
  destruct (passgen_full_run _ _ now nows Hnew Hmin Hnows)
    as (pg2 & Hcalls2 & _ & _ & Hgen & Hstart & _).
  assert (pg2 = pg) as -> by congruence.
  exists pg. split; [assumption|]. split; [assumption|].
  intros t. unfold PassGen.Stats. rewrite Hgen, Hstart. reflexivity.
Qed.

(** In [PassGen.Next] a first digit below [R - 1] is incremented
    without a look at [MaxLen]. *)
Lemma passgen_Next_first_digit t pg d rest :
  passgen_at pg (d :: rest) -> d + 1 < PassGen.charsetLen pg ->
  Z.of_nat (length (d :: rest)) <= maxAlloc ->
  exists pg',
    PassGen.Next t pg = PassGen.Word (word_of (PassGen.charset pg) (d + 1 :: rest)) pg'.
Proof.
  intros Hat Hd Hsmall. pose proof Hat as [Hst Hl Hv Hr Hs Ha].
  apply Forall_cons in Hv as [Hd0 Hv].
  unfold PassGen.Next. destruct (Z.eqb_spec (PassGen.stateLen pg) 0) as [E|_];
    [rewrite Hl in E; cbn [length] in E; lia|].
  rewrite Hl, Nat2Z.id. cbn [length PassGen.increment_from].
  rewrite Hst. cbn [lookup list_lookup]. rewrite wrap64_small by lia.
  destruct (Z.ltb_spec (d + 1) (PassGen.charsetLen pg)); [|lia].
  cbn [insert list_insert].
  assert (Hat1 : passgen_at (PassGen.with_state (d + 1 :: rest) pg) (d + 1 :: rest)).
  { apply (passgen_at_moved pg _ (d :: rest)); try assumption; try reflexivity.
    constructor; [lia|assumption]. }
  rewrite (emit_word _ _ Hat1) by assumption.
  eexists. reflexivity.
Qed.

(** In the PassGen revision [io.EOF] is not final: with at least two
    symbols, the call after [io.EOF] returns a word of [MaxLen + 1]
    symbols (the second symbol followed by [MaxLen] times the first). *)
Theorem PassGen_EOF_not_final cfg pg0 now nows t t' :
  PassGen.NewPassGen cfg = PassGen.Ok pg0 -> 0 <= PassGen.MinLen cfg ->
  2 <= PassGen.charsetLen pg0 ->
  S (length nows)
  = length (enumeration (PassGen.charsetLen pg0)
              (Z.to_nat (PassGen.MinLen (PassGen.config pg0)))
              (Z.to_nat (PassGen.MaxLen (PassGen.config pg0)))) ->
  exists ws pg pg' pg'' w,
    PassGen.calls (now :: nows) pg0 = Some (ws, pg) /\
    PassGen.Next t pg = PassGen.EOF pg' /\
    PassGen.Next t' pg' = PassGen.Word w pg'' /\
    w = word_of (PassGen.charset pg0)
          (1 :: replicate (Z.to_nat (PassGen.MaxLen (PassGen.config pg0))) 0) /\
    Z.of_nat (length w) = PassGen.MaxLen (PassGen.config pg0) + 1.
Proof.
  intros Hnew Hmin HR Hnows.
  destruct (passgen_full_run _ _ now nows Hnew Hmin Hnows)
    as (pg & Hcalls & Hat & Hmax1 & Hgen & Hstart & Hcfg & Hcs & Hcl).
  pose proof Hat as [_ _ _ _ _ [_ Ha]]. rewrite Hcfg in Ha.
  pose proof (passgen_Next_next_digits t pg _ Hat) as Hnext.
  rewrite length_replicate, Hcfg, Hcl in Hnext.
  assert (Hnone : next_digits (PassGen.charsetLen pg0)
                    (Z.to_nat (PassGen.MaxLen (PassGen.config pg0)))
                    (replicate (Z.to_nat (PassGen.MaxLen (PassGen.config pg0)))
                       (PassGen.charsetLen pg0 - 1)) = None).
  { apply next_digits_None;
      [apply Forall_replicate; lia|rewrite length_replicate; lia|reflexivity]. }
  rewrite Hnone in Hnext.
  destruct Hnext as (pg' & Hn & Hat' & _ & Hcfg' & Hcs' & Hcl' & _); [lia|].
  cbn [replicate] in Hat'.
  destruct (passgen_Next_first_digit t' pg' 0 _ Hat') as (pg'' & Hw).
  - rewrite Hcl'. lia.
  - cbn [length]. rewrite length_replicate. unfold maxAlloc, sizeof_uint in *. lia.
  - eexists _, pg, pg', pg'', _. split; [eassumption|]. split; [assumption|].
    split; [eassumption|]. rewrite Hcs', Hcs. split; [reflexivity|].
    unfold word_of. rewrite length_fmap. cbn [length]. rewrite length_replicate. lia.
Qed.

(** Before the first call of [Next] the start time is still the zero
    [time.Time]: [Stats] returns a count of 0 and, at every clock reading
    that lies a full [Duration] or more after the zero instant, the
    largest [Duration], where [time.Since] saturates. *)
Theorem PassGen_Stats_before_first_Next cfg pg0 t :
  PassGen.NewPassGen cfg = PassGen.Ok pg0 -> maxDuration <= t ->
  PassGen.Stats t pg0 = (0, maxDuration).
Proof.
  intros Hnew Ht. destruct (NewPassGen_Ok _ _ Hnew) as (_ & Hgen & Hstart & _).
  unfold PassGen.Stats, Since, Sub. rewrite Hgen, Hstart. unfold zeroTime.
  rewrite Z.sub_0_r. f_equal.
  destruct (Z.gtb_spec t maxDuration); [reflexivity|].
  destruct (Z.ltb_spec t minDuration); [unfold minDuration, maxDuration in *; lia|lia].
Qed.

(** The two revisions hand out the same words: for the same charset and
    lengths, the calls of [PassGen.Next] return, in the same order, the
    words a consumer receives through [Next] from a run of the engine
    started without an initial state (with a capacity that is not 0 and
    fewer than [2^64] words), and then [io.EOF]. *)
Theorem PassGen_agrees_with_WordGen cfgP cfgW p0 pg0 now nows :
  PassGen.NewPassGen cfgP = PassGen.Ok p0 -> NewWordGen cfgW = Ok pg0 ->
  Charset cfgW = PassGen.Charset cfgP -> MinLen cfgW = PassGen.MinLen cfgP ->
  MaxLen cfgW = PassGen.MaxLen cfgP -> InitialState cfgW = [] ->
  0 <= MinLen cfgW ->
  BufferSize cfgW <= 2 ^ 63 -> total_words pg0 < 2 ^ 64 ->
  Z.of_nat (S (length nows)) = total_words pg0 ->
  exists ws p,
    PassGen.calls (now :: nows) p0 = Some (ws, p) /\
    (forall t, exists p', PassGen.Next t p = PassGen.EOF p') /\
    (forall burst t0 t1,
     exists pg pg',
       Run t0 pg0 = Ok pg /\
       consume (S (length ws)) burst t1 true pg = Some (ws, pg') /\
       running pg' = false).
Proof.
  intros HnewP HnewW Hcs Hmin Hmax Hnil Hmin0 Hcap Hsum Hnows.
  destruct (NewPassGen_Ok _ _ HnewP)
    as (_ & _ & _ & HrP & _ & _ & _ & _ & _ & HcsP & HminP & HmaxP).
  destruct (run_sequence_whole _ _ HnewW Hnil) as [Hseq Hlen].
  pose proof (NewWordGen_Ok _ _ HnewW) as (_ & E & _).
  assert (EcsW : charset pg0 = PassGen.charset p0).
  { rewrite E, HcsP, <- Hcs. reflexivity. }
  assert (EclW : charsetLen pg0 = PassGen.charsetLen p0).
  { rewrite HrP, <- EcsW, E. reflexivity. }
  assert (EminW : MinLen (config pg0) = PassGen.MinLen (PassGen.config p0)).
  { rewrite HminP, <- Hmin, E. reflexivity. }
  assert (EmaxW : MaxLen (config pg0) = PassGen.MaxLen (PassGen.config p0)).
  { rewrite HmaxP, <- Hmax, E. reflexivity. }
  assert (Hwords : run_words pg0
                   = word_of (PassGen.charset p0) <$>
                       enumeration (PassGen.charsetLen p0)
                         (Z.to_nat (PassGen.MinLen (PassGen.config p0)))
                         (Z.to_nat (PassGen.MaxLen (PassGen.config p0)))).
  { unfold run_words. rewrite Hseq, EcsW, EclW, EminW, EmaxW. reflexivity. }
  destruct (PassGen_Next_sequence_aux cfgP p0 now nows HnewP ltac:(lia))
    as (p & Hcalls & Heof).
  { apply Nat2Z.inj. rewrite Hnows, <- Hlen, Hseq, EclW, EminW, EmaxW. reflexivity. }
  exists (run_words pg0), p. rewrite Hwords at 1.
  split; [assumption|]. split; [assumption|].
  intros burst t0 t1.
  destruct (consume_run _ pg0 HnewW Hcap ltac:(lia) burst t1 t0 (S (length (run_words pg0))))
    as (pg & pg' & Hrun & Hcons & Hstop & _); [lia|].
  exists pg, pg'. split; [assumption|]. split; assumption.
Qed.

Lemma PassGen_Next_sequence_witness :
  exists pg0,
    PassGen.NewPassGen cfg_passgen_abc = PassGen.Ok pg0 /\
    exists pg,
      PassGen.calls (1 :: replicate 11 2) pg0
      = Some (word_of (PassGen.charset pg0) <$>
                enumeration (PassGen.charsetLen pg0)
                  (Z.to_nat (PassGen.MinLen (PassGen.config pg0)))
                  (Z.to_nat (PassGen.MaxLen (PassGen.config pg0))), pg) /\
      (forall t, exists pg', PassGen.Next t pg = PassGen.EOF pg') /\
      (forall t, PassGen.Stats t pg
                 = (wrap64 (Z.of_nat (S (length (replicate 11 2)))), Since t 1)).
Proof.
  eexists. split; [vm_compute; reflexivity|].
  apply (PassGen_Next_sequence cfg_passgen_abc _ 1 (replicate 11 2)).
  - vm_compute. reflexivity.
  - vm_compute. discriminate.
  - vm_compute. reflexivity.
Defined.

Lemma PassGen_EOF_not_final_witness :
  exists pg0,
    PassGen.NewPassGen cfg_passgen_abc = PassGen.Ok pg0 /\
    exists ws pg pg' pg'' w,
      PassGen.calls (1 :: replicate 11 2) pg0 = Some (ws, pg) /\
      PassGen.Next 3 pg = PassGen.EOF pg' /\
      PassGen.Next 4 pg' = PassGen.Word w pg'' /\
      w = word_of (PassGen.charset pg0)
            (1 :: replicate (Z.to_nat (PassGen.MaxLen (PassGen.config pg0))) 0) /\
      Z.of_nat (length w) = PassGen.MaxLen (PassGen.config pg0) + 1.
Proof.
  eexists. split; [vm_compute; reflexivity|].
  apply (PassGen_EOF_not_final cfg_passgen_abc _ 1 (replicate 11 2) 3 4).
  - vm_compute. reflexivity.
  - vm_compute. discriminate.
  - vm_compute. discriminate.
  - vm_compute. reflexivity.
Defined.

Lemma PassGen_Stats_before_first_Next_witness :
  exists pg0,
    PassGen.NewPassGen cfg_passgen_abc = PassGen.Ok pg0 /\
    PassGen.Stats (2 ^ 64) pg0 = (0, 9223372036854775807).
Proof.
  eexists. split; [vm_compute; reflexivity|].
  apply (PassGen_Stats_before_first_Next cfg_passgen_abc);
    [vm_compute; reflexivity|vm_compute; discriminate].
Defined.

Lemma PassGen_agrees_with_WordGen_witness :
  exists p0,
    PassGen.NewPassGen cfg_passgen_abc = PassGen.Ok p0 /\
    exists ws p,
      PassGen.calls (1 :: replicate 11 2) p0 = Some (ws, p) /\
      (forall t, exists p', PassGen.Next t p = PassGen.EOF p') /\
      (forall burst t0 t1,
       exists pg pg',
         Run t0 (engine_of cfg_abc) = Ok pg /\
         consume (S (length ws)) burst t1 true pg = Some (ws, pg') /\
         running pg' = false).
Proof.
  eexists. split; [vm_compute; reflexivity|].
  apply (PassGen_agrees_with_WordGen cfg_passgen_abc cfg_abc _ (engine_of cfg_abc) 1
           (replicate 11 2)); try reflexivity.
  - vm_compute. discriminate.
  - vm_compute. discriminate.
Defined.

